(** * accessviz: the aggregation/filter pipeline and the view-transform
      controller of [web/app.js]

    The development embeds the functions of [web/app.js] that carry the
    program's logic: [aggregateIps], [hitMatchesFilters], [applyFilters],
    the time-domain part of [load], [updateTimeFromInputs], [setupProjection],
    the pointer and wheel handlers of [enableDrag] and [enableZoom], [animate]
    and [drawPoints]; and, further on, [updateTimelineProgress],
    [resizeCanvas] with the size toggle, [updateCountryCounts], the opacity
    of [drawLand], [getSunPosition], the value maps of [populateFilters] and
    the rows of [renderTable].

    Conventions of the embedding.
    - A JavaScript number is a [Num.num]: NaN, one of the two infinities, or a
      finite value carried as a rational.  Arithmetic on finite values is
      exact: rounding, overflow and the sign of zero are not modelled.
    - [null] and [undefined] are [None] of an option type.
    - The [Map] of [aggregateIps] is an association list kept in insertion
      order, which is the order [Map.prototype.values] iterates in.
    - Functions of the host environment and of d3 that the program calls but
      does not define are taken as parameters, through the classes
      [JSString], [JSDate], [D3], [GeoContains], [JSMath] and [Solar];
      small instances let the definitions run. *)

From Stdlib Require Import List String Ascii ZArith QArith Lia Lqa Bool.
From Stdlib Require Import Qabs Sorted Permutation.
Import ListNotations.

Local Open Scope string_scope.

(** ** JavaScript numbers *)

Module Num.

Inductive num : Type :=
| NaN
| NInf
| PInf
| Fin (q : Q).

Definition isNaN (a : num) : bool :=
  match a with NaN => true | _ => false end.

Definition isFinite (a : num) : bool :=
  match a with Fin _ => true | _ => false end.

(** ToBoolean on a number: NaN and zero are falsy. *)
Definition truthy (a : num) : bool :=
  match a with
  | NaN => false
  | Fin q => negb (Qeq_bool q 0)
  | _ => true
  end.

(** [a < b]; any comparison with NaN is false. *)
Definition ltb (a b : num) : bool :=
  match a, b with
  | NaN, _ | _, NaN => false
  | NInf, NInf => false
  | NInf, _ => true
  | PInf, _ => false
  | Fin _, NInf => false
  | Fin _, PInf => true
  | Fin p, Fin q => negb (Qle_bool q p)
  end.

(** [a <= b]. *)
Definition leb (a b : num) : bool :=
  match a, b with
  | NaN, _ | _, NaN => false
  | NInf, _ => true
  | _, PInf => true
  | PInf, _ => false
  | Fin _, NInf => false
  | Fin p, Fin q => Qle_bool p q
  end.

Definition gtb (a b : num) : bool := ltb b a.
Definition geb (a b : num) : bool := leb b a.

Definition neg (a : num) : num :=
  match a with
  | NaN => NaN
  | NInf => PInf
  | PInf => NInf
  | Fin q => Fin (- q)
  end.

Definition add (a b : num) : num :=
  match a, b with
  | NaN, _ | _, NaN => NaN
  | PInf, NInf | NInf, PInf => NaN
  | PInf, _ | _, PInf => PInf
  | NInf, _ | _, NInf => NInf
  | Fin p, Fin q => Fin (p + q)
  end.

Definition sub (a b : num) : num := add a (neg b).

(** An infinity multiplied by a finite value: the sign decides, and
    zero times infinity is NaN. *)
Definition scale_inf (positive : bool) (q : Q) : num :=
  if Qeq_bool q 0 then NaN
  else if Qle_bool 0 q then (if positive then PInf else NInf)
  else (if positive then NInf else PInf).

Definition mul (a b : num) : num :=
  match a, b with
  | NaN, _ | _, NaN => NaN
  | PInf, PInf | NInf, NInf => PInf
  | PInf, NInf | NInf, PInf => NInf
  | PInf, Fin q | Fin q, PInf => scale_inf true q
  | NInf, Fin q | Fin q, NInf => scale_inf false q
  | Fin p, Fin q => Fin (p * q)
  end.

(** Division.  A zero divisor is taken as positive zero. *)
Definition div (a b : num) : num :=
  match a, b with
  | NaN, _ | _, NaN => NaN
  | Fin p, Fin q =>
      if Qeq_bool q 0 then
        (if Qeq_bool p 0 then NaN
         else if Qle_bool 0 p then PInf else NInf)
      else Fin (p / q)
  | Fin _, _ => Fin 0
  | PInf, Fin q => if Qle_bool 0 q then PInf else NInf
  | NInf, Fin q => if Qle_bool 0 q then NInf else PInf
  | _, _ => NaN
  end.

(** [Math.min] and [Math.max] of two arguments: NaN is contagious. *)
Definition min (a b : num) : num :=
  match a, b with
  | NaN, _ | _, NaN => NaN
  | _, _ => if leb a b then a else b
  end.

Definition max (a b : num) : num :=
  match a, b with
  | NaN, _ | _, NaN => NaN
  | _, _ => if leb a b then b else a
  end.

(** [Math.abs]. *)
Definition abs (a : num) : num :=
  match a with
  | NaN => NaN
  | NInf | PInf => PInf
  | Fin q => Fin (Qabs q)
  end.

(** [Math.min(...xs)] and [Math.max(...xs)]: the empty spread gives
    [Infinity] and [-Infinity]. *)
Definition min_list (xs : list num) : num := fold_left min xs PInf.
Definition max_list (xs : list num) : num := fold_left max xs NInf.

(** Two numbers denote the same value. *)
Definition same (a b : num) : Prop :=
  match a, b with
  | NaN, NaN | NInf, NInf | PInf, PInf => True
  | Fin p, Fin q => p == q
  | _, _ => False
  end.

Definition of_Z (z : Z) : num := Fin (inject_Z z).

End Num.

Abbreviation num := Num.num.
Abbreviation NaN := Num.NaN.
Abbreviation Fin := Num.Fin.

(** [const clamp = (v, min, max) => Math.max(min, Math.min(max, v))] *)
Definition clamp (v lo hi : num) : num := Num.max lo (Num.min hi v).

(** ** Strings *)

(** The methods of [String.prototype] the program calls. *)
Class JSString : Type := {
  toLowerCase : string -> string;
  trim : string -> string;
  includes : string -> string -> bool
}.

(** An instance over ASCII text, used to run the definitions. *)
Module AsciiText.

Definition lower_char (c : ascii) : ascii :=
  let n := nat_of_ascii c in
  if (65 <=? n)%nat && (n <=? 90)%nat then ascii_of_nat (n + 32) else c.

Fixpoint lower (s : string) : string :=
  match s with
  | EmptyString => EmptyString
  | String c s' => String (lower_char c) (lower s')
  end.

Definition is_space (c : ascii) : bool :=
  let n := nat_of_ascii c in
  (n =? 32)%nat || ((9 <=? n)%nat && (n <=? 13)%nat).

Fixpoint trim_start (s : string) : string :=
  match s with
  | EmptyString => EmptyString
  | String c s' => if is_space c then trim_start s' else s
  end.

Fixpoint rev_string (s acc : string) : string :=
  match s with
  | EmptyString => acc
  | String c s' => rev_string s' (String c acc)
  end.

Definition strip (s : string) : string :=
  rev_string (trim_start (rev_string (trim_start s) "")) "".

Fixpoint contains (hay needle : string) : bool :=
  String.prefix needle hay ||
  match hay with
  | EmptyString => false
  | String _ hay' => contains hay' needle
  end.

#[export] Instance ops : JSString := {
  toLowerCase := lower;
  trim := strip;
  includes := contains
}.

End AsciiText.

(** ToBoolean on a string that may be [undefined] or [null]. *)
Definition truthy_str (s : option string) : bool :=
  match s with
  | Some (String _ _) => true
  | _ => false
  end.

(** [s || ''] *)
Definition or_empty (s : option string) : string :=
  match s with
  | Some t => t
  | None => ""
  end.

(** ** Records of the dataset and their summaries *)

(** One element of [allHits]: a record of [data.hits] with the [_ts] field
    that [load] adds. *)
Module Hit.
Record t : Type := mk {
  ip : string;
  ts : string;
  _ts : num;
  country : option string;
  city : option string;
  ua_type : option string;
  path : option string;
  request : option string;
  lat : option num;
  lon : option num;
  status : Z
}.

(** [{ ...h, _ts: n }] *)
Definition with_ts (h : t) (n : num) : t :=
  {| ip := ip h; ts := ts h; _ts := n; country := country h;
     city := city h; ua_type := ua_type h; path := path h;
     request := request h; lat := lat h; lon := lon h;
     status := status h |}.
End Hit.

(** The object [aggregateIps] keeps per address. *)
Module Entry.
Record t : Type := mk {
  ip : string;
  count : nat;
  first_seen : string;
  last_seen : string;
  country : option string;
  city : option string;
  lat : option num;
  lon : option num;
  ua_type : option string
}.
End Entry.

(** ** The [Map] of [aggregateIps] *)

Module StrMap.
Section Assoc.
Context {V : Type}.

Definition t : Type := list (string * V).

Definition empty : t := [].

Fixpoint get (m : t) (k : string) : option V :=
  match m with
  | [] => None
  | (k', v) :: m' => if String.eqb k' k then Some v else get m' k
  end.

(** [set] keeps the position of a key that is already present and
    appends a new key. *)
Fixpoint set (m : t) (k : string) (v : V) : t :=
  match m with
  | [] => [(k, v)]
  | (k', v') :: m' =>
      if String.eqb k' k then (k', v) :: m' else (k', v') :: set m' k v
  end.

Definition values (m : t) : list V := map snd m.
Definition keys (m : t) : list string := map fst m.
End Assoc.
Arguments t V : clear implicits.
End StrMap.

(** ** [aggregateIps] *)

(** The entry created for an address seen for the first time. *)
Definition new_entry (h : Hit.t) : Entry.t :=
  {| Entry.ip := Hit.ip h;
     Entry.count := 0;
     Entry.first_seen := Hit.ts h;
     Entry.last_seen := Hit.ts h;
     Entry.country := Hit.country h;
     Entry.city := Hit.city h;
     Entry.lat := Hit.lat h;
     Entry.lon := Hit.lon h;
     Entry.ua_type := Hit.ua_type h |}.

(** [if (!e && h) e = h] for an attribute. *)
Definition fill_attr (e h : option string) : option string :=
  if negb (truthy_str e) && truthy_str h then h else e.

Definition is_null {A : Type} (x : option A) : bool :=
  match x with None => true | Some _ => false end.

(** The body of the loop after [entry] is bound. *)
Definition update_entry (entry : Entry.t) (h : Hit.t) : Entry.t :=
  let take_coord :=
    (is_null (Entry.lat entry) || is_null (Entry.lon entry))
    && negb (is_null (Hit.lat h)) && negb (is_null (Hit.lon h)) in
  {| Entry.ip := Entry.ip entry;
     Entry.count := Entry.count entry + 1;
     Entry.first_seen := Entry.first_seen entry;
     Entry.last_seen := Hit.ts h;
     Entry.country := fill_attr (Entry.country entry) (Hit.country h);
     Entry.city := fill_attr (Entry.city entry) (Hit.city h);
     Entry.lat := if take_coord then Hit.lat h else Entry.lat entry;
     Entry.lon := if take_coord then Hit.lon h else Entry.lon entry;
     Entry.ua_type := fill_attr (Entry.ua_type entry) (Hit.ua_type h) |}.

(** One iteration of [for (const h of hits)]. *)
Definition aggregate_step (m : StrMap.t Entry.t) (h : Hit.t)
  : StrMap.t Entry.t :=
  let entry :=
    match StrMap.get m (Hit.ip h) with
    | Some e => e
    | None => new_entry h
    end in
  StrMap.set m (Hit.ip h) (update_entry entry h).

Definition aggregate_map (hits : list Hit.t) : StrMap.t Entry.t :=
  fold_left aggregate_step hits StrMap.empty.

Definition aggregateIps (hits : list Hit.t) : list Entry.t :=
  StrMap.values (aggregate_map hits).

(** ** Filters *)

Module Filters.
Record t : Type := mk {
  text : string;
  country : string;
  city : string;
  device : string;
  startTs : option num;
  endTs : option num
}.

(** The initial value of [currentFilters]. *)
Definition initial : t :=
  {| text := ""; country := "all"; city := "all"; device := "all";
     startTs := None; endTs := None |}.

Definition with_range (f : t) (s e : option num) : t :=
  {| text := text f; country := country f; city := city f;
     device := device f; startTs := s; endTs := e |}.
End Filters.

Definition nonempty (s : string) : bool :=
  match s with EmptyString => false | String _ _ => true end.

Section Filtering.
Context {JS : JSString}.

(** The template literal of [hitMatchesFilters], before lower-casing. *)
Definition haystack (h : Hit.t) : string :=
  Hit.ip h ++ " " ++ or_empty (Hit.country h) ++ " "
  ++ or_empty (Hit.city h) ++ " " ++ or_empty (Hit.ua_type h) ++ " "
  ++ or_empty (Hit.path h) ++ " " ++ or_empty (Hit.request h).

(** [sel !== 'all' && (v || '').toLowerCase() !== sel.toLowerCase()] *)
Definition category_rejects (sel : string) (v : option string) : bool :=
  negb (String.eqb sel "all")
  && negb (String.eqb (toLowerCase (or_empty v)) (toLowerCase sel)).

(** [filters.startTs !== null && h._ts && h._ts < filters.startTs] *)
Definition start_rejects (f : Filters.t) (h : Hit.t) : bool :=
  match Filters.startTs f with
  | None => false
  | Some s => Num.truthy (Hit._ts h) && Num.ltb (Hit._ts h) s
  end.

(** [filters.endTs !== null && h._ts && h._ts > filters.endTs] *)
Definition end_rejects (f : Filters.t) (h : Hit.t) : bool :=
  match Filters.endTs f with
  | None => false
  | Some e => Num.truthy (Hit._ts h) && Num.gtb (Hit._ts h) e
  end.

Definition hitMatchesFilters (h : Hit.t) (filters : Filters.t)
    (textHay : option string) : bool :=
  let q := toLowerCase (trim (Filters.text filters)) in
  let hay :=
    if truthy_str textHay then or_empty textHay
    else toLowerCase (haystack h) in
  if nonempty q && negb (includes hay q) then false
  else if category_rejects (Filters.country filters) (Hit.country h)
  then false
  else if category_rejects (Filters.city filters) (Hit.city h) then false
  else if category_rejects (Filters.device filters) (Hit.ua_type h)
  then false
  else if start_rejects filters h then false
  else if end_rejects filters h then false
  else true.

(** The two range tests on their own: the time predicate. *)
Definition time_predicate (h : Hit.t) (filters : Filters.t) : bool :=
  negb (start_rejects filters h) && negb (end_rejects filters h).

Definition filteredHits (allHits : list Hit.t) (filters : Filters.t)
  : list Hit.t :=
  filter (fun h => hitMatchesFilters h filters None) allHits.

(** What [applyFilters] computes before it hands over to the table,
    the statistics and the renderer. *)
Record Applied : Type := {
  applied_hits : list Hit.t;
  ipSummary : list Entry.t;
  points : list Entry.t;
  totalHits : nat;
  uniqueIps : nat
}.

Definition applyFilters (allHits : list Hit.t) (filters : Filters.t)
  : Applied :=
  let fh := filteredHits allHits filters in
  let summary := aggregateIps fh in
  {| applied_hits := fh;
     ipSummary := summary;
     points :=
       filter (fun p => negb (is_null (Entry.lat p))
                        && negb (is_null (Entry.lon p))) summary;
     totalHits := List.length fh;
     uniqueIps := List.length summary |}.
End Filtering.

(** ** The clock and the time domain of [load] *)

(** [Date.parse] yields a whole number of milliseconds or NaN ([None]);
    [Date_now n] is what the [n]-th call of [Date.now()] returns. *)
Class JSDate : Type := {
  Date_parse : string -> option Z;
  Date_now : nat -> Z
}.

Definition parsed (o : option Z) : num :=
  match o with
  | Some z => Num.of_Z z
  | None => NaN
  end.

Module TimeDomain.
Record t : Type := mk { min : num; max : num }.
End TimeDomain.

Section Loading.
Context {DT : JSDate}.

(** [h => ({ ...h, _ts: Date.parse(h.ts) })] *)
Definition stamp (h : Hit.t) : Hit.t :=
  Hit.with_ts h (parsed (Date_parse (Hit.ts h))).

(** [allHits.map(h => h._ts || Date.now())], with the clock reads
    numbered from [n]; returns the list and the next read's number. *)
Fixpoint ts_or_now (n : nat) (hits : list Hit.t) : list num * nat :=
  match hits with
  | [] => ([], n)
  | h :: tl =>
      if Num.truthy (Hit._ts h) then
        let (r, n') := ts_or_now n tl in (Hit._ts h :: r, n')
      else
        let (r, n') := ts_or_now (S n) tl in
        (Num.of_Z (Date_now n) :: r, n')
  end.

Record Loaded : Type := {
  allHits : list Hit.t;
  timeDomain : TimeDomain.t;
  currentFilters : Filters.t
}.

(** The part of [load] from the parsing of the dataset to the
    initial time range. *)
Definition load (hits : list Hit.t) : Loaded :=
  let all := map stamp hits in
  let td :=
    match all with
    | [] =>
        let nowTs := Num.of_Z (Date_now 0) in
        TimeDomain.mk nowTs nowTs
    | _ :: _ =>
        let (lows, n) := ts_or_now 0 all in
        let (highs, _) := ts_or_now n all in
        TimeDomain.mk (Num.min_list lows) (Num.max_list highs)
    end in
  {| allHits := all;
     timeDomain := td;
     currentFilters :=
       Filters.with_range Filters.initial
         (Some (TimeDomain.min td)) (Some (TimeDomain.max td)) |}.
End Loading.

(** [updateTimeFromInputs]: [startInput] and [endInput] are
    [Number(timeStartEl.value)] and [Number(timeEndEl.value)]; the result
    is the new [currentFilters]. *)
Definition updateTimeFromInputs (td : TimeDomain.t)
    (startInput endInput : num) (filters : Filters.t) : Filters.t :=
  let startVal :=
    if Num.isNaN startInput then TimeDomain.min td else startInput in
  let endVal :=
    if Num.isNaN endInput then TimeDomain.max td else endInput in
  let '(startVal, endVal) :=
    if Num.gtb startVal endVal then (endVal, startVal)
    else (startVal, endVal) in
  Filters.with_range filters (Some startVal) (Some endVal).

(** ** The view state and its projection *)

Inductive ProjKind : Type :=
| geoMercator
| geoVanDerGrinten
| geoOrthographic.

Inductive DragMode : Type :=
| rotate_mode
| pan_mode.

(** The d3 projection object as the program configures it. *)
Module Projection.
Record t : Type := mk {
  kind : ProjKind;
  translate : num * num;
  scale : num;
  rotate : num * num
}.

Definition with_rotate (p : t) (r : num * num) : t :=
  {| kind := kind p; translate := translate p; scale := scale p;
     rotate := r |}.
End Projection.

Definition q (n : Z) (d : positive) : num := Fin (n # d).

Module View.
Record t : Type := mk {
  width : num;
  height : num;
  radius : num;
  projectionName : string;
  allowRotation : bool;
  zoom : num;
  panX : num;
  panY : num;
  projection : option Projection.t;
  rotation : num;
  dragging : bool;
  lastPos : option (option num * option num);
  dragMode : DragMode
}.

(** The values of the module-level variables when the script starts;
    [dragMode] is the variable of [enableDrag]. *)
Definition initial : t :=
  {| width := q 900 1; height := q 500 1; radius := q 430 1;
     projectionName := "orthographic"; allowRotation := true;
     zoom := q 1 1; panX := q 0 1; panY := q 0 1;
     projection := None; rotation := q 0 1;
     dragging := false; lastPos := None; dragMode := rotate_mode |}.

(** Assignments to the variables. *)
Definition set_size (v : t) (w h r : num) : t :=
  mk w h r (projectionName v) (allowRotation v) (zoom v) (panX v) (panY v)
     (projection v) (rotation v) (dragging v) (lastPos v) (dragMode v).

Definition set_projectionName (v : t) (name : string) : t :=
  mk (width v) (height v) (radius v) name (allowRotation v) (zoom v)
     (panX v) (panY v) (projection v) (rotation v) (dragging v) (lastPos v)
     (dragMode v).

Definition set_projection (v : t) (p : Projection.t) : t :=
  mk (width v) (height v) (radius v) (projectionName v) (allowRotation v)
     (zoom v) (panX v) (panY v) (Some p) (rotation v) (dragging v)
     (lastPos v) (dragMode v).

Definition set_allowRotation (v : t) (allow : bool) : t :=
  mk (width v) (height v) (radius v) (projectionName v) allow (zoom v)
     (panX v) (panY v) (projection v) (rotation v) (dragging v) (lastPos v)
     (dragMode v).

Definition set_zoom (v : t) (z : num) : t :=
  mk (width v) (height v) (radius v) (projectionName v) (allowRotation v) z
     (panX v) (panY v) (projection v) (rotation v) (dragging v) (lastPos v)
     (dragMode v).

Definition set_pan (v : t) (x y : num) : t :=
  mk (width v) (height v) (radius v) (projectionName v) (allowRotation v)
     (zoom v) x y (projection v) (rotation v) (dragging v) (lastPos v)
     (dragMode v).

Definition set_rotation (v : t) (r : num) : t :=
  mk (width v) (height v) (radius v) (projectionName v) (allowRotation v)
     (zoom v) (panX v) (panY v) (projection v) r (dragging v) (lastPos v)
     (dragMode v).

Definition set_dragging (v : t) (d : bool) : t :=
  mk (width v) (height v) (radius v) (projectionName v) (allowRotation v)
     (zoom v) (panX v) (panY v) (projection v) (rotation v) d (lastPos v)
     (dragMode v).

Definition set_lastPos (v : t) (p : option num * option num) : t :=
  mk (width v) (height v) (radius v) (projectionName v) (allowRotation v)
     (zoom v) (panX v) (panY v) (projection v) (rotation v) (dragging v)
     (Some p) (dragMode v).

Definition set_dragMode (v : t) (m : DragMode) : t :=
  mk (width v) (height v) (radius v) (projectionName v) (allowRotation v)
     (zoom v) (panX v) (panY v) (projection v) (rotation v) (dragging v)
     (lastPos v) m.

Definition finite (v : t) : bool :=
  Num.isFinite (width v) && Num.isFinite (height v)
  && Num.isFinite (radius v) && Num.isFinite (zoom v)
  && Num.isFinite (panX v) && Num.isFinite (panY v).
End View.

(** The table [projectionScale]; a name outside it reads [undefined]
    (the properties every object inherits are left aside). *)
Definition projectionScale (name : string) : option num :=
  if String.eqb name "orthographic" then Some (q 1 1)
  else if String.eqb name "mercator" then Some (q 55 100)
  else if String.eqb name "vanDerGrinten" then Some (q 55 100)
  else None.

(** [a || b] on a number that may be [undefined]. *)
Definition or_num (a b : option num) : option num :=
  match a with
  | Some n => if Num.truthy n then a else b
  | None => b
  end.

(** ToNumber on a value that may be [undefined]. *)
Definition to_num (a : option num) : num :=
  match a with
  | Some n => n
  | None => NaN
  end.

(** A projection just built has d3's default rotation. *)
Definition setupProjection (v : View.t) : View.t :=
  let translate :=
    (Num.add (Num.div (View.width v) (q 2 1)) (View.panX v),
     Num.add (Num.div (View.height v) (q 2 1)) (View.panY v)) in
  let scaleFactor :=
    to_num (or_num (projectionScale (View.projectionName v))
                   (Some (q 1 1))) in
  let scaled := Num.mul (Num.mul (View.radius v) scaleFactor) (View.zoom v) in
  let unturned := (q 0 1, q 0 1) in
  if String.eqb (View.projectionName v) "mercator" then
    View.set_allowRotation
      (View.set_projection v
         (Projection.mk geoMercator translate scaled unturned)) false
  else if String.eqb (View.projectionName v) "vanDerGrinten" then
    View.set_allowRotation
      (View.set_projection v
         (Projection.mk geoVanDerGrinten translate scaled unturned)) false
  else
    View.set_allowRotation
      (View.set_projection v
         (Projection.mk geoOrthographic translate scaled unturned)) true.

(** The effect of [draw] on the state: the rotation of the projection. *)
Definition draw (v : View.t) : View.t :=
  match View.projection v with
  | None => v
  | Some p =>
      let r :=
        if View.allowRotation v then (View.rotation v, q (-15) 1)
        else (q 0 1, q 0 1) in
      View.set_projection v (Projection.with_rotate p r)
  end.

(** ** Input events and their handlers *)

(** A mouse or touch event as [onDown] and [onMove] read it: [touch0] is
    [e.touches?.[0]] with its [clientX] and [clientY]. *)
Record Pointer : Type := {
  clientX : option num;
  clientY : option num;
  touch0 : option (num * num);
  shiftKey : bool
}.

(** A wheel event, with the canvas rectangle read when it is handled. *)
Record WheelEv : Type := {
  deltaY : num;
  wheelX : num;
  wheelY : num;
  rect_left : num;
  rect_top : num
}.

(** [e.clientX || e.touches?.[0]?.clientX] and the same for y. *)
Definition pointer_x (e : Pointer) : option num :=
  or_num (clientX e) (option_map fst (touch0 e)).

Definition pointer_y (e : Pointer) : option num :=
  or_num (clientY e) (option_map snd (touch0 e)).

Definition onDown (v : View.t) (e : Pointer) : View.t :=
  let mode :=
    if negb (View.allowRotation v) then pan_mode
    else if shiftKey e then pan_mode else rotate_mode in
  View.set_lastPos
    (View.set_dragging (View.set_dragMode v mode) true)
    (pointer_x e, pointer_y e).

Definition is_rotate (m : DragMode) : bool :=
  match m with rotate_mode => true | pan_mode => false end.

Definition onMove (v : View.t) (e : Pointer) : View.t :=
  if negb (View.dragging v) then v
  else
    let x := pointer_x e in
    let y := pointer_y e in
    match View.lastPos v with
    | None => v
    | Some (lx, ly) =>
        if is_null x || is_null y then v
        else
          let dx := Num.sub (to_num x) (to_num lx) in
          let dy := Num.sub (to_num y) (to_num ly) in
          let moved :=
            if View.allowRotation v && is_rotate (View.dragMode v) then
              View.set_rotation v
                (Num.add (View.rotation v) (Num.mul dx (q 3 10)))
            else
              draw (setupProjection
                      (View.set_pan v (Num.add (View.panX v) dx)
                                      (Num.add (View.panY v) dy))) in
          View.set_lastPos moved (x, y)
    end.

Definition onUp (v : View.t) : View.t := View.set_dragging v false.

(** The quantities [onWheel] computes before it writes the state. *)
Definition wheel_factor (e : WheelEv) : num :=
  if Num.gtb (deltaY e) (q 0 1) then q 9 10 else q 11 10.

Definition wheel_nextZoom (v : View.t) (e : WheelEv) : num :=
  clamp (Num.mul (View.zoom v) (wheel_factor e)) (q 1 2) (q 6 1).

Definition wheel_scaleChange (v : View.t) (e : WheelEv) : num :=
  Num.div (wheel_nextZoom v e) (View.zoom v).

(** The cursor in canvas coordinates: [cx] and [cy]. *)
Definition cursor (e : WheelEv) : num * num :=
  (Num.sub (wheelX e) (rect_left e), Num.sub (wheelY e) (rect_top e)).

Definition onWheel (v : View.t) (e : WheelEv) : View.t :=
  let cx := fst (cursor e) in
  let cy := snd (cursor e) in
  let centerX := Num.add (Num.div (View.width v) (q 2 1)) (View.panX v) in
  let centerY := Num.add (Num.div (View.height v) (q 2 1)) (View.panY v) in
  let dx := Num.sub cx centerX in
  let dy := Num.sub cy centerY in
  let nextZoom := wheel_nextZoom v e in
  let scaleChange := wheel_scaleChange v e in
  let panned :=
    View.set_pan v
      (Num.sub (View.panX v) (Num.mul dx (Num.sub scaleChange (q 1 1))))
      (Num.sub (View.panY v) (Num.mul dy (Num.sub scaleChange (q 1 1)))) in
  draw (setupProjection (View.set_zoom panned nextZoom)).

(** The [change] listener of the projection selector. *)
Definition selectProjection (v : View.t) (name : string) : View.t :=
  let named := View.set_projectionName v name in
  let reset :=
    View.set_pan (View.set_zoom (View.set_rotation named (q 0 1)) (q 1 1))
      (q 0 1) (q 0 1) in
  draw (setupProjection reset).

(** One tick of [animate], up to the request for the next frame. *)
Definition animate (v : View.t) : View.t :=
  let turned :=
    if negb (View.dragging v) && View.allowRotation v then
      let r := Num.add (View.rotation v) (q 5 100) in
      View.set_rotation v
        (if Num.geb r (q 180 1) then Num.sub r (q 360 1) else r)
    else v in
  draw turned.

(** The end of [resizeCanvas], from the assignment of [radius]; [w] and
    [h] are the [width] and [height] it has just measured. *)
Definition resizeCanvas (v : View.t) (w h : num) : View.t :=
  let baseRad := Num.sub (Num.div (Num.min w h) (q 2 1)) (q 10 1) in
  draw (setupProjection (View.set_size v w h baseRad)).

Inductive Event : Type :=
| Resize (w h : num)
| PointerDown (e : Pointer)
| PointerMove (e : Pointer)
| PointerUp
| Wheel (e : WheelEv)
| SelectProjection (name : string)
| Frame.

Definition handle (v : View.t) (ev : Event) : View.t :=
  match ev with
  | Resize w h => resizeCanvas v w h
  | PointerDown e => onDown v e
  | PointerMove e => onMove v e
  | PointerUp => onUp v
  | Wheel e => onWheel v e
  | SelectProjection name => selectProjection v name
  | Frame => animate v
  end.

(** The state after a sequence of events, oldest first. *)
Definition run (evs : list Event) (v : View.t) : View.t :=
  fold_left handle evs v.

(** ** d3 and the drawing of points *)

(** What the program uses of d3-geo.  [unit_projection k r c] is where the
    projection of kind [k], rotated by [r], with scale 1 and translation
    (0, 0), sends the coordinate [c] = (longitude, latitude), in screen
    orientation; [None] is d3's [null].  [geoRotation r c] is
    [d3.geoRotation(r)(c)]. *)
Class D3 : Type := {
  unit_projection : ProjKind -> num * num -> num * num -> option (num * num);
  geoRotation : num * num -> num * num -> option (num * num)
}.

(** A linear stand-in for d3, used to run the definitions. *)
Module SampleD3.
Definition flat (k : ProjKind) (r c : num * num) : option (num * num) :=
  Some (Num.div (Num.add (fst c) (fst r)) (q 90 1),
        Num.neg (Num.div (Num.add (snd c) (snd r)) (q 90 1))).

Definition turn (r c : num * num) : option (num * num) :=
  Some (Num.add (fst c) (fst r), Num.add (snd c) (snd r)).

#[export] Instance ops : D3 := {
  unit_projection := flat;
  geoRotation := turn
}.
End SampleD3.

(** A call of [ctx.arc(x, y, size, 0, Math.PI * 2)] that is then filled. *)
Inductive Primitive : Type :=
| Arc (x y size : num).

Section Drawing.
Context {G : D3}.

(** [projection(c)]: d3 scales the unit projection by [scale] and moves
    it by [translate]. *)
Definition project (p : Projection.t) (c : num * num)
  : option (num * num) :=
  match unit_projection (Projection.kind p) (Projection.rotate p) c with
  | None => None
  | Some (ux, uy) =>
      Some (Num.add (fst (Projection.translate p))
                    (Num.mul (Projection.scale p) ux),
            Num.add (snd (Projection.translate p))
                    (Num.mul (Projection.scale p) uy))
  end.

(** [1 + Math.min(p.count || 1, 10) * 0.1] *)
Definition point_size (p : Entry.t) : num :=
  let c := match Entry.count p with O => 1%nat | n => n end in
  Num.add (q 1 1)
    (Num.mul (Num.min (Num.of_Z (Z.of_nat c)) (q 10 1)) (q 1 10)).

(** The body of the loop of [drawPoints] for one point. *)
Definition drawPoint (name : string) (pr : Projection.t) (p : Entry.t)
  : list Primitive :=
  match Entry.lat p, Entry.lon p with
  | Some la, Some lo =>
      let coord :=
        if String.eqb name "orthographic" then
          match geoRotation (Projection.rotate pr) (lo, la) with
          | None => None
          | Some rotated =>
              if Num.gtb (Num.abs (fst rotated)) (q 90 1) then None
              else project pr (lo, la)
          end
        else project pr (lo, la) in
      match coord with
      | None => []
      | Some (x, y) =>
          if Num.isFinite x && Num.isFinite y
          then [Arc x y (point_size p)]
          else []
      end
  | _, _ => []
  end.

Definition drawPoints (v : View.t) (pts : list Entry.t)
  : list Primitive :=
  match View.projection v with
  | None => []
  | Some pr => flat_map (drawPoint (View.projectionName v) pr) pts
  end.

(** Where the view, as last set up and drawn, shows a coordinate. *)
Definition screen (v : View.t) (c : num * num) : option (num * num) :=
  match View.projection v with
  | None => None
  | Some pr => project pr c
  end.
End Drawing.

(** ** Vocabulary of the properties *)

Definition sum_counts (es : list Entry.t) : nat :=
  list_sum (map Entry.count es).

(** The records of one address, in input order, and their timestamps. *)
Definition records_of (k : string) (hits : list Hit.t) : list Hit.t :=
  filter (fun h => String.eqb (Hit.ip h) k) hits.

Definition timestamps_of (k : string) (hits : list Hit.t) : list string :=
  map Hit.ts (records_of k hits).

(** What the loop of [aggregateIps] leaves for an address whose records
    are [rs]. *)
Definition entry_of (rs : list Hit.t) : option Entry.t :=
  match rs with
  | [] => None
  | r :: _ => Some (fold_left update_entry rs (new_entry r))
  end.

Section Chronology.
(** [when t] is the instant the timestamp string [t] denotes. *)
Variable when : string -> Z.

Definition earlier_eq (a b : string) : Prop := (when a <= when b)%Z.

Definition is_minimum (t : string) (l : list string) : Prop :=
  In t l /\ forall u, In u l -> earlier_eq t u.

Definition is_maximum (t : string) (l : list string) : Prop :=
  In t l /\ forall u, In u l -> earlier_eq u t.

(** Every summary carries the least and the greatest timestamp of its
    address. *)
Definition seen_min_max (hits : list Hit.t) : Prop :=
  forall e, In e (aggregateIps hits) ->
    is_minimum (Entry.first_seen e) (timestamps_of (Entry.ip e) hits)
    /\ is_maximum (Entry.last_seen e) (timestamps_of (Entry.ip e) hits).
End Chronology.

(** The summary [e] of address [k] carries the timestamps of the first and
    of the last record of [k] in input order; where the records of [k]
    come in non-decreasing order of time, these are the least and the
    greatest. *)
Definition seen_in_input_order (when : string -> Z) (hits : list Hit.t)
    (k : string) (e : Entry.t) : Prop :=
  (exists rest, timestamps_of k hits = Entry.first_seen e :: rest)
  /\ (exists rest,
        timestamps_of k hits = (rest ++ [Entry.last_seen e])%list)
  /\ (Sorted (earlier_eq when) (timestamps_of k hits) ->
      is_minimum when (Entry.first_seen e) (timestamps_of k hits)
      /\ is_maximum when (Entry.last_seen e) (timestamps_of k hits)).

(** A projection is non-rotatable when its name is one of the two names
    [setupProjection] tests for. *)
Definition non_rotatable (name : string) : bool :=
  String.eqb name "mercator" || String.eqb name "vanDerGrinten".

(** [allowRotation] agrees with the name of the active projection. *)
Definition allow_agrees (v : View.t) : Prop :=
  View.allowRotation v = negb (non_rotatable (View.projectionName v)).


(** The zoom factor is a finite value of the interval [0.5, 6]. *)
Definition zoom_in_bounds (z : num) : Prop :=
  exists r : Q, z = Fin r /\ 1 # 2 <= r /\ r <= 6.

(** What [setupProjection] and [draw] make of the projection's name and
    of the rotation angle: the nominal scale factor, the kind of
    projection, and its rotation. *)
Definition scale_factor (name : string) : Q :=
  if String.eqb name "orthographic" then 1
  else if String.eqb name "mercator" then 55 # 100
  else if String.eqb name "vanDerGrinten" then 55 # 100
  else 1.

Definition kind_of (name : string) : ProjKind :=
  if String.eqb name "mercator" then geoMercator
  else if String.eqb name "vanDerGrinten" then geoVanDerGrinten
  else geoOrthographic.

Definition rotate_of (name : string) (rotation : num) : num * num :=
  if non_rotatable name then (q 0 1, q 0 1) else (rotation, q (-15) 1).

(** The cursor of a wheel event is at a finite position. *)
Definition wheel_finite (e : WheelEv) : bool :=
  Num.isFinite (wheelX e) && Num.isFinite (wheelY e)
  && Num.isFinite (rect_left e) && Num.isFinite (rect_top e).

(** Two screen positions that denote the same point. *)
Definition same_point (a b : num * num) : Prop :=
  Num.same (fst a) (fst b) /\ Num.same (snd a) (snd b).

(** The coordinate at longitude [lo] and latitude [la] is on the far
    side of the globe, or has no finite screen position under [pr]. *)
Definition culled {G : D3} (pr : Projection.t) (lo la : num) : Prop :=
  (exists rotated,
     geoRotation (Projection.rotate pr) (lo, la) = Some rotated
     /\ Num.gtb (Num.abs (fst rotated)) (q 90 1) = true)
  \/ (exists x y,
        project pr (lo, la) = Some (x, y)
        /\ (Num.isFinite x = false \/ Num.isFinite y = false)).

(** ** Data for examples *)

(** A reading of timestamps for examples: the decimal digits of the
    string, in order, as one number. *)
Fixpoint digits_acc (s : string) (acc : Z) : Z :=
  match s with
  | EmptyString => acc
  | String c s' =>
      let n := Z.of_nat (nat_of_ascii c) in
      if ((48 <=? n) && (n <=? 57))%Z
      then digits_acc s' (10 * acc + (n - 48))
      else digits_acc s' acc
  end.

Definition stamp_digits (s : string) : Z := digits_acc s 0.

Definition sample_hit (ip ts : string) (country : string) : Hit.t :=
  {| Hit.ip := ip; Hit.ts := ts; Hit._ts := NaN;
     Hit.country := Some country; Hit.city := None; Hit.ua_type := None;
     Hit.path := None; Hit.request := None; Hit.lat := None;
     Hit.lon := None; Hit.status := 200 |}.

(** Records for examples: three of one address on successive days and
    one of another address. *)
Definition day1 : string := "2024-01-01T00:00:00Z".
Definition day2 : string := "2024-01-02T00:00:00Z".
Definition day3 : string := "2024-01-03T00:00:00Z".

Definition scenario_hits : list Hit.t :=
  [ sample_hit "1.2.3.4" day1 "US"; sample_hit "1.2.3.4" day2 "US";
    sample_hit "5.6.7.8" day2 "DE"; sample_hit "1.2.3.4" day3 "US" ].

(** The same address with its later record first. *)
Definition unsorted_hits : list Hit.t :=
  [ sample_hit "1.2.3.4" day2 "US"; sample_hit "1.2.3.4" day1 "US" ].

(** A clock for examples: a string parses when its digits give a non-zero
    number. *)
Module SampleClock.
Definition parse (s : string) : option Z :=
  if (stamp_digits s =? 0)%Z then None else Some (stamp_digits s).

Definition now (n : nat) : Z := 20240201000000 + Z.of_nat n.

#[export] Instance ops : JSDate := {
  Date_parse := parse;
  Date_now := now
}.
End SampleClock.

(** The example records as [load] stamps them, a record whose timestamp
    does not parse, and a record stamped with the epoch. *)
Definition stamped_scenario : list Hit.t :=
  map (@stamp SampleClock.ops) scenario_hits.

Definition undated_hit : Hit.t := sample_hit "9.9.9.9" "n/a" "FR".

Definition epoch_hit : Hit.t :=
  Hit.with_ts (sample_hit "9.9.9.9" "1970-01-01T00:00:00Z" "FR") (Num.of_Z 0).

(** A summary placed at a coordinate, and a projection object as
    [draw] leaves the orthographic one, for examples. *)
Definition point_at (lon lat : num) : Entry.t :=
  {| Entry.ip := "1.2.3.4"; Entry.count := 3; Entry.first_seen := day1;
     Entry.last_seen := day3; Entry.country := Some "US";
     Entry.city := None; Entry.lat := Some lat; Entry.lon := Some lon;
     Entry.ua_type := None |}.

Definition globe_view : View.t :=
  run [Resize (q 900 1) (q 500 1)] View.initial.

Definition globe_projection : Projection.t :=
  Projection.mk geoOrthographic (Fin (900 # 2), Fin (500 # 2))
    (Fin (480 # 2)) (q 0 1, q (-15) 1).

(** A wheel event for examples: one notch inwards at (500, 300) over a
    canvas whose corner is at (10, 20). *)
Definition sample_wheel : WheelEv :=
  {| deltaY := q (-100) 1; wheelX := q 500 1; wheelY := q 300 1;
     rect_left := q 10 1; rect_top := q 20 1 |}.

(** ** The timeline bar *)

(** [a ?? b] *)
Definition nullish (a : option num) (b : num) : num :=
  match a with
  | Some x => x
  | None => b
  end.

(** [updateTimelineProgress]: the [left] and [width] percentages it
    writes to the bar; [None] when it returns before writing. *)
Definition updateTimelineProgress (td : TimeDomain.t) (filters : Filters.t)
  : option (num * num) :=
  if negb (Num.truthy (TimeDomain.min td))
     || negb (Num.truthy (TimeDomain.max td))
  then None
  else
    let difference := Num.sub (TimeDomain.max td) (TimeDomain.min td) in
    let span := if Num.truthy difference then difference else q 1 1 in
    let startPct :=
      Num.mul
        (clamp
           (Num.div
              (Num.sub (nullish (Filters.startTs filters) (TimeDomain.min td))
                       (TimeDomain.min td))
              span)
           (q 0 1) (q 1 1))
        (q 100 1) in
    let endPct :=
      Num.mul
        (clamp
           (Num.div
              (Num.sub (nullish (Filters.endTs filters) (TimeDomain.max td))
                       (TimeDomain.min td))
              span)
           (q 0 1) (q 1 1))
        (q 100 1) in
    let left := Num.min startPct endPct in
    let width := Num.max (q 0 1) (Num.abs (Num.sub endPct startPct)) in
    Some (left, width).

(** A bound of the range that is absent or finite. *)
Definition finite_bound (b : option num) : bool :=
  match b with
  | None => true
  | Some x => Num.isFinite x
  end.

(** ** The size of the canvas *)

Inductive Mode : Type :=
| wide
| square
| tall.

(** What [resizeCanvas] and [isMobile] read of the window and of the
    canvas rectangle. *)
Record Window : Type := {
  innerWidth : num;
  innerHeight : num;
  rect_width : num
}.

Definition isMobile (env : Window) : bool :=
  Num.leb (innerWidth env) (q 800 1).

(** [a || b] on numbers. *)
Definition or_number (a b : num) : num := if Num.truthy a then a else b.

Definition is_wide (m : Mode) : bool :=
  match m with wide => true | _ => false end.

Definition is_square (m : Mode) : bool :=
  match m with square => true | _ => false end.

Definition is_tall (m : Mode) : bool :=
  match m with tall => true | _ => false end.

Definition baseRatio : num := Num.div (q 500 1) (q 900 1).

(** The start of [resizeCanvas]: the new [mode], [width] and [height]. *)
Definition canvas_size (mode : Mode) (env : Window) : Mode * (num * num) :=
  let mode := if isMobile env && is_wide mode then square else mode in
  if is_tall mode then
    let side :=
      or_number (or_number (innerHeight env) (rect_width env)) (q 900 1) in
    (mode, (side, side))
  else
    let width := or_number (rect_width env) (q 900 1) in
    let height :=
      if is_square mode then width
      else Num.max (q 320 1) (Num.mul width baseRatio) in
    (mode, (width, height)).



(** ** Counts per land polygon *)

(** [d3.geoContains] on the features of the base map. *)
Class GeoContains (Feature : Type) : Type := {
  geoContains : Feature -> num * num -> bool
}.

(** [Math.log10]. *)
Class JSMath : Type := {
  log10 : num -> num
}.

Section CountryCounts.
Context {Feature : Type} {GC : GeoContains Feature}.

(** The inner loop of [updateCountryCounts]: the position of the first
    feature that contains the coordinate. *)
Fixpoint first_containing (features : list Feature) (coord : num * num)
  : option nat :=
  match features with
  | [] => None
  | f :: fs =>
      if geoContains f coord then Some O
      else option_map S (first_containing fs coord)
  end.

(** [countryCounts.set(f, (countryCounts.get(f) || 0) + 1)] for the
    feature at position [i]. *)
Fixpoint bump (counts : list nat) (i : nat) : list nat :=
  match counts, i with
  | [], _ => []
  | c :: cs, O => (match c with O => 0 | _ => c end + 1)%nat :: cs
  | c :: cs, S j => c :: bump cs j
  end.

(** One iteration of the loop over the summaries. *)
Definition count_point (features : list Feature) (counts : list nat)
    (ip : Entry.t) : list nat :=
  match Entry.lat ip, Entry.lon ip with
  | Some la, Some lo =>
      match first_containing features (lo, la) with
      | Some i => bump counts i
      | None => counts
      end
  | _, _ => counts
  end.

(** [updateCountryCounts]: the counts of the features of [land], in the
    order of the features, which are distinct objects; without [land] the
    map stays empty ([None]). *)
Definition updateCountryCounts (land : option (list Feature))
    (ips : list Entry.t) : option (list nat) :=
  match land with
  | None => None
  | Some features =>
      Some (fold_left (count_point features) ips (map (fun _ => O) features))
  end.

(** A summary with both coordinates that some feature contains. *)
Definition on_land (features : list Feature) (ip : Entry.t) : bool :=
  match Entry.lat ip, Entry.lon ip with
  | Some la, Some lo => existsb (fun f => geoContains f (lo, la)) features
  | _, _ => false
  end.

(** A summary with both coordinates whose first containing feature is
    the one at position [i]: that feature contains the coordinate and
    none before it does. *)
Definition homed_at (features : list Feature) (i : nat) (ip : Entry.t)
  : bool :=
  match Entry.lat ip, Entry.lon ip, nth_error features i with
  | Some la, Some lo, Some f =>
      geoContains f (lo, la)
      && negb (existsb (fun g => geoContains g (lo, la)) (firstn i features))
  | _, _, _ => false
  end.
End CountryCounts.

(** The opacity [drawLand] gives a feature whose count is [c]. *)
Definition land_alpha {M : JSMath} (c : nat) : num :=
  if (0 <? c)%nat then
    Num.min (q 8 10)
      (Num.add (q 2 10)
         (Num.mul (log10 (Num.of_Z (Z.of_nat c + 1))) (q 6 10)))
  else q 2 10.

(** ** The terminator *)

(** The functions of the solar calculator the program calls: [century]
    of an instant, given in milliseconds, and [equationOfTime] and
    [declination] of a century. *)
Class Solar : Type := {
  century : Z -> num;
  equationOfTime : num -> num;
  declination : num -> num
}.

(** [([longitude, latitude]) => [longitude + 180, -latitude]] *)
Definition antipode (p : num * num) : num * num :=
  (Num.add (fst p) (q 180 1), Num.neg (snd p)).

(** [day.setUTCHours(0, 0, 0, 0)] on the instant [now]. *)
Definition utc_midnight (now : Z) : Z := (now - now mod 86400000)%Z.

(** [getSunPosition], for an instant in milliseconds. *)
Definition getSunPosition {S : Solar} (now : Z) : num * num :=
  let day := utc_midnight now in
  let t := century now in
  let longitude :=
    Num.sub
      (Num.mul (Num.div (Num.of_Z (day - now)) (q 86400000 1)) (q 360 1))
      (q 180 1) in
  (Num.sub longitude (Num.div (equationOfTime t) (q 4 1)), declination t).

(** The centre and the radius [getNightPolygon] gives to [d3.geoCircle]. *)
Definition night_circle {S : Solar} (now : Z) : (num * num) * num :=
  (antipode (getSunPosition now), q 90 1).

(** ** The values offered by the selectors *)

Section Options.
Context {JS : JSString}.

(** [addVal] of [populateFilters]: the map from the lower-cased value to
    the value as first spelled. *)
Definition addVal (m : StrMap.t string) (val : option string)
  : StrMap.t string :=
  if negb (truthy_str val) then m
  else
    let key := toLowerCase (or_empty val) in
    match StrMap.get m key with
    | Some _ => m
    | None => StrMap.set m key (or_empty val)
    end.

Definition collect_values (vals : list (option string)) : StrMap.t string :=
  fold_left addVal vals StrMap.empty.

(** The three maps [populateFilters] builds in its loop over the hits;
    [addOptions] then lists their keys, sorted, after ['all']. *)
Record FilterValues : Type := {
  countries : StrMap.t string;
  cities : StrMap.t string;
  devices : StrMap.t string
}.

Definition populateFilters (hits : list Hit.t) : FilterValues :=
  {| countries := collect_values (map Hit.country hits);
     cities := collect_values (map Hit.city hits);
     devices := collect_values (map Hit.ua_type hits) |}.

(** The first truthy value whose lower-cased form is [k]. *)
Definition first_spelling (k : string) (vals : list (option string))
  : option (option string) :=
  find (fun o => truthy_str o && String.eqb (toLowerCase (or_empty o)) k)
       vals.
End Options.

(** ** The table *)

(** The objects [renderTable] makes of the summaries before it sorts
    them. *)
Record Cells : Type := {
  cell_ip : string;
  cell_country : string;
  cell_city : string;
  cell_ua_type : string;
  cell_count : nat
}.

Definition cells_of (p : Entry.t) : Cells :=
  {| cell_ip := Entry.ip p;
     cell_country := or_empty (Entry.country p);
     cell_city := or_empty (Entry.city p);
     cell_ua_type := or_empty (Entry.ua_type p);
     cell_count := Entry.count p |}.

(** [.sort((a, b) => b.count - a.count)]: the sort is stable, so of two
    summaries with equal counts the earlier one stays first; inserting
    each element before the sorted rest gives that arrangement. *)
Fixpoint insert_by_count (x : Cells) (l : list Cells) : list Cells :=
  match l with
  | [] => [x]
  | y :: l' =>
      if (cell_count y <=? cell_count x)%nat then x :: y :: l'
      else y :: insert_by_count x l'
  end.

Definition sort_by_count (l : list Cells) : list Cells :=
  fold_right insert_by_count [] l.

(** A row of the table by its cells, the markup left out: the row of a
    summary, with the number of hits it announces, or the row of a hit. *)
Inductive Row : Type :=
| SummaryRow (ip country city uaLabel : string) (nhits : nat)
| DetailRow (h : Hit.t).

Section Table.
Context {JS : JSString}.

(** The rows pushed for one summary: none when no hit of its address
    passes the filter. *)
Definition row_group (hits : list Hit.t) (filters : Filters.t) (s : Cells)
  : list Row :=
  let hlist := records_of (cell_ip s) hits in
  let filteredDetails :=
    filter (fun h => hitMatchesFilters h filters None) hlist in
  match filteredDetails with
  | [] => []
  | first :: _ =>
      let uaLabel :=
        if truthy_str (Hit.ua_type first) then or_empty (Hit.ua_type first)
        else cell_ua_type s in
      SummaryRow (cell_ip s) (cell_country s) (cell_city s) uaLabel
        (List.length filteredDetails)
      :: map DetailRow filteredDetails
  end.

(** [renderTable]: the rows joined into the table body; the empty list is
    shown as the row that says there are no matches. *)
Definition renderTable (hits : list Hit.t) (summaryList : list Entry.t)
    (filters : Filters.t) : list Row :=
  flat_map (row_group hits filters)
    (sort_by_count (map cells_of summaryList)).
End Table.

(** The order of the sorted summaries: counts do not increase. *)
Definition count_desc (a b : Cells) : Prop :=
  (cell_count b <= cell_count a)%nat.

Definition hits_desc (a b : string * nat) : Prop := (snd b <= snd a)%nat.

(** The summary rows of a table, as address and announced number of
    hits, and the hits of its detail rows. *)
Definition summary_lines (rows : list Row) : list (string * nat) :=
  flat_map
    (fun r => match r with
              | SummaryRow ip _ _ _ n => [(ip, n)]
              | DetailRow _ => []
              end) rows.

Definition detail_hits (rows : list Row) : list Hit.t :=
  flat_map
    (fun r => match r with
              | SummaryRow _ _ _ _ _ => []
              | DetailRow h => [h]
              end) rows.

(** ** Vocabulary of further properties *)

(** The distinct elements of a list, each at its first occurrence. *)
Definition first_occurrences (ks : list string) : list string :=
  fold_left
    (fun acc k => if in_dec string_dec k acc then acc else (acc ++ [k])%list)
    ks [].

(** The first truthy value of a list of attribute values; the first value
    when none is truthy. *)
Definition first_nonempty (l : list (option string)) : option string :=
  match find truthy_str l with
  | Some c => c
  | None => hd None l
  end.

(** Both coordinates are present. *)
Definition located_hit (h : Hit.t) : bool :=
  negb (is_null (Hit.lat h)) && negb (is_null (Hit.lon h)).

Definition located_entry (e : Entry.t) : bool :=
  negb (is_null (Entry.lat e)) && negb (is_null (Entry.lon e)).

(** The coordinates of the first record that has both; those of the
    first record when none has. *)
Definition first_located (rs : list Hit.t) : option num * option num :=
  match find located_hit rs with
  | Some h => (Hit.lat h, Hit.lon h)
  | None =>
      match rs with
      | [] => (None, None)
      | r :: _ => (Hit.lat r, Hit.lon r)
      end
  end.

(** What [setupProjection] computes from the variables of the view. *)
Definition expected_translate (v : View.t) : num * num :=
  (Num.add (Num.div (View.width v) (q 2 1)) (View.panX v),
   Num.add (Num.div (View.height v) (q 2 1)) (View.panY v)).

Definition expected_scale (v : View.t) : num :=
  Num.mul
    (Num.mul (View.radius v)
       (to_num (or_num (projectionScale (View.projectionName v))
                       (Some (q 1 1)))))
    (View.zoom v).

(** The projection object is the one the variables of the view call
    for. *)
Definition projection_current (v : View.t) : Prop :=
  exists p,
    View.projection v = Some p
    /\ Projection.kind p = kind_of (View.projectionName v)
    /\ Projection.translate p = expected_translate v
    /\ Projection.scale p = expected_scale v.

(** The rotation angle is a finite value of [-180, 180). *)
Definition canonical_angle (a : num) : Prop :=
  exists r : Q, a = Fin r /\ -(180) <= r /\ r < 180.

(** The pointer of the event is at a finite position. *)
Definition finite_pointer (e : Pointer) : bool :=
  match pointer_x e, pointer_y e with
  | Some x, Some y => Num.isFinite x && Num.isFinite y
  | _, _ => false
  end.

(** The handlers read a position from the event: neither coordinate is
    [undefined] after the fallback to the first touch.  A mouse event
    whose [clientX] or [clientY] is 0 reads none. *)
Definition read_pointer (e : Pointer) : bool :=
  negb (is_null (pointer_x e) || is_null (pointer_y e)).

(** The position the handlers read from the event, where they read one,
    is finite. *)
Definition steady_pointer (e : Pointer) : bool :=
  match pointer_x e, pointer_y e with
  | Some x, Some y => Num.isFinite x && Num.isFinite y
  | _, _ => true
  end.

(** During a drag, the pan offset less the last pointer position: where
    the origin of the pan lies relative to the pointer. *)
Definition grab_offset (v : View.t) : option (num * num) :=
  match View.lastPos v with
  | Some (Some lx, Some ly) =>
      Some (Num.sub (View.panX v) lx, Num.sub (View.panY v) ly)
  | _ => None
  end.

(** ** Data for further examples *)

(** A stand-in for examples: a logarithm taken through the binary one. *)
Module SampleMath.
Definition log (x : num) : num :=
  match x with
  | Fin r => Fin (inject_Z (Z.log2 (Qnum r / Z.pos (Qden r))) * (3 # 10))
  | other => other
  end.

#[export] Instance ops : JSMath := { log10 := log }.
End SampleMath.

(** A solar calculator for examples, with no equation of time and the sun
    over the equator. *)
Module SampleSolar.
#[export] Instance ops : Solar := {
  century := fun now => Num.of_Z now;
  equationOfTime := fun _ => q 0 1;
  declination := fun _ => q 0 1
}.
End SampleSolar.

(** Records for examples whose countries differ in case only, and the
    filter state with one country selected. *)
Definition mixed_case_hits : list Hit.t :=
  [ sample_hit "1.2.3.4" day1 "us"; sample_hit "5.6.7.8" day2 "DE";
    sample_hit "1.2.3.4" day3 "US" ].

Definition country_selected (k : string) : Filters.t :=
  Filters.mk "" k "all" "all" None None.

(** A mouse event at a position, for examples. *)
Definition mouse_at (x y : Z) (shift : bool) : Pointer :=
  {| clientX := Some (Num.of_Z x); clientY := Some (Num.of_Z y);
     touch0 := None; shiftKey := shift |}.

(** A view on which a rotate-drag has just moved the pointer 30 pixels to
    the right: [rotation] is 9, and the projection object still has the
    rotation of the last draw. *)
Definition turned_view : View.t :=
  run [Resize (q 900 1) (q 500 1); PointerDown (mouse_at 100 40 false);
       PointerMove (mouse_at 130 40 false)] View.initial.

(** Records of one address for examples: the first has a latitude only and
    no country, the second an empty country, the third is complete. *)
Definition sparse_hits : list Hit.t :=
  [ Hit.mk "7.7.7.7" day1 NaN None None None None None
      (Some (q 52 1)) None 200;
    Hit.mk "7.7.7.7" day2 NaN (Some "") (Some "Delft") None None None
      None None 200;
    Hit.mk "7.7.7.7" day3 NaN (Some "NL") (Some "Leiden") (Some "bot")
      None None (Some (q 52 1)) (Some (q 4 1)) 404 ].

Definition sparse_summary : Entry.t :=
  Entry.mk "7.7.7.7" 3 day1 day3 (Some "NL") (Some "Delft")
    (Some (q 52 1)) (Some (q 4 1)) (Some "bot").

(** ** Aggregation *)

Module StrMapFacts.
Section Facts.
Context {V : Type}.
Implicit Types (m : StrMap.t V) (k : string) (v : V).

Lemma get_set_same m k v : StrMap.get (StrMap.set m k v) k = Some v.
Proof.
  induction m as [|[k' v'] m IH]; simpl.
  - now rewrite String.eqb_refl.
  - destruct (String.eqb k' k) eqn:E; simpl; rewrite E; auto.
Qed.

Lemma get_set_other m k k' v :
  k <> k' -> StrMap.get (StrMap.set m k v) k' = StrMap.get m k'.
Proof.
  intros Hne. induction m as [|[k0 v0] m IH]; simpl.
  - destruct (String.eqb_spec k k'); congruence.
  - destruct (String.eqb_spec k0 k) as [->|Hk]; simpl.
    + destruct (String.eqb_spec k k'); congruence.
    + now rewrite IH.
Qed.

Lemma keys_set m k v :
  StrMap.keys (StrMap.set m k v) =
  if in_dec string_dec k (StrMap.keys m) then StrMap.keys m
  else (StrMap.keys m ++ [k])%list.
Proof.
  induction m as [|[k0 v0] m IH]; simpl; auto.
  destruct (String.eqb_spec k0 k) as [->|Hk]; simpl.
  - destruct (string_dec k k); [|congruence]. reflexivity.
  - rewrite IH. destruct (string_dec k0 k); [congruence|].
    now destruct (in_dec string_dec k (StrMap.keys m)).
Qed.

Lemma NoDup_keys_set m k v :
  NoDup (StrMap.keys m) -> NoDup (StrMap.keys (StrMap.set m k v)).
Proof.
  intros Hnd. rewrite keys_set.
  destruct (in_dec string_dec k (StrMap.keys m)) as [|Hk]; auto.
  apply NoDup_app; [assumption | repeat constructor; simpl; tauto |].
  intros x Hx [<-|[]]. contradiction.
Qed.

Lemma In_get m k v :
  NoDup (StrMap.keys m) -> In (k, v) m -> StrMap.get m k = Some v.
Proof.
  induction m as [|[k0 v0] m IH]; simpl; [tauto|].
  intros Hnd [Heq|Hin].
  - inversion Heq; subst. now rewrite String.eqb_refl.
  - inversion Hnd as [|? ? Hnot Hnd']; subst.
    destruct (String.eqb_spec k0 k) as [->|Hk]; auto.
    exfalso. apply Hnot. change k with (fst (k, v)).
    now apply in_map.
Qed.

Lemma get_In m k v : StrMap.get m k = Some v -> In (k, v) m.
Proof.
  induction m as [|[k0 v0] m IH]; simpl; [discriminate|].
  destruct (String.eqb_spec k0 k) as [->|Hk]; intros H.
  - inversion H; subst. now left.
  - right. auto.
Qed.
End Facts.
End StrMapFacts.

Section AggregateFacts.
Import StrMapFacts.

Lemma aggregate_map_snoc hits h :
  aggregate_map (hits ++ [h]) = aggregate_step (aggregate_map hits) h.
Proof. unfold aggregate_map. now rewrite fold_left_app. Qed.

Lemma records_of_snoc k hits h :
  records_of k (hits ++ [h]) =
  (records_of k hits ++ (if String.eqb (Hit.ip h) k then [h] else []))%list.
Proof. unfold records_of. now rewrite filter_app. Qed.

Lemma records_of_ip k hits h : In h (records_of k hits) -> Hit.ip h = k.
Proof.
  unfold records_of. rewrite filter_In. intros [_ H].
  now apply String.eqb_eq.
Qed.

Lemma NoDup_aggregate_map hits : NoDup (StrMap.keys (aggregate_map hits)).
Proof.
  induction hits as [|h hits IH] using rev_ind.
  - constructor.
  - rewrite aggregate_map_snoc. now apply NoDup_keys_set.
Qed.

(** The map holds, for every address, the reduction of its records. *)
Lemma get_aggregate_map hits k :
  StrMap.get (aggregate_map hits) k = entry_of (records_of k hits).
Proof.
  induction hits as [|h hits IH] using rev_ind; [reflexivity|].
  rewrite aggregate_map_snoc, records_of_snoc. unfold aggregate_step.
  destruct (String.eqb_spec (Hit.ip h) k) as [<-|Hne].
  - rewrite get_set_same, IH.
    destruct (records_of (Hit.ip h) hits) as [|r rs]; simpl; [reflexivity|].
    now rewrite fold_left_app.
  - rewrite get_set_other by assumption. now rewrite app_nil_r.
Qed.

Lemma fold_update_ip rs e :
  Entry.ip (fold_left update_entry rs e) = Entry.ip e.
Proof.
  revert e; induction rs as [|r rs IH]; intros e; simpl; [|rewrite IH]; auto.
Qed.

Lemma fold_update_first_seen rs e :
  Entry.first_seen (fold_left update_entry rs e) = Entry.first_seen e.
Proof.
  revert e; induction rs as [|r rs IH]; intros e; simpl; [|rewrite IH]; auto.
Qed.

Lemma fold_update_count rs e :
  Entry.count (fold_left update_entry rs e)
  = (Entry.count e + List.length rs)%nat.
Proof.
  revert e; induction rs as [|r rs IH]; intros e; simpl; [lia|].
  rewrite IH. simpl. lia.
Qed.

Lemma last_nonempty_default {A : Type} (a : A) (l : list A) (d d' : A) :
  last (a :: l) d = last (a :: l) d'.
Proof.
  revert a; induction l as [|b l IH]; intros a; [reflexivity|].
  change (last (a :: b :: l) d) with (last (b :: l) d).
  change (last (a :: b :: l) d') with (last (b :: l) d'). apply IH.
Qed.

Lemma last_cons_self {A : Type} (a : A) (l : list A) (d : A) :
  last (a :: l) d = last l a.
Proof.
  destruct l as [|b l]; [reflexivity|].
  change (last (b :: l) d = last (b :: l) a). apply last_nonempty_default.
Qed.

Lemma fold_update_last_seen rs e :
  Entry.last_seen (fold_left update_entry rs e)
  = last (map Hit.ts rs) (Entry.last_seen e).
Proof.
  revert e; induction rs as [|r rs IH]; intros e; [reflexivity|].
  cbn [fold_left map]. rewrite IH. cbn [update_entry Entry.last_seen].
  destruct rs as [|r' rs]; [reflexivity|].
  change (map Hit.ts (r' :: rs)) with (Hit.ts r' :: map Hit.ts rs).
  rewrite (last_nonempty_default _ _ (Hit.ts r) (Entry.last_seen e)).
  reflexivity.
Qed.

(** A summary of the result is the reduction of its own address. *)
Lemma aggregateIps_entry hits e :
  In e (aggregateIps hits) ->
  entry_of (records_of (Entry.ip e) hits) = Some e.
Proof.
  unfold aggregateIps, StrMap.values. rewrite in_map_iff.
  intros [[k e'] [Heq Hin]]. simpl in Heq. subst e'.
  apply In_get in Hin; [|apply NoDup_aggregate_map].
  rewrite get_aggregate_map in Hin.
  assert (Hk : Entry.ip e = k).
  { destruct (records_of k hits) as [|r rs] eqn:Hr; [discriminate|].
    cbn [entry_of] in Hin. injection Hin as <-.
    rewrite fold_update_ip. simpl.
    apply (records_of_ip k hits). rewrite Hr. now left. }
  now rewrite Hk.
Qed.

Lemma aggregateIps_complete hits h :
  In h hits -> exists e, In e (aggregateIps hits) /\ Entry.ip e = Hit.ip h.
Proof.
  intros Hin.
  assert (Hr : In h (records_of (Hit.ip h) hits)).
  { unfold records_of. rewrite filter_In. split; auto.
    apply String.eqb_refl. }
  pose proof (get_aggregate_map hits (Hit.ip h)) as Hget.
  destruct (records_of (Hit.ip h) hits) as [|r rs] eqn:E; [destruct Hr|].
  cbn [entry_of] in Hget. apply get_In in Hget.
  exists (fold_left update_entry (r :: rs) (new_entry r)). split.
  - unfold aggregateIps, StrMap.values. rewrite in_map_iff.
    eexists. split; [|exact Hget]. reflexivity.
  - rewrite fold_update_ip. simpl.
    apply (records_of_ip _ hits). rewrite E. now left.
Qed.

Lemma sum_counts_set (m : StrMap.t Entry.t) k v :
  (sum_counts (StrMap.values (StrMap.set m k v))
   + match StrMap.get m k with Some e => Entry.count e | None => 0 end
   = sum_counts (StrMap.values m) + Entry.count v)%nat.
Proof.
  unfold sum_counts, StrMap.values.
  induction m as [|[k0 v0] m IH]; simpl; [lia|].
  destruct (String.eqb k0 k); simpl; lia.
Qed.

Lemma sum_counts_aggregateIps hits :
  sum_counts (aggregateIps hits) = List.length hits.
Proof.
  unfold aggregateIps.
  induction hits as [|h hits IH] using rev_ind; [reflexivity|].
  rewrite aggregate_map_snoc, length_app. simpl. unfold aggregate_step.
  pose proof (sum_counts_set (aggregate_map hits) (Hit.ip h)
    (update_entry
       match StrMap.get (aggregate_map hits) (Hit.ip h) with
       | Some e => e
       | None => new_entry h
       end h)) as Hs.
  destruct (StrMap.get (aggregate_map hits) (Hit.ip h)); simpl in Hs; lia.
Qed.
End AggregateFacts.

(** ** Timestamps of a summary *)

Section SeenFacts.
Variable when : string -> Z.

Lemma earlier_eq_trans : Relation_Definitions.transitive _ (earlier_eq when).
Proof. unfold earlier_eq. intros a b c; lia. Qed.

Lemma sorted_head_min a l :
  Sorted (earlier_eq when) (a :: l) -> is_minimum when a (a :: l).
Proof.
  intros Hs. apply Sorted_StronglySorted in Hs; [|exact earlier_eq_trans].
  apply StronglySorted_inv in Hs. destruct Hs as [_ Hall].
  split; [now left|]. intros u [<-|Hu].
  - unfold earlier_eq; lia.
  - rewrite Forall_forall in Hall. auto.
Qed.

Lemma strongly_sorted_last l x :
  StronglySorted (earlier_eq when) (l ++ [x]) ->
  forall u, In u (l ++ [x]) -> earlier_eq when u x.
Proof.
  induction l as [|a l IH]; simpl; intros Hs u Hu.
  - destruct Hu as [<-|[]]. unfold earlier_eq; lia.
  - apply StronglySorted_inv in Hs. destruct Hs as [Hs Hall].
    destruct Hu as [<-|Hu]; auto.
    rewrite Forall_forall in Hall. apply Hall.
    apply in_or_app. right. now left.
Qed.

Lemma sorted_last_max l x :
  Sorted (earlier_eq when) (l ++ [x]) -> is_maximum when x (l ++ [x]).
Proof.
  intros Hs. apply Sorted_StronglySorted in Hs; [|exact earlier_eq_trans].
  split; [apply in_or_app; right; now left|].
  now apply strongly_sorted_last.
Qed.
End SeenFacts.

(** A summary carries the timestamps of the first and of the last record
    of its address, in input order. *)
Lemma aggregateIps_seen_input_order hits e :
  In e (aggregateIps hits) ->
  exists mid_last first_mid,
    timestamps_of (Entry.ip e) hits = Entry.first_seen e :: mid_last
    /\ timestamps_of (Entry.ip e) hits
       = (first_mid ++ [Entry.last_seen e])%list.
Proof.
  intros Hin. apply aggregateIps_entry in Hin. unfold timestamps_of.
  destruct (records_of (Entry.ip e) hits) as [|r rs]; [discriminate|].
  cbn [entry_of] in Hin. injection Hin as <-.
  rewrite fold_update_first_seen, fold_update_last_seen.
  exists (map Hit.ts rs), (removelast (map Hit.ts (r :: rs))). split.
  - reflexivity.
  - cbn [update_entry new_entry Entry.last_seen].
    rewrite <- (last_cons_self (Hit.ts r) (map Hit.ts rs) "").
    apply (app_removelast_last (l := map Hit.ts (r :: rs))). discriminate.
Qed.

(** C1, as amended.  For every record list and every address occurring in
    it, aggregation produces a summary of that address whose [first_seen]
    is the timestamp of the address's first record in input order and whose
    [last_seen] is the timestamp of its last record in input order; when
    the records of the address come in non-decreasing order of time, these
    are the minimum and the maximum of the address's timestamps. *)
Theorem aggregateIps_first_last_seen
    (when : string -> Z) (hits : list Hit.t) (h : Hit.t) :
  In h hits ->
  exists e : Entry.t,
    In e (aggregateIps hits) /\ Entry.ip e = Hit.ip h
    /\ seen_in_input_order when hits (Hit.ip h) e.
Proof.
  intros Hin. destruct (aggregateIps_complete hits h Hin) as [e [He Hip]].
  exists e. split; [assumption|]. split; [assumption|].
  destruct (aggregateIps_seen_input_order hits e He) as [ml [fm [Hf Hl]]].
  rewrite Hip in Hf, Hl. unfold seen_in_input_order.
  split; [now exists ml|]. split; [now exists fm|].
  intros Hs. split.
  - rewrite Hf in Hs |- *. now apply sorted_head_min.
  - rewrite Hl in Hs |- *. now apply sorted_last_max.
Qed.

Lemma aggregateIps_first_last_seen_witness :
  In (sample_hit "1.2.3.4" day2 "US") scenario_hits
  /\ Sorted (earlier_eq stamp_digits) (timestamps_of "1.2.3.4" scenario_hits)
  /\ exists e : Entry.t,
       In e (aggregateIps scenario_hits) /\ Entry.ip e = "1.2.3.4"
       /\ is_minimum stamp_digits (Entry.first_seen e)
            (timestamps_of "1.2.3.4" scenario_hits)
       /\ is_maximum stamp_digits (Entry.last_seen e)
            (timestamps_of "1.2.3.4" scenario_hits).
Proof.
  assert (Hs : Sorted (earlier_eq stamp_digits)
                 (timestamps_of "1.2.3.4" scenario_hits)).
  { repeat constructor; unfold earlier_eq; vm_compute; discriminate. }
  split; [right; left; reflexivity|]. split; [exact Hs|].
  destruct (aggregateIps_first_last_seen stamp_digits scenario_hits
              (sample_hit "1.2.3.4" day2 "US"))
    as (e & He & Hip & _ & _ & Hmm).
  - right. left. reflexivity.
  - exists e. destruct (Hmm Hs) as [Hmin Hmax]. auto.
Defined.

(** C1 as stated fails: with the later record of an address first in the
    input, [first_seen] is the later timestamp, not the minimum. *)
Lemma seen_min_max_counterexample :
  ~ seen_min_max stamp_digits unsorted_hits.
Proof.
  intros H.
  destruct (H (Entry.mk "1.2.3.4" 2 day2 day1 (Some "US") None None None None))
    as [[_ Hmin] _].
  - left. reflexivity.
  - specialize (Hmin day1). unfold earlier_eq in Hmin.
    assert (Hd : In day1 (timestamps_of "1.2.3.4" unsorted_hits))
      by (right; left; reflexivity).
    apply Hmin in Hd. vm_compute in Hd. apply Hd. reflexivity.
Qed.

(** C2.  For every filter state, the counts of the summaries produced by
    aggregating the filtered record set add up to the number of records in
    the filtered record set. *)
Theorem aggregation_conservation
    {JS : JSString} (allHits : list Hit.t) (filters : Filters.t) :
  sum_counts (ipSummary (applyFilters allHits filters))
  = totalHits (applyFilters allHits filters)
  /\ totalHits (applyFilters allHits filters)
     = List.length (filteredHits allHits filters).
Proof.
  unfold applyFilters. cbn [ipSummary totalHits]. split; [|reflexivity].
  apply sum_counts_aggregateIps.
Qed.

(** ** Order on numbers *)

Module NumFacts.

Lemma ltb_Fin p r : Num.ltb (Fin p) (Fin r) = true <-> p < r.
Proof.
  simpl. rewrite negb_true_iff. split.
  - intros H. apply Qnot_le_lt. intros Hle.
    apply Qle_bool_iff in Hle. congruence.
  - intros H. destruct (Qle_bool r p) eqn:E; auto.
    apply Qle_bool_iff in E. lra.
Qed.

Lemma leb_Fin p r : Num.leb (Fin p) (Fin r) = true <-> p <= r.
Proof. simpl. apply Qle_bool_iff. Qed.

Lemma ltb_leb_trans a b c :
  Num.ltb a b = true -> Num.leb b c = true -> Num.ltb a c = true.
Proof.
  destruct a as [| | |p], b as [| | |r], c as [| | |t];
    try discriminate; try reflexivity.
  rewrite !ltb_Fin, leb_Fin. lra.
Qed.

Lemma leb_ltb_trans a b c :
  Num.leb a b = true -> Num.ltb b c = true -> Num.ltb a c = true.
Proof.
  destruct a as [| | |p], b as [| | |r], c as [| | |t];
    try discriminate; try reflexivity.
  rewrite !ltb_Fin, leb_Fin. lra.
Qed.

Lemma ltb_leb a b : Num.ltb a b = true -> Num.leb a b = true.
Proof.
  destruct a as [| | |p], b as [| | |r]; try discriminate; try reflexivity.
  rewrite ltb_Fin, leb_Fin. lra.
Qed.

(** On numbers other than NaN the order is total. *)
Lemma not_ltb_leb a b :
  Num.isNaN a = false -> Num.isNaN b = false ->
  Num.ltb b a = false -> Num.leb a b = true.
Proof.
  destruct a as [| | |p], b as [| | |r]; try discriminate; try reflexivity.
  intros _ _ H. apply leb_Fin.
  destruct (Qlt_le_dec r p) as [Hlt|Hle]; auto.
  apply ltb_Fin in Hlt. congruence.
Qed.

Lemma truthy_not_NaN a : Num.truthy a = true -> Num.isNaN a = false.
Proof. destruct a; simpl; congruence. Qed.

Lemma min_not_NaN a b :
  Num.isNaN a = false -> Num.isNaN b = false ->
  Num.isNaN (Num.min a b) = false.
Proof.
  destruct a, b; try discriminate; intros _ _; unfold Num.min;
    match goal with |- context [if ?c then _ else _] => destruct c end;
    reflexivity.
Qed.

Lemma max_not_NaN a b :
  Num.isNaN a = false -> Num.isNaN b = false ->
  Num.isNaN (Num.max a b) = false.
Proof.
  destruct a, b; try discriminate; intros _ _; unfold Num.max;
    match goal with |- context [if ?c then _ else _] => destruct c end;
    reflexivity.
Qed.

Lemma fold_min_not_NaN xs a :
  Forall (fun x => Num.isNaN x = false) xs -> Num.isNaN a = false ->
  Num.isNaN (fold_left Num.min xs a) = false.
Proof.
  intros Hxs. revert a. induction Hxs as [|x xs Hx _ IH]; intros a Ha; auto.
  simpl. apply IH. now apply min_not_NaN.
Qed.

Lemma fold_max_not_NaN xs a :
  Forall (fun x => Num.isNaN x = false) xs -> Num.isNaN a = false ->
  Num.isNaN (fold_left Num.max xs a) = false.
Proof.
  intros Hxs. revert a. induction Hxs as [|x xs Hx _ IH]; intros a Ha; auto.
  simpl. apply IH. now apply max_not_NaN.
Qed.

(** [clamp] of a finite value to [0.5, 6] is a finite value of that
    interval. *)
Lemma clamp_zoom_bounds x : zoom_in_bounds (clamp (Fin x) (q 1 2) (q 6 1)).
Proof.
  unfold zoom_in_bounds, clamp, q, Num.min, Num.max.
  destruct (Num.leb (Fin (6 # 1)) (Fin x)) eqn:E1.
  - exists (6 # 1). split; [reflexivity|]. lra.
  - destruct (Num.leb (Fin (1 # 2)) (Fin x)) eqn:E2.
    + exists x. split; [reflexivity|]. apply leb_Fin in E2.
      split; auto.
      destruct (Qlt_le_dec x 6) as [Hlt|Hle]; [lra|].
      apply leb_Fin in Hle. congruence.
    + exists (1 # 2). split; [reflexivity|]. lra.
Qed.

End NumFacts.

(** ** The filter predicate *)

Section FilterFacts.
Context {JS : JSString}.

(** The predicate is the conjunction of the text and category tests
    with the time predicate. *)
Lemma hitMatchesFilters_time h f th :
  hitMatchesFilters h f th
  = hitMatchesFilters h (Filters.with_range f None None) th
    && time_predicate h f.
Proof.
  unfold hitMatchesFilters, time_predicate, start_rejects, end_rejects.
  cbn [Filters.with_range Filters.text Filters.country Filters.city
       Filters.device Filters.startTs Filters.endTs].
  repeat match goal with
         | |- context [if ?c then false else _] =>
             destruct c; [reflexivity|]
         end.
  reflexivity.
Qed.

(** The tests before the time predicate do not read the range. *)
Lemma hitMatchesFilters_range_irrelevant h f s e th :
  hitMatchesFilters h (Filters.with_range (Filters.with_range f s e)
                         None None) th
  = hitMatchesFilters h (Filters.with_range f None None) th.
Proof. reflexivity. Qed.

Lemma time_predicate_falsy h f :
  Num.truthy (Hit._ts h) = false -> time_predicate h f = true.
Proof.
  intros H. unfold time_predicate, start_rejects, end_rejects. rewrite H.
  destruct (Filters.startTs f), (Filters.endTs f); reflexivity.
Qed.

Lemma hitMatchesFilters_falsy_ts h f th :
  Num.truthy (Hit._ts h) = false ->
  hitMatchesFilters h f th
  = hitMatchesFilters (Hit.with_ts h NaN) f th.
Proof.
  intros H. rewrite (hitMatchesFilters_time h).
  rewrite (hitMatchesFilters_time (Hit.with_ts h NaN)).
  rewrite !time_predicate_falsy by (assumption || reflexivity).
  reflexivity.
Qed.

Lemma time_predicate_widen h f s1 e1 s2 e2 :
  Num.leb s1 s2 = true -> Num.leb e2 e1 = true ->
  time_predicate h (Filters.with_range f (Some s2) (Some e2)) = true ->
  time_predicate h (Filters.with_range f (Some s1) (Some e1)) = true.
Proof.
  intros Hs He. unfold time_predicate, start_rejects, end_rejects, Num.gtb.
  cbn [Filters.with_range Filters.startTs Filters.endTs].
  destruct (Num.truthy (Hit._ts h)); [|reflexivity]. cbn [andb].
  rewrite !andb_true_iff, !negb_true_iff. intros [H1 H2]. split.
  - destruct (Num.ltb (Hit._ts h) s1) eqn:E; auto.
    rewrite (NumFacts.ltb_leb_trans _ _ _ E Hs) in H1. discriminate.
  - destruct (Num.ltb e1 (Hit._ts h)) eqn:E; auto.
    rewrite (NumFacts.leb_ltb_trans _ _ _ He E) in H2. discriminate.
Qed.

Lemma filter_length_le {A : Type} (f g : A -> bool) (l : list A) :
  (forall x, In x l -> f x = true -> g x = true) ->
  (List.length (filter f l) <= List.length (filter g l))%nat.
Proof.
  induction l as [|a l IH]; intros H; simpl; [lia|].
  assert (IH' := IH (fun x Hx => H x (or_intror Hx))).
  destruct (f a) eqn:Ef.
  - rewrite (H a (or_introl eq_refl) Ef). simpl. lia.
  - destruct (g a); simpl; lia.
Qed.
End FilterFacts.

(** C4.  For every record list, every text and category filter values and
    two time ranges [s1, e1] and [s2, e2] with s1 <= s2 and e2 <= e1, no
    more records pass the filter predicate with the range [s2, e2] than
    with the range [s1, e1]. *)
Theorem narrowing_time_range_monotone
    {JS : JSString} (hits : list Hit.t) (f : Filters.t) (s1 e1 s2 e2 : num) :
  Num.leb s1 s2 = true -> Num.leb e2 e1 = true ->
  (List.length (filteredHits hits (Filters.with_range f (Some s2) (Some e2)))
   <= List.length
        (filteredHits hits (Filters.with_range f (Some s1) (Some e1))))%nat.
Proof.
  intros Hs He. unfold filteredHits. apply filter_length_le.
  intros h _.
  rewrite (hitMatchesFilters_time h (Filters.with_range f (Some s2) (Some e2))).
  rewrite (hitMatchesFilters_time h (Filters.with_range f (Some s1) (Some e1))).
  rewrite !hitMatchesFilters_range_irrelevant, !andb_true_iff.
  intros [H1 H2]. split; [assumption|].
  now apply (time_predicate_widen h f s1 e1 s2 e2).
Qed.

Lemma narrowing_time_range_monotone_witness :
  Num.leb (Num.of_Z 20240101000000) (Num.of_Z 20240102000000) = true
  /\ Num.leb (Num.of_Z 20240102000000) (Num.of_Z 20240103000000) = true
  /\ (List.length
        (filteredHits (JS := AsciiText.ops) stamped_scenario
           (Filters.with_range Filters.initial
              (Some (Num.of_Z 20240102000000))
              (Some (Num.of_Z 20240102000000))))
      <= List.length
           (filteredHits (JS := AsciiText.ops) stamped_scenario
              (Filters.with_range Filters.initial
                 (Some (Num.of_Z 20240101000000))
                 (Some (Num.of_Z 20240103000000)))))%nat.
Proof.
  split; [reflexivity|]. split; [reflexivity|].
  apply (narrowing_time_range_monotone (JS := AsciiText.ops)
           stamped_scenario Filters.initial
           (Num.of_Z 20240101000000) (Num.of_Z 20240103000000)
           (Num.of_Z 20240102000000) (Num.of_Z 20240102000000));
    reflexivity.
Defined.

(** C5.  A record whose timestamp string does not parse is accepted by the
    time-range predicate under every filter state: whatever the bounds,
    the record passes the filter exactly when it passes it with no bounds
    at all. *)
Theorem unparseable_timestamp_never_excluded
    {JS : JSString} {DT : JSDate} (r : Hit.t) (filters : Filters.t) :
  Date_parse (Hit.ts r) = None ->
  time_predicate (stamp r) filters = true
  /\ forall textHay,
       hitMatchesFilters (stamp r) filters textHay
       = hitMatchesFilters (stamp r)
           (Filters.with_range filters None None) textHay.
Proof.
  intros Hp.
  assert (Hf : Num.truthy (Hit._ts (stamp r)) = false).
  { unfold stamp. cbn [Hit.with_ts Hit._ts]. now rewrite Hp. }
  split; [now apply time_predicate_falsy|].
  intros th. rewrite hitMatchesFilters_time.
  rewrite time_predicate_falsy by assumption. apply andb_true_r.
Qed.

Lemma unparseable_timestamp_never_excluded_witness :
  Date_parse (JSDate := SampleClock.ops) (Hit.ts undated_hit) = None
  /\ time_predicate (stamp (DT := SampleClock.ops) undated_hit)
       (Filters.with_range Filters.initial
          (Some (Num.of_Z 20240101000000))
          (Some (Num.of_Z 20240103000000))) = true.
Proof.
  split; [reflexivity|].
  apply (unparseable_timestamp_never_excluded (JS := AsciiText.ops)
           (DT := SampleClock.ops) undated_hit
           (Filters.with_range Filters.initial
              (Some (Num.of_Z 20240101000000))
              (Some (Num.of_Z 20240103000000)))).
  reflexivity.
Defined.

(** C9.  A record whose timestamp parses to exactly 0 passes the time
    predicate for every range, also one that excludes time 0, and the
    filter treats it as it treats the same record with an unparseable
    timestamp: the guard tests the parsed timestamp for truthiness. *)
Theorem epoch_timestamp_passes_every_range
    {JS : JSString} (h : Hit.t) (filters : Filters.t) :
  Hit._ts h = Num.of_Z 0 ->
  time_predicate h filters = true
  /\ forall textHay,
       hitMatchesFilters h filters textHay
       = hitMatchesFilters (Hit.with_ts h NaN) filters textHay.
Proof.
  intros H0.
  assert (Hf : Num.truthy (Hit._ts h) = false) by (rewrite H0; reflexivity).
  split; [now apply time_predicate_falsy|].
  intros th. now apply hitMatchesFilters_falsy_ts.
Qed.

Lemma epoch_timestamp_passes_every_range_witness :
  Hit._ts epoch_hit = Num.of_Z 0
  /\ Num.ltb (Num.of_Z 0) (Num.of_Z 5) = true
  /\ time_predicate epoch_hit
       (Filters.with_range Filters.initial
          (Some (Num.of_Z 5)) (Some (Num.of_Z 10))) = true.
Proof.
  split; [reflexivity|]. split; [reflexivity|].
  apply (epoch_timestamp_passes_every_range (JS := AsciiText.ops) epoch_hit
           (Filters.with_range Filters.initial
              (Some (Num.of_Z 5)) (Some (Num.of_Z 10)))).
  reflexivity.
Defined.

(** ** The time range *)

Section TimeFacts.
Context {DT : JSDate}.

Lemma ts_or_now_not_NaN hits n :
  Forall (fun x => Num.isNaN x = false) (fst (ts_or_now n hits)).
Proof.
  revert n. induction hits as [|h hits IH]; intros n; simpl; [constructor|].
  destruct (Num.truthy (Hit._ts h)) eqn:E.
  - specialize (IH n). destruct (ts_or_now n hits) as [r n']. simpl in *.
    constructor; [now apply NumFacts.truthy_not_NaN | assumption].
  - specialize (IH (S n)). destruct (ts_or_now (S n) hits) as [r n'].
    simpl in *. constructor; [reflexivity | assumption].
Qed.

(** The bounds [load] computes are numbers, never NaN. *)
Lemma load_timeDomain_not_NaN hits :
  Num.isNaN (TimeDomain.min (timeDomain (load hits))) = false
  /\ Num.isNaN (TimeDomain.max (timeDomain (load hits))) = false.
Proof.
  unfold load. cbn [timeDomain].
  destruct (map stamp hits) as [|h all] eqn:E; [split; reflexivity|].
  pose proof (ts_or_now_not_NaN (h :: all) 0) as Hlo.
  destruct (ts_or_now 0 (h :: all)) as [lows n].
  pose proof (ts_or_now_not_NaN (h :: all) n) as Hhi.
  destruct (ts_or_now n (h :: all)) as [highs n'].
  cbn [TimeDomain.min TimeDomain.max fst] in *. split.
  - now apply NumFacts.fold_min_not_NaN.
  - now apply NumFacts.fold_max_not_NaN.
Qed.
End TimeFacts.

(** With bounds that are numbers, the update leaves an ordered range. *)
Lemma updateTimeFromInputs_range td startInput endInput filters :
  Num.isNaN (TimeDomain.min td) = false ->
  Num.isNaN (TimeDomain.max td) = false ->
  exists s e,
    Filters.startTs (updateTimeFromInputs td startInput endInput filters)
    = Some s
    /\ Filters.endTs (updateTimeFromInputs td startInput endInput filters)
       = Some e
    /\ Num.leb s e = true.
Proof.
  intros Hmin Hmax. unfold updateTimeFromInputs.
  set (sv := if Num.isNaN startInput then TimeDomain.min td else startInput).
  set (ev := if Num.isNaN endInput then TimeDomain.max td else endInput).
  assert (Hs : Num.isNaN sv = false)
    by (subst sv; destruct (Num.isNaN startInput) eqn:E; assumption).
  assert (He : Num.isNaN ev = false)
    by (subst ev; destruct (Num.isNaN endInput) eqn:E; assumption).
  destruct (Num.gtb sv ev) eqn:Hgt; cbn [Filters.with_range Filters.startTs
                                           Filters.endTs].
  - exists ev, sv. repeat split. now apply NumFacts.ltb_leb.
  - exists sv, ev. repeat split. now apply NumFacts.not_ltb_leb.
Qed.

(** The two controls set in reverse order are swapped. *)
Lemma updateTimeFromInputs_swaps td a b filters :
  Num.gtb a b = true ->
  Filters.startTs (updateTimeFromInputs td a b filters) = Some b
  /\ Filters.endTs (updateTimeFromInputs td a b filters) = Some a.
Proof.
  intros H. unfold updateTimeFromInputs.
  assert (Ha : Num.isNaN a = false) by (destruct a, b; auto; discriminate).
  assert (Hb : Num.isNaN b = false) by (destruct a, b; auto; discriminate).
  rewrite Ha, Hb, H. split; reflexivity.
Qed.

(** C10.  After every update from the two time-range controls, whatever
    the values read from them, the time bounds of the filter state are
    normalised.  The value [a] taken for the start control is the number
    read from it, or the lower domain bound when what was read is not a
    number, and the value [b] for the end control likewise, with the
    upper bound; the bounds written are [a] and [b], swapped when [a] is
    greater than [b], so that startTs <= endTs; the other filters are
    left as they are.  The domain bounds are those [load] has computed. *)
Theorem updateTimeFromInputs_ordered
    {DT : JSDate} (hits : list Hit.t) (startInput endInput : num)
    (filters : Filters.t) :
  exists a b s e,
    (Num.isNaN startInput = true
     /\ a = TimeDomain.min (timeDomain (load hits))
     \/ Num.isNaN startInput = false /\ a = startInput)
    /\ (Num.isNaN endInput = true
        /\ b = TimeDomain.max (timeDomain (load hits))
        \/ Num.isNaN endInput = false /\ b = endInput)
    /\ (Num.gtb a b = true /\ s = b /\ e = a
        \/ Num.gtb a b = false /\ s = a /\ e = b)
    /\ Num.leb s e = true
    /\ Filters.startTs
         (updateTimeFromInputs (timeDomain (load hits))
            startInput endInput filters) = Some s
    /\ Filters.endTs
         (updateTimeFromInputs (timeDomain (load hits))
            startInput endInput filters) = Some e
    /\ Filters.text
         (updateTimeFromInputs (timeDomain (load hits))
            startInput endInput filters) = Filters.text filters
    /\ Filters.country
         (updateTimeFromInputs (timeDomain (load hits))
            startInput endInput filters) = Filters.country filters
    /\ Filters.city
         (updateTimeFromInputs (timeDomain (load hits))
            startInput endInput filters) = Filters.city filters
    /\ Filters.device
         (updateTimeFromInputs (timeDomain (load hits))
            startInput endInput filters) = Filters.device filters.
Proof.
  destruct (load_timeDomain_not_NaN hits) as [Hmin Hmax].
  unfold updateTimeFromInputs.
  set (a := if Num.isNaN startInput
            then TimeDomain.min (timeDomain (load hits)) else startInput).
  set (b := if Num.isNaN endInput
            then TimeDomain.max (timeDomain (load hits)) else endInput).
  assert (Ha : Num.isNaN a = false)
    by (subst a; destruct (Num.isNaN startInput) eqn:E; assumption).
  assert (Hb : Num.isNaN b = false)
    by (subst b; destruct (Num.isNaN endInput) eqn:E; assumption).
  assert (Sa : Num.isNaN startInput = true
               /\ a = TimeDomain.min (timeDomain (load hits))
               \/ Num.isNaN startInput = false /\ a = startInput).
  { subst a. destruct (Num.isNaN startInput); [left|right]; now split. }
  assert (Sb : Num.isNaN endInput = true
               /\ b = TimeDomain.max (timeDomain (load hits))
               \/ Num.isNaN endInput = false /\ b = endInput).
  { subst b. destruct (Num.isNaN endInput); [left|right]; now split. }
  destruct (Num.gtb a b) eqn:Hgt;
    cbn [Filters.with_range Filters.startTs Filters.endTs Filters.text
         Filters.country Filters.city Filters.device].
  - exists a, b, b, a. split; [exact Sa|]. split; [exact Sb|].
    split; [left; now rewrite Hgt|].
    split; [now apply NumFacts.ltb_leb|]. repeat split.
  - exists a, b, a, b. split; [exact Sa|]. split; [exact Sb|].
    split; [right; now rewrite Hgt|].
    split; [now apply NumFacts.not_ltb_leb|]. repeat split.
Qed.

(** ** The view controller *)

Section ViewFacts.

(** [setupProjection] writes [projection] and [allowRotation] only, and
    [draw] writes the rotation of [projection] only. *)
Lemma draw_fields v :
  View.zoom (draw v) = View.zoom v
  /\ View.panX (draw v) = View.panX v
  /\ View.panY (draw v) = View.panY v
  /\ View.rotation (draw v) = View.rotation v
  /\ View.projectionName (draw v) = View.projectionName v
  /\ View.allowRotation (draw v) = View.allowRotation v.
Proof.
  unfold draw. destruct (View.projection v); repeat split; reflexivity.
Qed.

Lemma setupProjection_fields v :
  View.zoom (setupProjection v) = View.zoom v
  /\ View.panX (setupProjection v) = View.panX v
  /\ View.panY (setupProjection v) = View.panY v
  /\ View.rotation (setupProjection v) = View.rotation v
  /\ View.projectionName (setupProjection v) = View.projectionName v.
Proof.
  unfold setupProjection.
  destruct (String.eqb (View.projectionName v) "mercator");
    [|destruct (String.eqb (View.projectionName v) "vanDerGrinten")];
    repeat split; reflexivity.
Qed.

Lemma setupProjection_allowRotation v :
  View.allowRotation (setupProjection v)
  = negb (non_rotatable (View.projectionName v)).
Proof.
  unfold setupProjection, non_rotatable.
  destruct (String.eqb (View.projectionName v) "mercator");
    [|destruct (String.eqb (View.projectionName v) "vanDerGrinten")];
    reflexivity.
Qed.

Lemma setup_draw_zoom v : View.zoom (draw (setupProjection v)) = View.zoom v.
Proof.
  destruct (draw_fields (setupProjection v)) as [-> _].
  now destruct (setupProjection_fields v) as [-> _].
Qed.

Lemma setup_draw_pan v :
  View.panX (draw (setupProjection v)) = View.panX v
  /\ View.panY (draw (setupProjection v)) = View.panY v.
Proof.
  destruct (draw_fields (setupProjection v)) as (_ & -> & -> & _).
  destruct (setupProjection_fields v) as (_ & -> & -> & _). now split.
Qed.

Lemma setup_draw_rotation v :
  View.rotation (draw (setupProjection v)) = View.rotation v.
Proof.
  destruct (draw_fields (setupProjection v)) as (_ & _ & _ & -> & _).
  now destruct (setupProjection_fields v) as (_ & _ & _ & -> & _).
Qed.

Lemma setup_draw_name v :
  View.projectionName (draw (setupProjection v)) = View.projectionName v.
Proof.
  destruct (draw_fields (setupProjection v)) as (_ & _ & _ & _ & -> & _).
  now destruct (setupProjection_fields v) as (_ & _ & _ & _ & ->).
Qed.

Lemma setup_draw_allowRotation v :
  View.allowRotation (draw (setupProjection v))
  = negb (non_rotatable (View.projectionName v)).
Proof.
  destruct (draw_fields (setupProjection v)) as (_ & _ & _ & _ & _ & ->).
  apply setupProjection_allowRotation.
Qed.

(** The cases of [onMove]: the event is ignored, or it turns the globe,
    or it pans the map. *)
Lemma onMove_cases v e :
  onMove v e = v
  \/ (View.allowRotation v && is_rotate (View.dragMode v) = true
      /\ exists r pos,
           onMove v e = View.set_lastPos (View.set_rotation v r) pos)
  \/ (View.allowRotation v && is_rotate (View.dragMode v) = false
      /\ exists x y pos,
           onMove v e
           = View.set_lastPos
               (draw (setupProjection (View.set_pan v x y))) pos).
Proof.
  unfold onMove. destruct (negb (View.dragging v)); [now left|].
  destruct (View.lastPos v) as [[lx ly]|]; [|now left].
  destruct (is_null (pointer_x e) || is_null (pointer_y e)); [now left|].
  destruct (View.allowRotation v && is_rotate (View.dragMode v)).
  - right. left. split; [reflexivity|]. now do 2 eexists.
  - right. right. split; [reflexivity|]. now do 3 eexists.
Qed.

Lemma onMove_zoom v e : View.zoom (onMove v e) = View.zoom v.
Proof.
  destruct (onMove_cases v e) as [-> | [[_ (r & pos & ->)]
                                      | [_ (x & y & pos & ->)]]];
    try reflexivity.
  cbn [View.set_lastPos View.zoom]. now rewrite setup_draw_zoom.
Qed.

Lemma animate_zoom v : View.zoom (animate v) = View.zoom v.
Proof.
  unfold animate.
  match goal with
  | |- View.zoom (draw ?x) = _ => destruct (draw_fields x) as [-> _]
  end.
  now destruct (negb (View.dragging v) && View.allowRotation v).
Qed.

Lemma wheel_nextZoom_bounds v e :
  zoom_in_bounds (View.zoom v) -> zoom_in_bounds (wheel_nextZoom v e).
Proof.
  intros [r [Hr _]]. unfold wheel_nextZoom, wheel_factor. rewrite Hr.
  destruct (Num.gtb (deltaY e) (q 0 1)); apply NumFacts.clamp_zoom_bounds.
Qed.

Lemma handle_zoom_in_bounds v ev :
  zoom_in_bounds (View.zoom v) -> zoom_in_bounds (View.zoom (handle v ev)).
Proof.
  intros Hz. destruct ev as [w h|e|e| |e|name|]; cbn [handle].
  - unfold resizeCanvas. now rewrite setup_draw_zoom.
  - exact Hz.
  - now rewrite onMove_zoom.
  - exact Hz.
  - unfold onWheel. rewrite setup_draw_zoom. cbn [View.set_zoom View.zoom].
    now apply wheel_nextZoom_bounds.
  - unfold selectProjection. rewrite setup_draw_zoom.
    exists 1. split; [reflexivity|]. lra.
  - now rewrite animate_zoom.
Qed.

Lemma run_zoom_in_bounds evs v :
  zoom_in_bounds (View.zoom v) -> zoom_in_bounds (View.zoom (run evs v)).
Proof.
  revert v. induction evs as [|ev evs IH]; intros v Hz; [exact Hz|].
  cbn [run fold_left]. apply IH. now apply handle_zoom_in_bounds.
Qed.
End ViewFacts.

(** C8.  Starting from zoom = 1, after any sequence of events (wheel
    events, projection changes, and the other inputs of the view) the zoom
    factor lies in [0.5, 6]. *)
Theorem zoom_always_in_bounds (evs : list Event) :
  zoom_in_bounds (View.zoom (run evs View.initial)).
Proof.
  apply run_zoom_in_bounds. exists 1. split; [reflexivity|]. lra.
Qed.

(** ** Rotation and the active projection *)

Section RotationFacts.

Lemma setup_draw_agrees v : allow_agrees (draw (setupProjection v)).
Proof.
  unfold allow_agrees. now rewrite setup_draw_allowRotation, setup_draw_name.
Qed.

Lemma handle_agrees v ev : allow_agrees v -> allow_agrees (handle v ev).
Proof.
  intros Hv. destruct ev as [w h|e|e| |e|name|]; cbn [handle].
  - apply setup_draw_agrees.
  - exact Hv.
  - destruct (onMove_cases v e) as [-> | [[_ (r & pos & ->)]
                                        | [_ (x & y & pos & ->)]]].
    + exact Hv.
    + exact Hv.
    + apply setup_draw_agrees.
  - exact Hv.
  - apply setup_draw_agrees.
  - apply setup_draw_agrees.
  - unfold animate, allow_agrees.
    match goal with
    | |- context [draw ?x] =>
        destruct (draw_fields x) as (_ & _ & _ & _ & -> & ->)
    end.
    now destruct (negb (View.dragging v) && View.allowRotation v).
Qed.

Lemma run_agrees evs v : allow_agrees v -> allow_agrees (run evs v).
Proof.
  revert v. induction evs as [|ev evs IH]; intros v Hv; [exact Hv|].
  cbn [run fold_left]. apply IH. now apply handle_agrees.
Qed.

End RotationFacts.



(** ** Drawing of points *)

Section DrawingFacts.
Context {G : D3}.

Lemma drawPoints_app v l1 l2 :
  drawPoints v (l1 ++ l2) = (drawPoints v l1 ++ drawPoints v l2)%list.
Proof.
  unfold drawPoints. destruct (View.projection v); [|reflexivity].
  apply flat_map_app.
Qed.

Lemma drawPoint_culled pr p la lo :
  Entry.lat p = Some la -> Entry.lon p = Some lo ->
  culled pr lo la -> drawPoint "orthographic" pr p = [].
Proof.
  intros Hla Hlo Hc. unfold drawPoint.
  rewrite Hla, Hlo, String.eqb_refl.
  destruct Hc as [[rotated [Hr Hfar]] | [x [y [Hp Hinf]]]].
  - now rewrite Hr, Hfar.
  - destruct (geoRotation (Projection.rotate pr) (lo, la)) as [r|];
      [|reflexivity].
    destruct (Num.gtb (Num.abs (fst r)) (q 90 1)); [reflexivity|].
    rewrite Hp. cbn beta iota.
    destruct Hinf as [H | H]; rewrite H; [reflexivity|].
    now rewrite andb_false_r.
Qed.
End DrawingFacts.

(** C6.  Under the orthographic projection, whatever its rotation, a
    summary point with defined coordinates whose rotated longitude exceeds
    90 degrees in absolute value, or whose projected screen coordinates
    are not finite, gets no draw primitive: the frame is the one drawn
    without the point. *)
Theorem back_face_culling
    {G : D3} (v : View.t) (pr : Projection.t) (before after : list Entry.t)
    (p : Entry.t) (la lo : num) :
  View.projectionName v = "orthographic" ->
  View.projection v = Some pr ->
  Entry.lat p = Some la -> Entry.lon p = Some lo ->
  culled pr lo la ->
  drawPoint (View.projectionName v) pr p = []
  /\ drawPoints v (before ++ p :: after) = drawPoints v (before ++ after).
Proof.
  intros Hname Hpr Hla Hlo Hc. rewrite Hname.
  pose proof (drawPoint_culled pr p la lo Hla Hlo Hc) as Hnil.
  split; [exact Hnil|].
  rewrite !drawPoints_app. f_equal.
  unfold drawPoints. rewrite Hpr, Hname. cbn [flat_map]. now rewrite Hnil.
Qed.

Lemma back_face_culling_witness :
  View.projectionName globe_view = "orthographic"
  /\ View.projection globe_view = Some globe_projection
  /\ culled (G := SampleD3.ops) globe_projection (q 120 1) (q 10 1)
  /\ drawPoints (G := SampleD3.ops) globe_view
       ([point_at (q 30 1) (q 10 1)] ++ point_at (q 120 1) (q 10 1) :: [])
     = drawPoints (G := SampleD3.ops) globe_view
         ([point_at (q 30 1) (q 10 1)] ++ []).
Proof.
  assert (Hc : culled (G := SampleD3.ops) globe_projection (q 120 1) (q 10 1)).
  { left. exists (q 120 1, q (-5) 1). split; reflexivity. }
  split; [reflexivity|]. split; [reflexivity|]. split; [exact Hc|].
  apply (back_face_culling (G := SampleD3.ops) globe_view globe_projection
           [point_at (q 30 1) (q 10 1)] [] (point_at (q 120 1) (q 10 1))
           (q 10 1) (q 120 1)); try reflexivity.
  exact Hc.
Defined.

(** ** Zoom about the cursor *)

Section AnchorFacts.
Context {G : D3}.

Lemma scaleFactor_value name :
  to_num (or_num (projectionScale name) (Some (q 1 1)))
  = Fin (scale_factor name).
Proof.
  unfold projectionScale, scale_factor.
  destruct (String.eqb name "orthographic"); [reflexivity|].
  destruct (String.eqb name "mercator"); [reflexivity|].
  destruct (String.eqb name "vanDerGrinten"); reflexivity.
Qed.

(** The projection object of a view with finite parameters, once set
    up and drawn. *)
Lemma setup_draw_projection v w h rad z px py :
  View.width v = Fin w -> View.height v = Fin h ->
  View.radius v = Fin rad -> View.zoom v = Fin z ->
  View.panX v = Fin px -> View.panY v = Fin py ->
  View.projection (draw (setupProjection v))
  = Some (Projection.mk (kind_of (View.projectionName v))
            (Fin (w / 2 + px), Fin (h / 2 + py))
            (Fin (rad * scale_factor (View.projectionName v) * z))
            (rotate_of (View.projectionName v) (View.rotation v))).
Proof.
  intros Hw Hh Hr Hz Hx Hy.
  unfold draw, setupProjection, kind_of, rotate_of, non_rotatable.
  rewrite scaleFactor_value, Hw, Hh, Hr, Hz, Hx, Hy.
  destruct (String.eqb (View.projectionName v) "mercator");
    [|destruct (String.eqb (View.projectionName v) "vanDerGrinten")];
    reflexivity.
Qed.

(** A finite screen coordinate comes from a finite unit coordinate. *)
Lemma finite_affine t k u c :
  Num.same (Num.add (Fin t) (Num.mul (Fin k) u)) (Fin c) ->
  exists a, u = Fin a /\ t + k * a == c.
Proof.
  destruct u as [| | |a]; simpl; unfold Num.scale_inf;
    repeat match goal with
           | |- context [if ?b then _ else _] => destruct b
           end; simpl; try contradiction.
  intros H. now exists a.
Qed.

Lemma wheel_values v e :
  zoom_in_bounds (View.zoom v) ->
  exists z z',
    View.zoom v = Fin z /\ ~ z == 0
    /\ wheel_nextZoom v e = Fin z'
    /\ wheel_scaleChange v e = Fin (z' / z).
Proof.
  intros Hb. destruct (wheel_nextZoom_bounds v e Hb) as [z' [Hz' _]].
  destruct Hb as [z [Hz [Hlo _]]].
  exists z, z'. split; [assumption|]. split; [lra|]. split; [assumption|].
  unfold wheel_scaleChange. rewrite Hz', Hz. simpl.
  destruct (Qeq_bool z 0) eqn:E; [|reflexivity].
  apply Qeq_bool_eq in E. lra.
Qed.

Lemma finite_field (a : num) : Num.isFinite a = true -> exists r, a = Fin r.
Proof. destruct a; try discriminate. intros _. now eexists. Qed.

(** Sums, products and halves are finite only when their operands are,
    and so is a number that equals a finite one. *)
Lemma add_finite a b :
  Num.isFinite (Num.add a b) = true ->
  Num.isFinite a = true /\ Num.isFinite b = true.
Proof. destruct a, b; simpl; intros H; try discriminate; now split. Qed.

Lemma mul_finite a b :
  Num.isFinite (Num.mul a b) = true ->
  Num.isFinite a = true /\ Num.isFinite b = true.
Proof.
  destruct a, b; simpl; unfold Num.scale_inf;
    repeat match goal with
           | |- context [if ?c then _ else _] => destruct c
           end; simpl; intros H; try discriminate; now split.
Qed.

Lemma half_finite a :
  Num.isFinite (Num.div a (q 2 1)) = true -> Num.isFinite a = true.
Proof. destruct a; simpl; intros H; try discriminate; reflexivity. Qed.

Lemma same_finite a b :
  Num.same a b -> Num.isFinite b = true -> Num.isFinite a = true.
Proof. destruct a, b; simpl; intros H F; try contradiction; auto. Qed.

(** The projection object of any view, once set up and drawn. *)
Lemma setup_draw_projection_any v :
  View.projection (draw (setupProjection v))
  = Some (Projection.mk (kind_of (View.projectionName v))
            (expected_translate v) (expected_scale v)
            (rotate_of (View.projectionName v) (View.rotation v))).
Proof.
  unfold draw, setupProjection, kind_of, rotate_of, non_rotatable,
    expected_translate, expected_scale.
  destruct (String.eqb (View.projectionName v) "mercator");
    [|destruct (String.eqb (View.projectionName v) "vanDerGrinten")];
    reflexivity.
Qed.

(** A view that shows a point at a finite cursor position has finite
    size, radius, zoom and pan offset. *)
Lemma anchored_view_finite v e g pos :
  wheel_finite e = true ->
  View.projection v = View.projection (draw (setupProjection v)) ->
  screen v g = Some pos -> same_point pos (cursor e) ->
  View.finite v = true.
Proof.
  intros Hwf Hsync Hscr [Hsx Hsy].
  unfold wheel_finite in Hwf. rewrite !andb_true_iff in Hwf.
  destruct Hwf as [[[Hwx Hwy] Hrl] Hrt].
  assert (Hcx : Num.isFinite (fst (cursor e)) = true).
  { unfold cursor. cbn [fst].
    destruct (wheelX e), (rect_left e); try discriminate; reflexivity. }
  assert (Hcy : Num.isFinite (snd (cursor e)) = true).
  { unfold cursor. cbn [snd].
    destruct (wheelY e), (rect_top e); try discriminate; reflexivity. }
  pose proof (same_finite _ _ Hsx Hcx) as Hfx.
  pose proof (same_finite _ _ Hsy Hcy) as Hfy.
  unfold screen in Hscr. rewrite Hsync, setup_draw_projection_any in Hscr.
  unfold project in Hscr. cbn [Projection.kind Projection.rotate
    Projection.translate Projection.scale] in Hscr.
  destruct (unit_projection (kind_of (View.projectionName v))
              (rotate_of (View.projectionName v) (View.rotation v)) g)
    as [[ux uy]|]; [|discriminate].
  injection Hscr as <-. cbn [fst snd] in Hfx, Hfy.
  unfold expected_translate, expected_scale in Hfx, Hfy.
  cbn [fst snd] in Hfx, Hfy.
  apply add_finite in Hfx, Hfy.
  destruct Hfx as [Htx Hsc], Hfy as [Hty _].
  apply add_finite in Htx, Hty.
  destruct Htx as [Hw Hpx], Hty as [Hh Hpy].
  apply half_finite in Hw, Hh.
  apply mul_finite in Hsc. destruct Hsc as [Hsc _].
  apply mul_finite in Hsc. destruct Hsc as [Hrz Hz].
  apply mul_finite in Hrz. destruct Hrz as [Hr _].
  unfold View.finite. now rewrite Hw, Hh, Hr, Hz, Hpx, Hpy.
Qed.

(** The identity behind the anchor: scaling about the cursor. *)
Lemma anchor_identity (c half pan k z z' a : Q) :
  ~ z == 0 ->
  half + pan + k * z * a == c ->
  half + (pan + - ((c + - (half + pan)) * (z' / z + - (1)))) + k * z' * a
  == c.
Proof.
  intros Hz H.
  assert (Ha : k * z * a == c - half - pan) by lra.
  assert (Hk : k * a == (c - half - pan) / z).
  { rewrite <- Ha. field. exact Hz. }
  assert (Hk' : k * z' * a == z' * ((c - half - pan) / z)).
  { rewrite <- Hk. ring. }
  rewrite Hk'. field. exact Hz.
Qed.
End AnchorFacts.

(** C3.  For every view with zoom in [0.5, 6] whose projection object is
    the one its variables give when set up and drawn, so that no rotation
    from a rotate-drag waits for the next draw, and every cursor at a
    finite position, one wheel step leaves the geographic point that was
    under the cursor under the cursor, whatever the projection: in exact
    arithmetic its screen position is the same before and after.  The d3 projection is taken as scaling its unit
    projection by [scale] and moving it by [translate]. *)
Theorem wheel_zoom_keeps_anchor
    {G : D3} (v : View.t) (e : WheelEv) (g pos : num * num) :
  wheel_finite e = true ->
  zoom_in_bounds (View.zoom v) ->
  View.projection v = View.projection (draw (setupProjection v)) ->
  screen v g = Some pos -> same_point pos (cursor e) ->
  exists pos',
    screen (onWheel v e) g = Some pos' /\ same_point pos' (cursor e).
Proof.
  intros Hwf Hb Hsync Hscr Hsame.
  pose proof (anchored_view_finite v e g pos Hwf Hsync Hscr Hsame) as Hfin.
  unfold View.finite in Hfin. rewrite !andb_true_iff in Hfin.
  destruct Hfin as [[[[[Hw Hh] Hr] Hz] Hx] Hy].
  apply finite_field in Hw, Hh, Hr, Hx, Hy.
  destruct Hw as [w Hw], Hh as [h Hh], Hr as [rad Hr],
           Hx as [px Hx], Hy as [py Hy].
  unfold wheel_finite in Hwf. rewrite !andb_true_iff in Hwf.
  destruct Hwf as [[[Hwx Hwy] Hrl] Hrt].
  apply finite_field in Hwx, Hwy, Hrl, Hrt.
  destruct Hwx as [wx Hwx], Hwy as [wy Hwy], Hrl as [rl Hrl],
           Hrt as [rt Hrt].
  destruct (wheel_values v e Hb) as (z & z' & Hzv & Hz0 & Hnext & Hchange).
  (* the position before the step *)
  unfold screen in Hscr.
  rewrite Hsync, (setup_draw_projection v w h rad z px py) in Hscr
    by assumption.
  unfold project in Hscr. cbn [Projection.kind Projection.rotate
    Projection.translate Projection.scale fst snd] in Hscr.
  destruct (unit_projection (kind_of (View.projectionName v))
              (rotate_of (View.projectionName v) (View.rotation v)) g)
    as [[ux uy]|] eqn:Hunit; [|discriminate].
  injection Hscr as <-.
  unfold same_point, cursor in Hsame. rewrite Hwx, Hwy, Hrl, Hrt in Hsame.
  cbn [fst snd Num.sub Num.neg Num.add] in Hsame.
  destruct Hsame as [Hsx Hsy].
  apply finite_affine in Hsx, Hsy.
  destruct Hsx as [a [-> Hax]], Hsy as [b [-> Hby]].
  (* the position after the step *)
  unfold screen, onWheel, cursor. cbn [fst snd].
  rewrite (setup_draw_projection _ w h rad z'
             (px + - ((wx + - rl + - (w / 2 + px)) * (z' / z + - (1))))
             (py + - ((wy + - rt + - (h / 2 + py)) * (z' / z + - (1)))));
    cbn [View.set_zoom View.set_pan View.width View.height View.radius
         View.zoom View.panX View.panY View.projectionName View.rotation];
    try assumption;
    try (rewrite ?Hchange, ?Hw, ?Hh, ?Hx, ?Hy, ?Hwx, ?Hwy, ?Hrl, ?Hrt;
         reflexivity).
  unfold project. cbn [Projection.kind Projection.rotate
    Projection.translate Projection.scale fst snd].
  rewrite Hunit. eexists. split; [reflexivity|].
  unfold same_point. rewrite Hwx, Hwy, Hrl, Hrt.
  cbn [fst snd Num.sub Num.neg Num.add Num.mul Num.same].
  split.
  - apply anchor_identity; [exact Hz0|].
    rewrite <- Hax. ring.
  - apply anchor_identity; [exact Hz0|].
    rewrite <- Hby. ring.
Qed.

Lemma wheel_zoom_keeps_anchor_witness :
  wheel_finite sample_wheel = true
  /\ zoom_in_bounds (View.zoom globe_view)
  /\ exists pos',
       screen (G := SampleD3.ops) (onWheel globe_view sample_wheel)
         (q 15 1, q 15 4) = Some pos'
       /\ same_point pos' (cursor sample_wheel).
Proof.
  assert (Hz : zoom_in_bounds (View.zoom globe_view)).
  { exists 1. split; [reflexivity|]. split; unfold Qle; simpl; lia. }
  split; [reflexivity|]. split; [exact Hz|].
  eapply (wheel_zoom_keeps_anchor (G := SampleD3.ops) globe_view
            sample_wheel (q 15 1, q 15 4)).
  - reflexivity.
  - exact Hz.
  - reflexivity.
  - reflexivity.
  - split; reflexivity.
Defined.

(** C3 as stated, for every view state, fails on [turned_view]: the
    rotate-drag has changed [rotation] without drawing, the wheel step
    draws, and the point that was under the cursor at (490, 280) goes to
    (516.4, 280), more than one unit away. *)
Lemma wheel_anchor_counterexample :
  View.finite turned_view = true
  /\ wheel_finite sample_wheel = true
  /\ zoom_in_bounds (View.zoom turned_view)
  /\ exists pos pos',
       screen (G := SampleD3.ops) turned_view (q 15 1, q 15 4) = Some pos
       /\ same_point pos (cursor sample_wheel)
       /\ screen (G := SampleD3.ops) (onWheel turned_view sample_wheel)
            (q 15 1, q 15 4) = Some pos'
       /\ same_point pos' (q 5164 10, q 280 1)
       /\ Num.gtb (Num.abs (Num.sub (fst pos') (fst (cursor sample_wheel))))
            (q 1 1) = true
       /\ ~ same_point pos' (cursor sample_wheel).
Proof.
  split; [reflexivity|]. split; [reflexivity|]. split.
  { exists 1. split; [reflexivity|]. split; unfold Qle; simpl; lia. }
  do 2 eexists. split; [reflexivity|]. split; [split; reflexivity|].
  split; [reflexivity|]. split; [split; reflexivity|].
  split; [reflexivity|].
  intros [Hx _]. vm_compute in Hx. discriminate.
Qed.

(** ** What a summary holds *)

Section SummaryFacts.
Import StrMapFacts.

Lemma keys_aggregate_map hits :
  StrMap.keys (aggregate_map hits) = first_occurrences (map Hit.ip hits).
Proof.
  unfold first_occurrences.
  induction hits as [|h hits IH] using rev_ind; [reflexivity|].
  rewrite aggregate_map_snoc, map_app, fold_left_app. cbn [map fold_left].
  unfold aggregate_step. rewrite keys_set, IH. reflexivity.
Qed.

Lemma aggregate_map_ip hits k e :
  In (k, e) (aggregate_map hits) -> Entry.ip e = k.
Proof.
  intros Hin. apply In_get in Hin; [|apply NoDup_aggregate_map].
  rewrite get_aggregate_map in Hin.
  destruct (records_of k hits) as [|r rs] eqn:Hr; [discriminate|].
  cbn [entry_of] in Hin. injection Hin as <-.
  rewrite fold_update_ip. simpl.
  apply (records_of_ip k hits). rewrite Hr. now left.
Qed.

Lemma ips_aggregateIps hits :
  map Entry.ip (aggregateIps hits) = StrMap.keys (aggregate_map hits).
Proof.
  unfold aggregateIps, StrMap.values, StrMap.keys. rewrite map_map.
  apply map_ext_in. intros [k e] Hin. simpl.
  now apply (aggregate_map_ip hits).
Qed.

(** The cases of [fill_attr] on the entry's value and the record's. *)
Ltac fill_attr_cases :=
  unfold fill_attr;
  let Ee := fresh "Ee" in
  let Er := fresh "Er" in
  match goal with
  | |- context [negb (truthy_str ?x) && truthy_str ?y] =>
      destruct (truthy_str x) eqn:Ee; destruct (truthy_str y) eqn:Er;
      cbn [negb andb]; rewrite ?Ee, ?Er; reflexivity
  end.

Lemma fold_update_country rs e :
  Entry.country (fold_left update_entry rs e)
  = if truthy_str (Entry.country e) then Entry.country e
    else match find truthy_str (map Hit.country rs) with
         | Some c => c
         | None => Entry.country e
         end.
Proof.
  revert e. induction rs as [|r rs IH]; intros e.
  - simpl. now destruct (truthy_str (Entry.country e)).
  - cbn [fold_left map find]. rewrite IH.
    cbn [update_entry Entry.country]. fill_attr_cases.
Qed.

Lemma fold_update_city rs e :
  Entry.city (fold_left update_entry rs e)
  = if truthy_str (Entry.city e) then Entry.city e
    else match find truthy_str (map Hit.city rs) with
         | Some c => c
         | None => Entry.city e
         end.
Proof.
  revert e. induction rs as [|r rs IH]; intros e.
  - simpl. now destruct (truthy_str (Entry.city e)).
  - cbn [fold_left map find]. rewrite IH.
    cbn [update_entry Entry.city]. fill_attr_cases.
Qed.

Lemma fold_update_ua_type rs e :
  Entry.ua_type (fold_left update_entry rs e)
  = if truthy_str (Entry.ua_type e) then Entry.ua_type e
    else match find truthy_str (map Hit.ua_type rs) with
         | Some c => c
         | None => Entry.ua_type e
         end.
Proof.
  revert e. induction rs as [|r rs IH]; intros e.
  - simpl. now destruct (truthy_str (Entry.ua_type e)).
  - cbn [fold_left map find]. rewrite IH.
    cbn [update_entry Entry.ua_type]. fill_attr_cases.
Qed.

Lemma fill_attr_same (a : option string) : fill_attr a a = a.
Proof.
  unfold fill_attr. now destruct (negb (truthy_str a) && truthy_str a).
Qed.

Lemma first_nonempty_cons (a : option string) (l : list (option string)) :
  first_nonempty (a :: l)
  = if truthy_str a then a
    else match find truthy_str l with
         | Some c => c
         | None => a
         end.
Proof.
  unfold first_nonempty. cbn [find hd]. now destruct (truthy_str a).
Qed.
End SummaryFacts.

Section CoordinateFacts.

Lemma fold_update_coords rs e :
  (Entry.lat (fold_left update_entry rs e),
   Entry.lon (fold_left update_entry rs e))
  = if located_entry e then (Entry.lat e, Entry.lon e)
    else match find located_hit rs with
         | Some h => (Hit.lat h, Hit.lon h)
         | None => (Entry.lat e, Entry.lon e)
         end.
Proof.
  revert e. induction rs as [|r rs IH]; intros e.
  - simpl. now destruct (located_entry e).
  - cbn [fold_left find]. rewrite IH.
    unfold located_entry, located_hit.
    cbn [update_entry Entry.lat Entry.lon].
    destruct (Entry.lat e), (Entry.lon e), (Hit.lat r) eqn:Hla,
      (Hit.lon r) eqn:Hlo; cbn; rewrite ?Hla, ?Hlo; reflexivity.
Qed.

Lemma first_located_fold r rs :
  (if located_entry (new_entry r) then (Hit.lat r, Hit.lon r)
   else match find located_hit (r :: rs) with
        | Some h => (Hit.lat h, Hit.lon h)
        | None => (Hit.lat r, Hit.lon r)
        end)
  = first_located (r :: rs).
Proof.
  unfold first_located, located_entry. cbn [find new_entry Entry.lat Entry.lon].
  change (negb (is_null (Hit.lat r)) && negb (is_null (Hit.lon r)))
    with (located_hit r).
  now destruct (located_hit r).
Qed.

Lemma located_first_located rs :
  (let (la, lo) := first_located rs in negb (is_null la) && negb (is_null lo))
  = existsb located_hit rs.
Proof.
  unfold first_located.
  destruct (find located_hit rs) as [h|] eqn:Hf.
  - apply find_some in Hf. destruct Hf as [Hin Hl].
    transitivity (located_hit h); [reflexivity|]. rewrite Hl.
    symmetry. apply existsb_exists. now exists h.
  - assert (Hno : existsb located_hit rs = false).
    { destruct (existsb located_hit rs) eqn:E; [|reflexivity].
      apply existsb_exists in E. destruct E as [h [Hin Hl]].
      now rewrite (find_none _ _ Hf h Hin) in Hl. }
    rewrite Hno. destruct rs as [|r rs]; [reflexivity|].
    transitivity (located_hit r); [reflexivity|].
    apply (find_none _ _ Hf r). now left.
Qed.
End CoordinateFacts.

Lemma length_le_sum_counts es :
  Forall (fun e => 1 <= Entry.count e)%nat es ->
  (List.length es <= sum_counts es)%nat.
Proof.
  unfold sum_counts. induction 1 as [|e es He _ IH]; simpl; lia.
Qed.

Lemma aggregateIps_count_records hits e :
  In e (aggregateIps hits) ->
  Entry.count e = List.length (records_of (Entry.ip e) hits)
  /\ (1 <= Entry.count e)%nat.
Proof.
  intros Hin. apply aggregateIps_entry in Hin.
  destruct (records_of (Entry.ip e) hits) as [|r rs]; [discriminate|].
  cbn [entry_of] in Hin. injection Hin as <-.
  rewrite fold_update_count. simpl. lia.
Qed.

(** X1.  The summaries come one per distinct address, in the order in
    which the addresses first occur in the input. *)
Theorem aggregateIps_one_per_address (hits : list Hit.t) :
  map Entry.ip (aggregateIps hits) = first_occurrences (map Hit.ip hits)
  /\ NoDup (map Entry.ip (aggregateIps hits))
  /\ (forall k, In k (map Entry.ip (aggregateIps hits))
                <-> In k (map Hit.ip hits)).
Proof.
  rewrite ips_aggregateIps. split; [apply keys_aggregate_map|].
  split; [apply NoDup_aggregate_map|].
  intros k. rewrite <- ips_aggregateIps. split.
  - rewrite in_map_iff. intros [e [<- He]].
    apply aggregateIps_entry in He.
    destruct (records_of (Entry.ip e) hits) as [|r rs] eqn:Hr; [discriminate|].
    assert (Hin : In r (records_of (Entry.ip e) hits))
      by (rewrite Hr; now left).
    rewrite <- (records_of_ip _ _ _ Hin).
    apply in_map. unfold records_of in Hin. now apply filter_In in Hin.
  - rewrite in_map_iff. intros [h [<- Hh]].
    destruct (aggregateIps_complete hits h Hh) as [e [He Hip]].
    rewrite <- Hip. now apply in_map.
Qed.

(** X2.  The count of a summary is the number of records of its address
    in the input, and is at least 1. *)
Theorem aggregateIps_count (hits : list Hit.t) (e : Entry.t) :
  In e (aggregateIps hits) ->
  Entry.count e = List.length (records_of (Entry.ip e) hits)
  /\ (1 <= Entry.count e)%nat.
Proof. apply aggregateIps_count_records. Qed.

Lemma aggregateIps_count_witness :
  In sparse_summary (aggregateIps sparse_hits)
  /\ Entry.count sparse_summary
     = List.length (records_of (Entry.ip sparse_summary) sparse_hits).
Proof.
  split; [left; reflexivity|].
  apply (aggregateIps_count sparse_hits sparse_summary).
  left. reflexivity.
Defined.

(** X3.  Country, city and device class of a summary are each the first
    truthy value among the records of its address, in input order; when no
    record has a truthy value, the value of the first record. *)
Theorem aggregateIps_first_nonempty_wins (hits : list Hit.t) (e : Entry.t) :
  In e (aggregateIps hits) ->
  Entry.country e
  = first_nonempty (map Hit.country (records_of (Entry.ip e) hits))
  /\ Entry.city e
     = first_nonempty (map Hit.city (records_of (Entry.ip e) hits))
  /\ Entry.ua_type e
     = first_nonempty (map Hit.ua_type (records_of (Entry.ip e) hits)).
Proof.
  intros Hin. apply aggregateIps_entry in Hin.
  destruct (records_of (Entry.ip e) hits) as [|r rs]; [discriminate|].
  cbn [entry_of] in Hin. injection Hin as <-.
  cbn [fold_left map].
  rewrite fold_update_country, fold_update_city, fold_update_ua_type.
  cbn [update_entry new_entry Entry.country Entry.city Entry.ua_type].
  rewrite !fill_attr_same, !first_nonempty_cons. repeat split.
Qed.

Lemma aggregateIps_first_nonempty_wins_witness :
  In sparse_summary (aggregateIps sparse_hits)
  /\ Entry.country sparse_summary
     = first_nonempty
         (map Hit.country (records_of (Entry.ip sparse_summary) sparse_hits)).
Proof.
  split; [left; reflexivity|].
  apply (aggregateIps_first_nonempty_wins sparse_hits sparse_summary).
  left. reflexivity.
Defined.

(** X4.  A summary has both coordinates exactly when some record of its
    address has both, and then they are those of the first such record; a
    latitude and a longitude of different records are never combined. *)
Theorem aggregateIps_coordinates (hits : list Hit.t) (e : Entry.t) :
  In e (aggregateIps hits) ->
  (Entry.lat e, Entry.lon e) = first_located (records_of (Entry.ip e) hits)
  /\ located_entry e = existsb located_hit (records_of (Entry.ip e) hits).
Proof.
  intros Hin. apply aggregateIps_entry in Hin.
  assert (Hc : (Entry.lat e, Entry.lon e)
               = first_located (records_of (Entry.ip e) hits)).
  { destruct (records_of (Entry.ip e) hits) as [|r rs]; [discriminate|].
    cbn [entry_of] in Hin. injection Hin as <-.
    etransitivity; [apply (fold_update_coords (r :: rs) (new_entry r))|].
    apply first_located_fold. }
  split; [exact Hc|].
  rewrite <- located_first_located, <- Hc. reflexivity.
Qed.

Lemma aggregateIps_coordinates_witness :
  In sparse_summary (aggregateIps sparse_hits)
  /\ (Entry.lat sparse_summary, Entry.lon sparse_summary)
     = first_located (records_of (Entry.ip sparse_summary) sparse_hits).
Proof.
  split; [left; reflexivity|].
  apply (aggregateIps_coordinates sparse_hits sparse_summary).
  left. reflexivity.
Defined.

(** X5.  Under every filter state the statistics of [applyFilters] are
    ordered: the points drawn are at most the unique addresses, which are
    at most the filtered hits, which are at most the records loaded. *)
Theorem applyFilters_statistics
    {JS : JSString} (allHits : list Hit.t) (filters : Filters.t) :
  (List.length (points (applyFilters allHits filters))
   <= uniqueIps (applyFilters allHits filters))%nat
  /\ (uniqueIps (applyFilters allHits filters)
      <= totalHits (applyFilters allHits filters))%nat
  /\ (totalHits (applyFilters allHits filters) <= List.length allHits)%nat.
Proof.
  unfold applyFilters. cbn [points uniqueIps totalHits]. split; [|split].
  - apply List.filter_length_le.
  - rewrite <- sum_counts_aggregateIps. apply length_le_sum_counts.
    apply Forall_forall. intros e He.
    now apply aggregateIps_count_records in He.
  - unfold filteredHits. apply List.filter_length_le.
Qed.

(** ** More on the order of numbers *)

Module NumOrder.

Lemma leb_refl a : Num.isNaN a = false -> Num.leb a a = true.
Proof.
  destruct a as [| | |p]; try discriminate; try reflexivity.
  intros _. apply NumFacts.leb_Fin. lra.
Qed.

Lemma leb_trans a b c :
  Num.leb a b = true -> Num.leb b c = true -> Num.leb a c = true.
Proof.
  destruct a as [| | |p], b as [| | |r], c as [| | |t];
    try discriminate; try reflexivity.
  rewrite !NumFacts.leb_Fin. lra.
Qed.

Lemma leb_not_ltb a b : Num.leb a b = true -> Num.ltb b a = false.
Proof.
  destruct a as [| | |p], b as [| | |r]; try discriminate; try reflexivity.
  rewrite NumFacts.leb_Fin. intros H.
  destruct (Num.ltb (Fin r) (Fin p)) eqn:E; [|reflexivity].
  apply NumFacts.ltb_Fin in E. lra.
Qed.

Lemma leb_total a b :
  Num.isNaN a = false -> Num.isNaN b = false ->
  Num.leb a b = true \/ Num.leb b a = true.
Proof.
  destruct a as [| | |p], b as [| | |r]; try discriminate; auto.
  intros _ _. rewrite !NumFacts.leb_Fin. lra.
Qed.

Lemma leb_not_NaN a b :
  Num.leb a b = true -> Num.isNaN a = false /\ Num.isNaN b = false.
Proof. destruct a, b; try discriminate; now split. Qed.

Lemma min_spec a b :
  Num.isNaN a = false -> Num.isNaN b = false ->
  Num.leb (Num.min a b) a = true /\ Num.leb (Num.min a b) b = true
  /\ (Num.min a b = a \/ Num.min a b = b).
Proof.
  intros Ha Hb.
  assert (Hm : Num.min a b = if Num.leb a b then a else b)
    by (destruct a, b; try discriminate; reflexivity).
  rewrite Hm. destruct (Num.leb a b) eqn:E.
  - split; [now apply leb_refl|]. split; [exact E|now left].
  - destruct (leb_total a b Ha Hb) as [H|H]; [congruence|].
    split; [exact H|]. split; [now apply leb_refl|now right].
Qed.

Lemma max_spec a b :
  Num.isNaN a = false -> Num.isNaN b = false ->
  Num.leb a (Num.max a b) = true /\ Num.leb b (Num.max a b) = true
  /\ (Num.max a b = a \/ Num.max a b = b).
Proof.
  intros Ha Hb.
  assert (Hm : Num.max a b = if Num.leb a b then b else a)
    by (destruct a, b; try discriminate; reflexivity).
  rewrite Hm. destruct (Num.leb a b) eqn:E.
  - split; [exact E|]. split; [now apply leb_refl|now right].
  - destruct (leb_total a b Ha Hb) as [H|H]; [congruence|].
    split; [now apply leb_refl|]. split; [exact H|now left].
Qed.

(** [Math.min(...xs)] is below every element and [Math.max(...xs)] above,
    when no element is NaN. *)
Lemma fold_min_lower xs a :
  Forall (fun x => Num.isNaN x = false) xs -> Num.isNaN a = false ->
  Num.leb (fold_left Num.min xs a) a = true
  /\ forall x, In x xs -> Num.leb (fold_left Num.min xs a) x = true.
Proof.
  intros Hxs. revert a. induction Hxs as [|y xs Hy _ IH]; intros a Ha.
  - split; [now apply leb_refl|]. intros x [].
  - cbn [fold_left].
    destruct (min_spec a y Ha Hy) as (Hl & Hr & _).
    destruct (IH (Num.min a y) (NumFacts.min_not_NaN a y Ha Hy)) as [H1 H2].
    split; [now apply (leb_trans _ _ _ H1)|].
    intros x [<-|Hx]; [now apply (leb_trans _ _ _ H1)|now apply H2].
Qed.

Lemma fold_max_upper xs a :
  Forall (fun x => Num.isNaN x = false) xs -> Num.isNaN a = false ->
  Num.leb a (fold_left Num.max xs a) = true
  /\ forall x, In x xs -> Num.leb x (fold_left Num.max xs a) = true.
Proof.
  intros Hxs. revert a. induction Hxs as [|y xs Hy _ IH]; intros a Ha.
  - split; [now apply leb_refl|]. intros x [].
  - cbn [fold_left].
    destruct (max_spec a y Ha Hy) as (Hl & Hr & _).
    destruct (IH (Num.max a y) (NumFacts.max_not_NaN a y Ha Hy)) as [H1 H2].
    split; [now apply (leb_trans _ _ _ Hl)|].
    intros x [<-|Hx]; [now apply (leb_trans _ _ _ Hr)|now apply H2].
Qed.

End NumOrder.

(** ** The range [load] starts with *)

Section InitialRange.
Context {DT : JSDate}.

Lemma ts_or_now_truthy hits n h :
  In h hits -> Num.truthy (Hit._ts h) = true ->
  In (Hit._ts h) (fst (ts_or_now n hits)).
Proof.
  revert n. induction hits as [|h0 hits IH]; intros n Hin Ht; [destruct Hin|].
  cbn [ts_or_now]. destruct Hin as [->|Hin].
  - rewrite Ht. destruct (ts_or_now n hits). now left.
  - destruct (Num.truthy (Hit._ts h0)).
    + specialize (IH n Hin Ht). destruct (ts_or_now n hits). now right.
    + specialize (IH (S n) Hin Ht). destruct (ts_or_now (S n) hits).
      now right.
Qed.

Lemma load_range_keeps h hits :
  In h (allHits (load hits)) ->
  time_predicate h (currentFilters (load hits)) = true.
Proof.
  intros Hin. destruct (Num.truthy (Hit._ts h)) eqn:Ht;
    [|now apply time_predicate_falsy].
  unfold load in *. cbn [allHits currentFilters timeDomain] in *.
  destruct (map stamp hits) as [|h0 all] eqn:E; [destruct Hin|].
  pose proof (ts_or_now_not_NaN (h0 :: all) 0) as Hlo.
  pose proof (ts_or_now_truthy (h0 :: all) 0 h Hin Ht) as Hinlo.
  destruct (ts_or_now 0 (h0 :: all)) as [lows n].
  pose proof (ts_or_now_not_NaN (h0 :: all) n) as Hhi.
  pose proof (ts_or_now_truthy (h0 :: all) n h Hin Ht) as Hinhi.
  destruct (ts_or_now n (h0 :: all)) as [highs n'].
  cbn [fst TimeDomain.min TimeDomain.max] in *.
  unfold time_predicate, start_rejects, end_rejects, Num.gtb.
  cbn [Filters.with_range Filters.startTs Filters.endTs]. rewrite Ht.
  destruct (NumOrder.fold_min_lower lows Num.PInf Hlo eq_refl) as [_ Hmin].
  destruct (NumOrder.fold_max_upper highs Num.NInf Hhi eq_refl) as [_ Hmax].
  unfold Num.min_list, Num.max_list.
  rewrite (NumOrder.leb_not_ltb _ _ (Hmin _ Hinlo)).
  rewrite (NumOrder.leb_not_ltb _ _ (Hmax _ Hinhi)). reflexivity.
Qed.
End InitialRange.

(** X6.  Right after [load], with the filter controls untouched, every
    record loaded passes the filter: the initial time range excludes
    none, whether its timestamp parses or not.  The text test needs the
    empty query to stay empty under [trim] and [toLowerCase]. *)
Theorem load_shows_every_record
    {JS : JSString} {DT : JSDate} (hits : list Hit.t) :
  toLowerCase (trim "") = "" ->
  filteredHits (allHits (load hits)) (currentFilters (load hits))
  = allHits (load hits).
Proof.
  intros Hq. unfold filteredHits.
  apply forallb_filter_id. apply forallb_forall. intros h Hin.
  rewrite hitMatchesFilters_time, (load_range_keeps h hits Hin).
  unfold load. cbn [currentFilters]. rewrite hitMatchesFilters_range_irrelevant.
  unfold hitMatchesFilters.
  cbn [Filters.with_range Filters.initial Filters.text Filters.country
       Filters.city Filters.device Filters.startTs Filters.endTs].
  rewrite Hq. reflexivity.
Qed.

Lemma load_shows_every_record_witness :
  @toLowerCase AsciiText.ops (@trim AsciiText.ops "") = ""
  /\ filteredHits (JS := AsciiText.ops)
       (allHits (load (DT := SampleClock.ops) (undated_hit :: scenario_hits)))
       (currentFilters
          (load (DT := SampleClock.ops) (undated_hit :: scenario_hits)))
     = allHits (load (DT := SampleClock.ops) (undated_hit :: scenario_hits)).
Proof.
  split; [reflexivity|].
  apply (load_shows_every_record (JS := AsciiText.ops)
           (DT := SampleClock.ops) (undated_hit :: scenario_hits)).
  reflexivity.
Defined.

(** ** [clamp] and the timeline bar *)

Section ClampFacts.

Lemma clamp_bounds v lo hi :
  Num.isNaN v = false -> Num.leb lo hi = true ->
  Num.leb lo (clamp v lo hi) = true /\ Num.leb (clamp v lo hi) hi = true.
Proof.
  intros Hv Hle. destruct (NumOrder.leb_not_NaN _ _ Hle) as [Hlo Hhi].
  unfold clamp.
  destruct (NumOrder.min_spec hi v Hhi Hv) as (Hm1 & _ & _).
  assert (Hm : Num.isNaN (Num.min hi v) = false)
    by now apply NumFacts.min_not_NaN.
  destruct (NumOrder.max_spec lo (Num.min hi v) Hlo Hm) as (Hx1 & _ & Hx).
  split; [exact Hx1|]. destruct Hx as [-> | ->]; assumption.
Qed.

Lemma clamp_inside v lo hi :
  Num.leb lo v = true -> Num.leb v hi = true -> Num.same (clamp v lo hi) v.
Proof.
  destruct v as [| | |x], lo as [| | |l], hi as [| | |h];
    try discriminate; intros H1 H2;
    unfold clamp, Num.max, Num.min, Num.leb in *;
    repeat match goal with
           | |- context [Qle_bool ?a ?b] => destruct (Qle_bool a b) eqn:?
           end;
    repeat match goal with
           | H : Qle_bool _ _ = true |- _ => apply Qle_bool_iff in H
           | H : Qle_bool ?a ?b = false |- _ =>
               assert (~ a <= b)
                 by (intro X; apply Qle_bool_iff in X; congruence);
               clear H
           end;
    cbn [Num.same]; try exact I; try discriminate; lra.
Qed.

Lemma unit_clamp_Fin v :
  Num.isNaN v = false ->
  exists c, clamp v (q 0 1) (q 1 1) = Fin c /\ 0 <= c /\ c <= 1.
Proof.
  intros Hv. destruct (clamp_bounds v (q 0 1) (q 1 1) Hv eq_refl) as [H0 H1].
  destruct (clamp v (q 0 1) (q 1 1)) as [| | |c]; try discriminate.
  exists c. split; [reflexivity|].
  apply NumFacts.leb_Fin in H0, H1. split; assumption.
Qed.

Lemma div_finite_not_NaN a b :
  Num.truthy (Fin b) = true -> Num.isNaN (Num.div (Fin a) (Fin b)) = false.
Proof.
  simpl. destruct (Qeq_bool b 0); [discriminate|reflexivity].
Qed.
End ClampFacts.

(** X7.  [clamp] keeps a number within its bounds: for bounds lo <= hi
    and a value that is not NaN the result lies between lo and hi, and a
    value already between them is returned with its value unchanged. *)
Theorem clamp_within_bounds (v lo hi : num) :
  Num.isNaN v = false -> Num.leb lo hi = true ->
  Num.leb lo (clamp v lo hi) = true
  /\ Num.leb (clamp v lo hi) hi = true
  /\ (Num.leb lo v = true -> Num.leb v hi = true ->
      Num.same (clamp v lo hi) v).
Proof.
  intros Hv Hle. destruct (clamp_bounds v lo hi Hv Hle) as [H1 H2].
  split; [exact H1|]. split; [exact H2|]. apply clamp_inside.
Qed.

Lemma clamp_within_bounds_witness :
  Num.isNaN (q 66 10) = false
  /\ Num.leb (q 1 2) (q 6 1) = true
  /\ Num.leb (clamp (q 66 10) (q 1 2) (q 6 1)) (q 6 1) = true.
Proof.
  split; [reflexivity|]. split; [reflexivity|].
  apply (clamp_within_bounds (q 66 10) (q 1 2) (q 6 1)); reflexivity.
Defined.

Section TimelineFacts.

Lemma Qabs_difference (a b : Q) :
  0 <= Qabs (b + - a)
  /\ ((a <= b /\ Qabs (b + - a) == b - a)
      \/ (b <= a /\ Qabs (b + - a) == a - b)).
Proof.
  split; [apply Qabs_nonneg|].
  apply (Qabs_case (b + - a)
           (fun y => (a <= b /\ y == b - a) \/ (b <= a /\ y == a - b)));
    intros H; [left|right]; split; lra.
Qed.

(** A percentage of the bar: the clamped share of the span, times 100. *)
Lemma percentage_Fin (x a sp : Q) :
  Num.truthy (Fin sp) = true ->
  exists p,
    Num.mul
      (clamp (Num.div (Num.sub (Fin x) (Fin a)) (Fin sp)) (q 0 1) (q 1 1))
      (q 100 1) = Fin p
    /\ 0 <= p /\ p <= 100.
Proof.
  intros Hsp.
  destruct (unit_clamp_Fin (Num.div (Num.sub (Fin x) (Fin a)) (Fin sp)))
    as (c & -> & H0 & H1).
  { apply div_finite_not_NaN. exact Hsp. }
  exists (c * (100 # 1)). split; [reflexivity|]. split; lra.
Qed.

Lemma bar_Fin (ps pe : Q) :
  0 <= ps -> ps <= 100 -> 0 <= pe -> pe <= 100 ->
  exists l w,
    Num.min (Fin ps) (Fin pe) = Fin l
    /\ Num.max (q 0 1) (Num.abs (Num.sub (Fin pe) (Fin ps))) = Fin w
    /\ 0 <= l /\ 0 <= w /\ l + w <= 100.
Proof.
  intros Hs0 Hs1 He0 He1.
  destruct (Qabs_difference ps pe) as [Hn Habs].
  unfold Num.min, Num.max, Num.abs, Num.sub, Num.neg, Num.add, Num.leb, q.
  destruct (Qle_bool ps pe) eqn:E1;
    destruct (Qle_bool (0 # 1) (Qabs (pe + - ps))) eqn:E2;
    do 2 eexists; (split; [reflexivity|]); (split; [reflexivity|]);
    repeat match goal with
           | H : Qle_bool _ _ = true |- _ => apply Qle_bool_iff in H
           | H : Qle_bool ?a ?b = false |- _ =>
               assert (~ a <= b)
                 by (intro X; apply Qle_bool_iff in X; congruence);
               clear H
           end;
    destruct Habs as [[Hle Heq]|[Hle Heq]]; repeat split; lra.
Qed.
End TimelineFacts.

(** X8.  With a finite time domain and range bounds that are absent or
    finite, the bar [updateTimelineProgress] draws lies within its track:
    its left edge and its width are finite and not negative, and together
    they do not pass 100 percent. *)
Theorem timeline_bar_within_track
    (td : TimeDomain.t) (filters : Filters.t) (left width : num) :
  Num.isFinite (TimeDomain.min td) = true ->
  Num.isFinite (TimeDomain.max td) = true ->
  finite_bound (Filters.startTs filters) = true ->
  finite_bound (Filters.endTs filters) = true ->
  updateTimelineProgress td filters = Some (left, width) ->
  exists l w : Q,
    left = Fin l /\ width = Fin w /\ 0 <= l /\ 0 <= w /\ l + w <= 100.
Proof.
  intros Hmin Hmax Hs He. unfold updateTimelineProgress.
  apply finite_field in Hmin, Hmax.
  destruct Hmin as [a Ha], Hmax as [b Hb]. rewrite Ha, Hb.
  destruct (negb (Num.truthy (Fin a)) || negb (Num.truthy (Fin b)));
    [discriminate|].
  assert (Hspan : exists sp,
            (if Num.truthy (Num.sub (Fin b) (Fin a))
             then Num.sub (Fin b) (Fin a) else q 1 1) = Fin sp
            /\ Num.truthy (Fin sp) = true).
  { destruct (Num.truthy (Num.sub (Fin b) (Fin a))) eqn:E.
    - eexists. split; [reflexivity|exact E].
    - exists 1. split; reflexivity. }
  destruct Hspan as (sp & -> & Hsp).
  assert (Hstart : exists x,
            nullish (Filters.startTs filters) (Fin a) = Fin x).
  { destruct (Filters.startTs filters) as [x|]; [|now exists a].
    now apply finite_field in Hs. }
  assert (Hend : exists x, nullish (Filters.endTs filters) (Fin b) = Fin x).
  { destruct (Filters.endTs filters) as [x|]; [|now exists b].
    now apply finite_field in He. }
  destruct Hstart as [xs ->], Hend as [xe ->].
  destruct (percentage_Fin xs a sp Hsp) as (ps & -> & Hs0 & Hs1).
  destruct (percentage_Fin xe a sp Hsp) as (pe & -> & He0 & He1).
  destruct (bar_Fin ps pe Hs0 Hs1 He0 He1) as (l & w & -> & -> & Hl & Hw & Hlw).
  intros H. injection H as <- <-. now exists l, w.
Qed.

Lemma timeline_bar_within_track_witness :
  updateTimelineProgress
    (TimeDomain.mk (Num.of_Z 20240101000000) (Num.of_Z 20240103000000))
    (Filters.with_range Filters.initial
       (Some (Num.of_Z 20240102000000)) (Some (Num.of_Z 20240103000000)))
  = Some (Fin (100000000 # 2000000), Fin (100000000 # 2000000))
  /\ exists l w : Q,
       Fin (100000000 # 2000000) = Fin l
       /\ Fin (100000000 # 2000000) = Fin w
       /\ 0 <= l /\ 0 <= w /\ l + w <= 100.
Proof.
  split; [vm_compute; reflexivity|].
  apply (timeline_bar_within_track
           (TimeDomain.mk (Num.of_Z 20240101000000) (Num.of_Z 20240103000000))
           (Filters.with_range Filters.initial
              (Some (Num.of_Z 20240102000000))
              (Some (Num.of_Z 20240103000000))));
    try reflexivity.
Defined.

(** ** The projection object follows the view *)

Section ProjectionFacts.

Lemma setupProjection_current v : projection_current (setupProjection v).
Proof.
  unfold projection_current, setupProjection, kind_of, expected_translate,
    expected_scale.
  destruct (String.eqb (View.projectionName v) "mercator") eqn:E1;
    [|destruct (String.eqb (View.projectionName v) "vanDerGrinten") eqn:E2];
    eexists; (split; [reflexivity|]);
    cbn [View.set_allowRotation View.set_projection View.projectionName
         View.width View.height View.radius View.zoom View.panX View.panY
         Projection.kind Projection.translate Projection.scale];
    rewrite ?E1, ?E2; repeat split.
Qed.

(** [draw] keeps the projection current, and so does a change of the
    rotation angle, of the drag state or of the last pointer position. *)
Lemma draw_current v : projection_current v -> projection_current (draw v).
Proof.
  intros (p & Hp & Hk & Ht & Hs). unfold draw. rewrite Hp.
  eexists. split; [reflexivity|]. repeat split; assumption.
Qed.

Lemma set_rotation_current v r :
  projection_current v -> projection_current (View.set_rotation v r).
Proof. intros (p & H). now exists p. Qed.

Lemma set_lastPos_current v pos :
  projection_current v -> projection_current (View.set_lastPos v pos).
Proof. intros (p & H). now exists p. Qed.

Lemma handle_current v ev :
  projection_current v -> projection_current (handle v ev).
Proof.
  intros Hv. destruct ev as [w h|e|e| |e|name|]; cbn [handle].
  - apply draw_current, setupProjection_current.
  - destruct Hv as (p & H). now exists p.
  - destruct (onMove_cases v e) as [-> | [[_ (r & pos & ->)]
                                        | [_ (x & y & pos & ->)]]].
    + exact Hv.
    + now apply set_lastPos_current, set_rotation_current.
    + apply set_lastPos_current, draw_current, setupProjection_current.
  - destruct Hv as (p & H). now exists p.
  - apply draw_current, setupProjection_current.
  - apply draw_current, setupProjection_current.
  - unfold animate. apply draw_current.
    destruct (negb (View.dragging v) && View.allowRotation v); [|exact Hv].
    now apply set_rotation_current.
Qed.

Lemma run_current evs v :
  projection_current v -> projection_current (run evs v).
Proof.
  revert v. induction evs as [|ev evs IH]; intros v Hv; [exact Hv|].
  cbn [run fold_left]. apply IH. now apply handle_current.
Qed.
End ProjectionFacts.

(** X9.  Once the canvas has been sized, after any sequence of events the
    projection object is the one the view calls for: its kind follows the
    projection's name, its translation is the canvas centre moved by the
    pan offset, and its scale is radius times nominal factor times zoom. *)
Theorem projection_follows_view (w h : num) (evs : list Event) :
  projection_current (run (Resize w h :: evs) View.initial).
Proof.
  cbn [run fold_left handle]. apply run_current.
  apply draw_current, setupProjection_current.
Qed.

(** ** When the projection object is the drawn one *)

Section SettledFacts.

(** A draw leaves the projection object as setting it up again and
    drawing would: its rotation is the one of the view. *)
Lemma draw_settles v :
  projection_current v -> allow_agrees v ->
  View.projection (draw v)
  = View.projection (draw (setupProjection (draw v))).
Proof.
  intros (p & Hp & Hk & Ht & Hs) Ha.
  destruct p as [k t sc r]. cbn [Projection.kind Projection.translate
    Projection.scale] in Hk, Ht, Hs. subst k t sc.
  unfold allow_agrees, non_rotatable in Ha.
  unfold draw at 2. unfold draw at 1. rewrite Hp.
  unfold setupProjection, expected_translate, expected_scale, kind_of, draw.
  rewrite Hp.
  cbn [View.set_projection View.projectionName View.width View.height
       View.radius View.zoom View.panX View.panY View.projection
       View.allowRotation View.rotation Projection.with_rotate
       Projection.kind Projection.translate Projection.scale].
  rewrite Ha.
  destruct (String.eqb (View.projectionName v) "mercator");
    [|destruct (String.eqb (View.projectionName v) "vanDerGrinten")];
    reflexivity.
Qed.

(** Once the canvas has been sized, after any sequence of events that
    ends in a tick of the animation, the projection object is the drawn
    one: a rotation that a rotate-drag has left waiting is shown by the
    next frame. *)
Lemma frame_settles_projection (w h : num) (evs : list Event) :
  View.projection (run (Resize w h :: evs ++ [Frame]) View.initial)
  = View.projection
      (draw (setupProjection
               (run (Resize w h :: evs ++ [Frame]) View.initial))).
Proof.
  assert (E : run (Resize w h :: evs ++ [Frame]) View.initial
              = animate (run (Resize w h :: evs) View.initial)).
  { unfold run.
    change (Resize w h :: evs ++ [Frame])
      with ((Resize w h :: evs) ++ [Frame])%list.
    now rewrite fold_left_app. }
  rewrite E.
  assert (Hc : projection_current (run (Resize w h :: evs) View.initial)).
  { cbn [run fold_left handle]. apply run_current.
    apply draw_current, setupProjection_current. }
  assert (Ha : allow_agrees (run (Resize w h :: evs) View.initial)).
  { apply run_agrees. reflexivity. }
  revert Hc Ha. generalize (run (Resize w h :: evs) View.initial) as v.
  intros v Hc Ha. unfold animate.
  destruct (negb (View.dragging v) && View.allowRotation v).
  - apply draw_settles; [exact (set_rotation_current _ _ Hc)|exact Ha].
  - now apply draw_settles.
Qed.
End SettledFacts.

(** ** Dragging *)

(** X10.  While the projection can rotate, a pointer-down without the
    shift key followed by a pointer-move turns the globe by 0.3 times the
    horizontal distance and changes neither the pan offset nor the zoom;
    with the shift key the same gesture pans by the distance moved and
    leaves the rotation angle as it is. *)
Theorem drag_rotates_or_pans (v : View.t) (down move : Pointer) (x y : num) :
  View.allowRotation v = true ->
  pointer_x move = Some x -> pointer_y move = Some y ->
  let after := onMove (onDown v down) move in
  let dx := Num.sub x (to_num (pointer_x down)) in
  let dy := Num.sub y (to_num (pointer_y down)) in
  View.zoom after = View.zoom v
  /\ View.lastPos after = Some (Some x, Some y)
  /\ (shiftKey down = false ->
      View.rotation after = Num.add (View.rotation v) (Num.mul dx (q 3 10))
      /\ View.panX after = View.panX v /\ View.panY after = View.panY v)
  /\ (shiftKey down = true ->
      View.rotation after = View.rotation v
      /\ View.panX after = Num.add (View.panX v) dx
      /\ View.panY after = Num.add (View.panY v) dy).
Proof.
  intros Hallow Hx Hy after dx dy. subst after dx dy.
  split; [now rewrite onMove_zoom|].
  unfold onMove, onDown.
  cbn [View.set_lastPos View.set_dragging View.set_dragMode View.dragging
       View.lastPos View.allowRotation View.dragMode negb].
  rewrite Hx, Hy, Hallow. cbn [is_null orb negb andb to_num].
  destruct (shiftKey down); cbn [is_rotate View.set_lastPos View.lastPos].
  - split; [reflexivity|]. split; [discriminate|]. intros _.
    cbn [View.rotation View.panX View.panY View.set_lastPos].
    rewrite setup_draw_rotation.
    match goal with
    | |- _ /\ View.panX (draw (setupProjection ?s)) = _ /\ _ =>
        destruct (setup_draw_pan s) as [-> ->]
    end.
    repeat split.
  - split; [reflexivity|]. split; [|discriminate]. intros _. repeat split.
Qed.

Lemma drag_rotates_or_pans_witness :
  View.allowRotation globe_view = true
  /\ pointer_x (mouse_at 130 40 false) = Some (Num.of_Z 130)
  /\ View.rotation
       (onMove (onDown globe_view (mouse_at 100 40 false))
          (mouse_at 130 40 false))
     = Num.add (View.rotation globe_view)
         (Num.mul (Num.sub (Num.of_Z 130)
                     (to_num (pointer_x (mouse_at 100 40 false))))
            (q 3 10)).
Proof.
  split; [reflexivity|]. split; [reflexivity|].
  apply (drag_rotates_or_pans globe_view (mouse_at 100 40 false)
           (mouse_at 130 40 false) (Num.of_Z 130) (Num.of_Z 40));
    reflexivity.
Defined.

(** X11.  A pointer-up ends the drag: the pointer-moves that follow it
    change nothing. *)
Theorem moves_after_up_ignored (v : View.t) (moves : list Pointer) :
  run (map PointerMove moves) (onUp v) = onUp v.
Proof.
  induction moves as [|e moves IH]; [reflexivity|].
  cbn [map run fold_left handle]. unfold onMove at 1.
  cbn [onUp View.set_dragging View.dragging negb]. exact IH.
Qed.

(** X12.  While the projection can rotate and no drag is going on, a tick
    of the animation advances the rotation angle by 0.05 and wraps it
    once by a full turn: an angle of [-180, 180) stays in [-180, 180). *)
Theorem animate_wraps_rotation (v : View.t) :
  View.dragging v = false -> View.allowRotation v = true ->
  canonical_angle (View.rotation v) ->
  canonical_angle (View.rotation (animate v))
  /\ exists r r',
       View.rotation v = Fin r /\ View.rotation (animate v) = Fin r'
       /\ (r' == r + (5 # 100) \/ r' == r + (5 # 100) - 360).
Proof.
  unfold animate.
  match goal with
  | |- context [draw ?x] =>
      destruct (draw_fields x) as (_ & _ & _ & -> & _)
  end.
  intros -> -> (r & Hr & Hlo & Hhi).
  cbn [negb andb View.set_rotation View.rotation].
  rewrite Hr. cbn [Num.add q Num.geb Num.leb].
  destruct (Qle_bool (180 # 1) (r + (5 # 100))) eqn:E.
  - apply Qle_bool_iff in E. cbn [Num.sub Num.neg Num.add].
    split.
    + eexists. split; [reflexivity|]. split; lra.
    + do 2 eexists. split; [reflexivity|]. split; [reflexivity|].
      right. lra.
  - assert (~ 180 # 1 <= r + (5 # 100))
      by (intro X; apply Qle_bool_iff in X; congruence).
    split.
    + eexists. split; [reflexivity|]. split; lra.
    + do 2 eexists. split; [reflexivity|]. split; [reflexivity|].
      left. lra.
Qed.

Lemma animate_wraps_rotation_witness :
  View.dragging (View.set_rotation globe_view (q 17999 100)) = false
  /\ View.allowRotation (View.set_rotation globe_view (q 17999 100)) = true
  /\ canonical_angle (View.rotation (View.set_rotation globe_view
                                       (q 17999 100)))
  /\ canonical_angle
       (View.rotation (animate (View.set_rotation globe_view
                                  (q 17999 100)))).
Proof.
  assert (Hc : canonical_angle
                 (View.rotation (View.set_rotation globe_view
                                   (q 17999 100)))).
  { exists (17999 # 100). split; [reflexivity|].
    split; [unfold Qle|unfold Qlt]; simpl; lia. }
  split; [reflexivity|]. split; [reflexivity|]. split; [exact Hc|].
  apply (animate_wraps_rotation (View.set_rotation globe_view
                                   (q 17999 100)));
    [reflexivity|reflexivity|exact Hc].
Defined.

(** ** Zoom at its bounds *)

Section ZoomBoundFacts.

Lemma wheel_nextZoom_at_bound v e z :
  View.zoom v = Fin z ->
  (z == 6 /\ Num.gtb (deltaY e) (q 0 1) = false)
  \/ (z == 1 # 2 /\ Num.gtb (deltaY e) (q 0 1) = true) ->
  exists z', wheel_nextZoom v e = Fin z' /\ z' == z.
Proof.
  intros Hz Hb. unfold wheel_nextZoom, wheel_factor. rewrite Hz.
  destruct Hb as [[Hz6 ->] | [Hz12 ->]];
    unfold clamp, Num.mul, q, Num.min, Num.max, Num.leb;
    repeat match goal with
           | |- context [Qle_bool ?a ?b] => destruct (Qle_bool a b) eqn:?
           end;
    repeat match goal with
           | H : Qle_bool _ _ = true |- _ => apply Qle_bool_iff in H
           | H : Qle_bool ?a ?b = false |- _ =>
               assert (~ a <= b)
                 by (intro X; apply Qle_bool_iff in X; congruence);
               clear H
           end;
    eexists; (split; [reflexivity|]); lra.
Qed.
End ZoomBoundFacts.

(** X13.  At a bound of the zoom a wheel step that would pass it changes
    nothing: with zoom 6 and a scroll inwards, or zoom 0.5 and a scroll
    outwards, zoom and pan offset keep their values. *)
Theorem wheel_at_zoom_bound (v : View.t) (e : WheelEv) (z : Q) :
  View.finite v = true -> wheel_finite e = true ->
  View.zoom v = Fin z ->
  (z == 6 /\ Num.gtb (deltaY e) (q 0 1) = false)
  \/ (z == 1 # 2 /\ Num.gtb (deltaY e) (q 0 1) = true) ->
  Num.same (View.zoom (onWheel v e)) (View.zoom v)
  /\ Num.same (View.panX (onWheel v e)) (View.panX v)
  /\ Num.same (View.panY (onWheel v e)) (View.panY v).
Proof.
  intros Hfin Hwf Hz Hb.
  destruct (wheel_nextZoom_at_bound v e z Hz Hb) as (z' & Hnext & Hzz).
  assert (Hz0 : ~ z == 0) by (destruct Hb as [[H _]|[H _]]; lra).
  assert (Hchange : wheel_scaleChange v e = Fin (z' / z)).
  { unfold wheel_scaleChange. rewrite Hnext, Hz. simpl.
    destruct (Qeq_bool z 0) eqn:E; [|reflexivity].
    apply Qeq_bool_eq in E. contradiction. }
  assert (Hone : z' / z == 1) by (rewrite Hzz; field; exact Hz0).
  unfold View.finite in Hfin. rewrite !andb_true_iff in Hfin.
  destruct Hfin as [[[[[Hw Hh] _] _] Hx] Hy].
  apply finite_field in Hw, Hh, Hx, Hy.
  destruct Hw as [w Hw], Hh as [h Hh], Hx as [px Hx], Hy as [py Hy].
  unfold wheel_finite in Hwf. rewrite !andb_true_iff in Hwf.
  destruct Hwf as [[[Hwx Hwy] Hrl] Hrt].
  apply finite_field in Hwx, Hwy, Hrl, Hrt.
  destruct Hwx as [wx Hwx], Hwy as [wy Hwy], Hrl as [rl Hrl],
           Hrt as [rt Hrt].
  unfold onWheel, cursor. rewrite setup_draw_zoom.
  match goal with
  | |- _ /\ Num.same (View.panX (draw (setupProjection ?s))) _ /\ _ =>
      destruct (setup_draw_pan s) as [-> ->]
  end.
  cbn [View.set_zoom View.set_pan View.zoom View.panX View.panY fst snd].
  rewrite Hchange, Hnext, Hz, Hw, Hh, Hx, Hy, Hwx, Hwy, Hrl, Hrt.
  cbn [Num.same Num.sub Num.neg Num.add Num.mul q].
  split; [exact Hzz|].
  assert (Hd2 : forall a, Num.div (Fin a) (Fin (2 # 1)) = Fin (a / 2))
    by reflexivity.
  rewrite !Hd2. cbn [Num.same Num.sub Num.neg Num.add Num.mul].
  split; rewrite Hone; ring.
Qed.

Lemma wheel_at_zoom_bound_witness :
  View.finite (View.set_zoom globe_view (q 6 1)) = true
  /\ wheel_finite sample_wheel = true
  /\ Num.same (View.panX (onWheel (View.set_zoom globe_view (q 6 1))
                            sample_wheel))
       (View.panX (View.set_zoom globe_view (q 6 1))).
Proof.
  split; [reflexivity|]. split; [reflexivity|].
  apply (wheel_at_zoom_bound (View.set_zoom globe_view (q 6 1))
           sample_wheel 6); try reflexivity.
  left. split; reflexivity.
Defined.

(** ** Points on the canvas *)

Section ArcFacts.
Context {G : D3}.

Lemma point_size_bounds p :
  exists r, point_size p = Fin r /\ 11 # 10 <= r /\ r <= 2.
Proof.
  unfold point_size.
  set (c := match Entry.count p with O => 1%nat | n => n end).
  assert (Hc : (1 <= c)%nat) by (subst c; destruct (Entry.count p); lia).
  assert (Hq : 1 <= inject_Z (Z.of_nat c))
    by (unfold Qle; simpl; lia).
  unfold Num.of_Z, Num.min, q, Num.leb.
  destruct (Qle_bool (inject_Z (Z.of_nat c)) (10 # 1)) eqn:E.
  - apply Qle_bool_iff in E. eexists. split; [reflexivity|]. split; lra.
  - eexists. split; [reflexivity|]. split; lra.
Qed.

Lemma drawPoint_arcs name pr p a :
  In a (drawPoint name pr p) ->
  exists x y,
    a = Arc x y (point_size p)
    /\ Num.isFinite x = true /\ Num.isFinite y = true
    /\ project pr (to_num (Entry.lon p), to_num (Entry.lat p)) = Some (x, y).
Proof.
  unfold drawPoint.
  destruct (Entry.lat p) as [la|]; [|intros []].
  destruct (Entry.lon p) as [lo|]; [|intros []].
  cbn [to_num].
  set (coord := if String.eqb name "orthographic" then _ else _).
  assert (Hcoord : forall c, coord = Some c -> project pr (lo, la) = Some c).
  { subst coord. intros c.
    destruct (String.eqb name "orthographic"); [|auto].
    destruct (geoRotation (Projection.rotate pr) (lo, la)) as [r|];
      [|discriminate].
    destruct (Num.gtb (Num.abs (fst r)) (q 90 1)); [discriminate|auto]. }
  destruct coord as [[x y]|]; [|intros []].
  destruct (Num.isFinite x && Num.isFinite y) eqn:E; [|intros []].
  apply andb_true_iff in E. destruct E as [Ex Ey].
  intros [<-|[]]. exists x, y. repeat split; auto.
Qed.

Lemma drawPoint_length name pr p :
  (List.length (drawPoint name pr p) <= 1)%nat.
Proof.
  unfold drawPoint.
  destruct (Entry.lat p); [|simpl; lia].
  destruct (Entry.lon p); [|simpl; lia].
  match goal with
  | |- context [match ?c with Some _ => _ | None => [] end] =>
      destruct c as [[x y]|]; [|simpl; lia]
  end.
  destruct (Num.isFinite x && Num.isFinite y); simpl; lia.
Qed.
End ArcFacts.

(** X14.  Every arc [drawPoints] emits is at the finite screen position of
    a point of the list that has both coordinates, with a radius between
    1.1 and 2; there is at most one arc per point. *)
Theorem drawPoints_arcs
    {G : D3} (v : View.t) (pts : list Entry.t) :
  (List.length (drawPoints v pts) <= List.length pts)%nat
  /\ forall x y size, In (Arc x y size) (drawPoints v pts) ->
       Num.isFinite x = true /\ Num.isFinite y = true
       /\ (exists r, size = Fin r /\ 11 # 10 <= r /\ r <= 2)
       /\ exists p la lo,
            In p pts /\ Entry.lat p = Some la /\ Entry.lon p = Some lo
            /\ screen v (lo, la) = Some (x, y).
Proof.
  unfold drawPoints, screen. destruct (View.projection v) as [pr|];
    [|split; [simpl; lia|intros x y size []]].
  split.
  - induction pts as [|p pts IH]; [simpl; lia|].
    cbn [flat_map]. rewrite length_app.
    pose proof (drawPoint_length (View.projectionName v) pr p). simpl. lia.
  - intros x y size Hin. apply in_flat_map in Hin.
    destruct Hin as (p & Hp & Ha).
    pose proof Ha as Hlat. unfold drawPoint in Hlat.
    destruct (Entry.lat p) as [la|] eqn:Ela; [|destruct Hlat].
    destruct (Entry.lon p) as [lo|] eqn:Elo; [|destruct Hlat].
    clear Hlat.
    apply drawPoint_arcs in Ha.
    destruct Ha as (x' & y' & Heq & Hx & Hy & Hproj).
    injection Heq as -> -> ->. rewrite Ela, Elo in Hproj. cbn [to_num] in Hproj.
    split; [exact Hx|]. split; [exact Hy|].
    split; [apply point_size_bounds|].
    exists p, la, lo. auto.
Qed.

(** ** The size of the canvas *)

Section SizeFacts.

Lemma or_number_truthy a b :
  Num.truthy b = true -> Num.truthy (or_number a b) = true.
Proof. intros Hb. unfold or_number. now destruct (Num.truthy a) eqn:E. Qed.

Lemma at_least_320_truthy h :
  Num.leb (q 320 1) h = true -> Num.truthy h = true.
Proof.
  destruct h as [| | |c]; try discriminate; try reflexivity.
  unfold q. rewrite NumFacts.leb_Fin. intros H. simpl.
  destruct (Qeq_bool c 0) eqn:E; [|reflexivity].
  apply Qeq_bool_eq in E. lra.
Qed.

Lemma wide_height w :
  Num.truthy w = true ->
  Num.leb (q 320 1) (Num.max (q 320 1) (Num.mul w baseRatio)) = true.
Proof.
  intros Hw.
  assert (Hm : Num.isNaN (Num.mul w baseRatio) = false).
  { destruct w as [| | |c]; try discriminate; reflexivity. }
  now destruct (NumOrder.max_spec (q 320 1) (Num.mul w baseRatio) eq_refl Hm)
    as (H & _).
Qed.
End SizeFacts.

(** X15.  Whatever the window reports, [resizeCanvas] gives the canvas a
    width and a height that are neither zero nor NaN; in square and tall
    mode they are equal, in wide mode the height is at least 320, and on a
    window at most 800 wide the mode is never wide. *)
Theorem canvas_size_shape (mode : Mode) (env : Window) :
  let m := fst (canvas_size mode env) in
  let w := fst (snd (canvas_size mode env)) in
  let h := snd (snd (canvas_size mode env)) in
  Num.truthy w = true /\ Num.truthy h = true
  /\ (is_wide m = false -> h = w)
  /\ (is_wide m = true -> Num.leb (q 320 1) h = true)
  /\ (isMobile env = true -> is_wide m = false).
Proof.
  unfold canvas_size.
  set (m := if isMobile env && is_wide mode then square else mode).
  assert (Hmob : isMobile env = true -> is_wide m = false).
  { intros Hm. subst m. rewrite Hm. now destruct mode. }
  destruct m eqn:Em; cbn [is_tall is_square is_wide fst snd].
  - assert (Hw : Num.truthy (or_number (rect_width env) (q 900 1)) = true)
      by now apply or_number_truthy.
    split; [exact Hw|]. pose proof (wide_height _ Hw) as Hh.
    split; [now apply at_least_320_truthy|]. split; [discriminate|].
    split; [intros _; exact Hh|exact Hmob].
  - assert (Hw : Num.truthy (or_number (rect_width env) (q 900 1)) = true)
      by now apply or_number_truthy.
    repeat split; auto. discriminate.
  - assert (Hw : Num.truthy
                   (or_number (or_number (innerHeight env) (rect_width env))
                      (q 900 1)) = true)
      by now apply or_number_truthy.
    repeat split; auto. discriminate.
Qed.



(** ** Counts per land polygon *)

Section CountFacts.
Context {Feature : Type} {GC : GeoContains Feature}.

Lemma first_containing_spec features coord :
  match first_containing features coord with
  | Some i =>
      (i < List.length features)%nat
      /\ existsb (fun f => geoContains f coord) features = true
  | None => existsb (fun f => geoContains f coord) features = false
  end.
Proof.
  induction features as [|f fs IH]; [reflexivity|].
  cbn [first_containing existsb]. destruct (geoContains f coord).
  - split; [simpl; lia|reflexivity].
  - destruct (first_containing fs coord) as [i|]; cbn [option_map orb].
    + destruct IH as [Hi He]. split; [simpl; lia|exact He].
    + exact IH.
Qed.

Lemma bump_spec counts i :
  (i < List.length counts)%nat ->
  List.length (bump counts i) = List.length counts
  /\ list_sum (bump counts i) = (list_sum counts + 1)%nat.
Proof.
  revert i. induction counts as [|c cs IH]; intros i Hi; [simpl in Hi; lia|].
  destruct i as [|j]; cbn [bump].
  - split; [reflexivity|]. destruct c; simpl; lia.
  - destruct (IH j) as [Hl Hs]; [simpl in Hi; lia|].
    split; simpl; lia.
Qed.

Lemma count_point_spec features counts ip :
  List.length counts = List.length features ->
  List.length (count_point features counts ip) = List.length features
  /\ list_sum (count_point features counts ip)
     = (list_sum counts + if on_land features ip then 1 else 0)%nat.
Proof.
  intros Hlen. unfold count_point, on_land.
  destruct (Entry.lat ip) as [la|]; [|split; [assumption|lia]].
  destruct (Entry.lon ip) as [lo|]; [|split; [assumption|lia]].
  pose proof (first_containing_spec features (lo, la)) as Hf.
  destruct (first_containing features (lo, la)) as [i|].
  - destruct Hf as [Hi ->]. rewrite <- Hlen in Hi.
    destruct (bump_spec counts i Hi) as [Hl Hs]. split; congruence.
  - rewrite Hf. split; [assumption|lia].
Qed.

Lemma fold_count_point features ips counts :
  List.length counts = List.length features ->
  List.length (fold_left (count_point features) ips counts)
  = List.length features
  /\ list_sum (fold_left (count_point features) ips counts)
     = (list_sum counts
        + List.length (filter (on_land features) ips))%nat.
Proof.
  revert counts. induction ips as [|ip ips IH]; intros counts Hlen.
  - split; [assumption|simpl; lia].
  - cbn [fold_left filter].
    destruct (count_point_spec features counts ip Hlen) as [Hl Hs].
    destruct (IH _ Hl) as [Hl' Hs']. split; [assumption|].
    rewrite Hs', Hs. destruct (on_land features ip); simpl; lia.
Qed.

(** The count [bump] raises is the one at its position. *)
Lemma nth_error_bump counts i j :
  nth_error (bump counts i) j
  = if Nat.eqb i j then option_map S (nth_error counts j)
    else nth_error counts j.
Proof.
  revert i j. induction counts as [|c cs IH]; intros i j.
  - destruct (Nat.eqb i j), j; reflexivity.
  - destruct i as [|i], j as [|j]; cbn [bump nth_error Nat.eqb option_map];
      try reflexivity.
    + f_equal. destruct c; simpl; lia.
    + apply IH.
Qed.

(** [homed_at] names the position the inner loop stops at. *)
Lemma first_containing_homed features coord i :
  match nth_error features i with
  | Some f =>
      geoContains f coord
      && negb (existsb (fun g => geoContains g coord) (firstn i features))
  | None => false
  end
  = match first_containing features coord with
    | Some k => Nat.eqb k i
    | None => false
    end.
Proof.
  revert i. induction features as [|f fs IH]; intros i.
  - destruct i; reflexivity.
  - destruct i as [|i];
      cbn [nth_error firstn existsb first_containing].
    + destruct (geoContains f coord); [reflexivity|].
      destruct (first_containing fs coord); reflexivity.
    + destruct (geoContains f coord); cbn [orb negb].
      * destruct (nth_error fs i); [apply andb_false_r|reflexivity].
      * rewrite (IH i).
        destruct (first_containing fs coord); reflexivity.
Qed.

Lemma nth_error_count_point features counts ip i :
  nth_error (count_point features counts ip) i
  = option_map
      (fun c => (c + if homed_at features i ip then 1 else 0)%nat)
      (nth_error counts i).
Proof.
  assert (Hid : forall o : option nat,
             o = option_map (fun c => (c + 0)%nat) o).
  { intros [c|]; simpl; [f_equal; lia|reflexivity]. }
  unfold count_point, homed_at.
  destruct (Entry.lat ip) as [la|]; [|apply Hid].
  destruct (Entry.lon ip) as [lo|]; [|apply Hid].
  rewrite (first_containing_homed features (lo, la) i).
  destruct (first_containing features (lo, la)) as [k|]; [|apply Hid].
  rewrite nth_error_bump. destruct (Nat.eqb k i); [|apply Hid].
  destruct (nth_error counts i) as [c|]; simpl; [f_equal; lia|reflexivity].
Qed.

Lemma nth_error_fold_count_point features ips counts i :
  nth_error (fold_left (count_point features) ips counts) i
  = option_map
      (fun c => (c + List.length (filter (homed_at features i) ips))%nat)
      (nth_error counts i).
Proof.
  revert counts. induction ips as [|ip ips IH]; intros counts.
  - cbn [fold_left filter List.length].
    destruct (nth_error counts i) as [c|]; simpl; [f_equal; lia|reflexivity].
  - cbn [fold_left filter]. rewrite IH, nth_error_count_point.
    destruct (nth_error counts i) as [c|]; [|reflexivity].
    cbn [option_map]. f_equal.
    destruct (homed_at features i ip); simpl; lia.
Qed.

Lemma list_sum_zeros (features : list Feature) :
  list_sum (map (fun _ => O) features) = O.
Proof. induction features as [|f fs IH]; [reflexivity|exact IH]. Qed.

Lemma on_land_located features ip :
  on_land features ip = true -> located_entry ip = true.
Proof.
  unfold on_land, located_entry.
  destruct (Entry.lat ip), (Entry.lon ip); auto; discriminate.
Qed.
End CountFacts.

(** X17.  With the base map loaded, [updateCountryCounts] keeps one count
    per feature, and the count of the feature at each position is the
    number of summaries with both coordinates that it contains and that
    no feature before it contains: a point is counted once, for the
    first feature that contains it.  So the counts add up to the number
    of summaries that have both coordinates and lie in some feature, and
    a point in no feature or without coordinates is not counted. *)
Theorem updateCountryCounts_partition
    {Feature : Type} {GC : GeoContains Feature}
    (features : list Feature) (ips : list Entry.t) :
  exists counts,
    updateCountryCounts (Some features) ips = Some counts
    /\ List.length counts = List.length features
    /\ (forall i f,
          nth_error features i = Some f ->
          nth_error counts i
          = Some (List.length (filter (homed_at features i) ips)))
    /\ list_sum counts = List.length (filter (on_land features) ips)
    /\ (list_sum counts <= List.length (filter located_entry ips))%nat.
Proof.
  unfold updateCountryCounts. eexists. split; [reflexivity|].
  destruct (fold_count_point features ips (map (fun _ => O) features))
    as [Hl Hs]; [apply length_map|].
  rewrite list_sum_zeros in Hs. split; [exact Hl|]. split.
  { intros i f Hf. rewrite nth_error_fold_count_point, nth_error_map, Hf.
    reflexivity. }
  split; [exact Hs|].
  rewrite Hs. apply filter_length_le. intros ip _.
  apply on_land_located.
Qed.

(** X18.  The opacity of a land polygon lies between 0.2 and 0.8 for
    every count, given that the logarithm of a number from 1 on is not
    negative. *)
Theorem land_alpha_bounds {M : JSMath} (c : nat) :
  Num.leb (q 0 1) (log10 (Num.of_Z (Z.of_nat c + 1))) = true ->
  Num.leb (q 2 10) (land_alpha c) = true
  /\ Num.leb (land_alpha c) (q 8 10) = true.
Proof.
  intros Hlog. unfold land_alpha.
  destruct (0 <? c)%nat; [|split; reflexivity].
  destruct (log10 (Num.of_Z (Z.of_nat c + 1))) as [| | |l];
    try discriminate; [split; reflexivity|].
  unfold q in Hlog. apply NumFacts.leb_Fin in Hlog.
  unfold Num.mul, Num.add, Num.min, q, Num.leb.
  destruct (Qle_bool (8 # 10) ((2 # 10) + l * (6 # 10))) eqn:E.
  - split; apply Qle_bool_iff; lra.
  - assert (~ 8 # 10 <= (2 # 10) + l * (6 # 10))
      by (intro X; apply Qle_bool_iff in X; congruence).
    split; apply Qle_bool_iff; lra.
Qed.

Lemma land_alpha_bounds_witness :
  Num.leb (q 0 1)
    (log10 (JSMath := SampleMath.ops) (Num.of_Z (Z.of_nat 9 + 1))) = true
  /\ Num.leb (land_alpha (M := SampleMath.ops) 9) (q 8 10) = true.
Proof.
  split; [reflexivity|].
  apply (land_alpha_bounds (M := SampleMath.ops) 9). reflexivity.
Defined.

(** ** The terminator *)

(** X19.  Before the correction by the equation of time, the longitude of
    the sun computed by [getSunPosition] falls linearly over the UTC day
    from -180 at midnight towards -540: it is -180 less 360 times the
    fraction of the day elapsed, it is not brought back into
    [-180, 180], and the centre of the night circle is 180 degrees east
    of it at the opposite latitude. *)
Theorem sun_longitude_over_the_day {S : Solar} (now : Z) (eot : Q) :
  equationOfTime (century now) = Fin eot ->
  exists lon : Q,
    fst (getSunPosition now) = Fin lon
    /\ lon + eot / 4
       == -(180) - 360 * (inject_Z (now mod 86400000) / 86400000)
    /\ -(540) < lon + eot / 4 /\ lon + eot / 4 <= -(180)
    /\ Num.same (fst (fst (night_circle now))) (Fin (lon + 180))
    /\ snd (fst (night_circle now)) = Num.neg (snd (getSunPosition now)).
Proof.
  intros Heot. unfold night_circle, antipode, getSunPosition, utc_midnight.
  rewrite Heot. cbn [fst snd].
  assert (Hd : forall a, Num.div (Fin a) (q 86400000 1) = Fin (a / 86400000))
    by reflexivity.
  assert (H4 : Num.div (Fin eot) (q 4 1) = Fin (eot / 4)) by reflexivity.
  unfold Num.of_Z. rewrite Hd, H4.
  cbn [Num.mul Num.sub Num.neg Num.add q].
  eexists. split; [reflexivity|].
  pose proof (Z.mod_pos_bound now 86400000 eq_refl) as [Hm0 Hm1].
  replace (now - now mod 86400000 - now)%Z with (- (now mod 86400000))%Z
    by lia.
  set (m := (now mod 86400000)%Z) in *.
  assert (Hq0 : 0 <= inject_Z m) by (unfold Qle; simpl; lia).
  assert (Hq1 : inject_Z m < 86400000) by (unfold Qlt; simpl; lia).
  rewrite inject_Z_opp.
  assert (Hx1 : inject_Z m / 86400000 < 1)
    by (apply Qlt_shift_div_r; lra).
  assert (Hx0 : 0 <= inject_Z m / 86400000)
    by (apply Qle_shift_div_l; lra).
  assert (E : - inject_Z m / 86400000 * 360 + - (180) + - (eot / 4) + eot / 4
              == -(180) - 360 * (inject_Z m / 86400000)) by field.
  split; [exact E|]. rewrite E.
  split; [lra|]. split; [lra|].
  split; [cbn [Num.same]; ring|reflexivity].
Qed.

Lemma sun_longitude_over_the_day_witness :
  equationOfTime (Solar := SampleSolar.ops)
    (century (Solar := SampleSolar.ops) 43200000) = Fin 0
  /\ exists lon : Q,
       fst (getSunPosition (S := SampleSolar.ops) 43200000) = Fin lon
       /\ lon + 0 / 4
          == -(180) - 360 * (inject_Z (43200000 mod 86400000) / 86400000).
Proof.
  split; [reflexivity|].
  destruct (sun_longitude_over_the_day (S := SampleSolar.ops) 43200000 0)
    as (lon & H1 & H2 & _); [reflexivity|].
  exists lon. split; assumption.
Defined.

(** ** The values offered by the selectors *)

Section OptionFacts.
Context {JS : JSString}.
Import StrMapFacts.

Lemma find_snoc {A : Type} (f : A -> bool) (l : list A) (x : A) :
  find f (l ++ [x])
  = match find f l with
    | Some y => Some y
    | None => if f x then Some x else None
    end.
Proof.
  induction l as [|a l IH]; [reflexivity|].
  cbn [app find]. now destruct (f a).
Qed.

Lemma collect_values_snoc vals x :
  collect_values (vals ++ [x]) = addVal (collect_values vals) x.
Proof. unfold collect_values. now rewrite fold_left_app. Qed.

Lemma NoDup_collect_values vals :
  NoDup (StrMap.keys (collect_values vals)).
Proof.
  induction vals as [|x vals IH] using rev_ind; [constructor|].
  rewrite collect_values_snoc. unfold addVal.
  destruct (negb (truthy_str x)); [exact IH|].
  destruct (StrMap.get (collect_values vals) (toLowerCase (or_empty x)));
    [exact IH|].
  now apply NoDup_keys_set.
Qed.

Lemma get_collect_values vals k :
  StrMap.get (collect_values vals) k
  = option_map or_empty (first_spelling k vals).
Proof.
  unfold first_spelling.
  induction vals as [|x vals IH] using rev_ind; [reflexivity|].
  rewrite collect_values_snoc, find_snoc.
  remember (find (fun o => truthy_str o
                           && String.eqb (toLowerCase (or_empty o)) k) vals)
    as F eqn:HF. clear HF.
  unfold addVal. destruct (truthy_str x) eqn:Ex; cbn [negb andb].
  - destruct (String.eqb_spec (toLowerCase (or_empty x)) k) as [Heq|Hne].
    + subst k.
      destruct (StrMap.get (collect_values vals)
                  (toLowerCase (or_empty x))) eqn:Eg.
      * rewrite Eg. destruct F; [exact IH|discriminate].
      * rewrite get_set_same. destruct F; [discriminate|reflexivity].
    + destruct (StrMap.get (collect_values vals)
                  (toLowerCase (or_empty x))) eqn:Eg.
      * rewrite IH. now destruct F.
      * rewrite get_set_other by assumption. rewrite IH. now destruct F.
  - rewrite IH. now destruct F.
Qed.
End OptionFacts.

(** X20.  The values a selector offers are keyed by their lower-cased
    form without repetition, and a key is labelled with the first truthy
    value of that lower-cased form in the order of the records: spellings
    that differ in case only give one option, and values that are absent
    or empty give none. *)
Theorem populateFilters_first_spelling
    {JS : JSString} (hits : list Hit.t) (k : string) :
  NoDup (StrMap.keys (countries (populateFilters hits)))
  /\ StrMap.get (countries (populateFilters hits)) k
     = option_map or_empty (first_spelling k (map Hit.country hits))
  /\ StrMap.get (cities (populateFilters hits)) k
     = option_map or_empty (first_spelling k (map Hit.city hits))
  /\ StrMap.get (devices (populateFilters hits)) k
     = option_map or_empty (first_spelling k (map Hit.ua_type hits)).
Proof.
  unfold populateFilters. cbn [countries cities devices].
  split; [apply NoDup_collect_values|].
  repeat split; apply get_collect_values.
Qed.

(** X21.  A country the selector offers always finds a record: with the
    other controls untouched, selecting an offered key leaves at least one
    record in the filtered set.  The key is a lower-cased value, which
    lower-casing leaves as it is, and the empty query stays empty under
    [trim] and [toLowerCase]. *)
Theorem offered_country_matches
    {JS : JSString} (hits : list Hit.t) (k label : string) :
  StrMap.get (countries (populateFilters hits)) k = Some label ->
  toLowerCase k = k -> toLowerCase (trim "") = "" ->
  exists h, In h (filteredHits hits (country_selected k)).
Proof.
  intros Hget Hk Hq.
  unfold populateFilters in Hget. cbn [countries] in Hget.
  rewrite get_collect_values in Hget. unfold first_spelling in Hget.
  destruct (find _ (map Hit.country hits)) as [o|] eqn:Hf; [|discriminate].
  apply find_some in Hf. destruct Hf as [Hin Hp].
  apply in_map_iff in Hin. destruct Hin as (h & <- & Hh).
  apply andb_true_iff in Hp. destruct Hp as [_ Hlow].
  apply String.eqb_eq in Hlow.
  exists h. unfold filteredHits. apply filter_In. split; [exact Hh|].
  unfold hitMatchesFilters, country_selected, category_rejects,
    start_rejects, end_rejects.
  cbn [Filters.text Filters.country Filters.city Filters.device
       Filters.startTs Filters.endTs].
  rewrite Hq, Hlow, Hk, String.eqb_refl.
  cbn [nonempty andb negb]. rewrite andb_false_r. reflexivity.
Qed.

Lemma offered_country_matches_witness :
  StrMap.get
    (countries (populateFilters (JS := AsciiText.ops) mixed_case_hits)) "us"
  = Some "us"
  /\ exists h,
       In h (filteredHits (JS := AsciiText.ops) mixed_case_hits
               (country_selected "us")).
Proof.
  split; [reflexivity|].
  apply (offered_country_matches (JS := AsciiText.ops) mixed_case_hits
           "us" "us"); reflexivity.
Defined.

(** ** The table *)

Section SortFacts.

Lemma insert_by_count_perm x l : Permutation (insert_by_count x l) (x :: l).
Proof.
  induction l as [|y l IH]; [reflexivity|]. cbn [insert_by_count].
  destruct (cell_count y <=? cell_count x)%nat; [reflexivity|].
  rewrite IH. apply perm_swap.
Qed.

Lemma sort_by_count_perm l : Permutation (sort_by_count l) l.
Proof.
  induction l as [|x l IH]; [reflexivity|]. cbn [sort_by_count fold_right].
  rewrite insert_by_count_perm. now constructor.
Qed.

Lemma insert_by_count_sorted x l :
  Sorted count_desc l -> Sorted count_desc (insert_by_count x l).
Proof.
  induction l as [|y l IH]; intros Hs; [repeat constructor|].
  cbn [insert_by_count].
  destruct (cell_count y <=? cell_count x)%nat eqn:E.
  - constructor; [assumption|]. constructor.
    apply Nat.leb_le in E. exact E.
  - apply Nat.leb_gt in E. inversion Hs as [|? ? Hs' Hhd]; subst.
    constructor; [now apply IH|].
    destruct l as [|z l]; cbn [insert_by_count].
    + constructor. unfold count_desc. lia.
    + destruct (cell_count z <=? cell_count x)%nat.
      * constructor. unfold count_desc. lia.
      * inversion Hhd; subst. now constructor.
Qed.

Lemma sort_by_count_sorted l : Sorted count_desc (sort_by_count l).
Proof.
  induction l as [|x l IH]; [constructor|].
  cbn [sort_by_count fold_right]. now apply insert_by_count_sorted.
Qed.

Lemma list_sum_perm (l l' : list nat) :
  Permutation l l' -> list_sum l = list_sum l'.
Proof. induction 1; simpl; lia. Qed.
End SortFacts.

Section TableFacts.
Context {JS : JSString}.

Lemma filteredHits_pass allHits filters h :
  In h (filteredHits allHits filters) ->
  hitMatchesFilters h filters None = true.
Proof. unfold filteredHits. rewrite filter_In. tauto. Qed.

Lemma summary_lines_details l : summary_lines (map DetailRow l) = [].
Proof. induction l as [|a l IH]; [reflexivity|exact IH]. Qed.

Lemma detail_hits_details l : detail_hits (map DetailRow l) = l.
Proof.
  induction l as [|a l IH]; [reflexivity|].
  unfold detail_hits in *. cbn [map flat_map app]. now rewrite IH.
Qed.

(** The rows of a summary of the filtered hits: all the hits of its
    address, under a row that announces its count. *)
Lemma row_group_summary allHits filters e :
  let fh := filteredHits allHits filters in
  In e (aggregateIps fh) ->
  summary_lines (row_group fh filters (cells_of e))
  = [(Entry.ip e, Entry.count e)]
  /\ detail_hits (row_group fh filters (cells_of e))
     = records_of (Entry.ip e) fh
  /\ List.length (records_of (Entry.ip e) fh) = Entry.count e.
Proof.
  intros fh He.
  destruct (aggregateIps_count_records fh e He) as [Hc H1].
  unfold row_group. cbn [cells_of cell_ip cell_country cell_city
                         cell_ua_type].
  assert (Hall : filter (fun h => hitMatchesFilters h filters None)
                   (records_of (Entry.ip e) fh)
                 = records_of (Entry.ip e) fh).
  { apply forallb_filter_id. apply forallb_forall. intros h Hh.
    apply (filteredHits_pass allHits). unfold records_of in Hh.
    now apply filter_In in Hh. }
  rewrite Hall.
  destruct (records_of (Entry.ip e) fh) as [|r rs] eqn:Hr;
    [simpl in Hc; lia|].
  change (summary_lines (?a :: ?l)) with
    (match a with
     | SummaryRow ip _ _ _ n => [(ip, n)]
     | DetailRow _ => []
     end ++ summary_lines l)%list.
  change (detail_hits (?a :: ?l)) with
    (match a with
     | SummaryRow _ _ _ _ _ => []
     | DetailRow h => [h]
     end ++ detail_hits l)%list.
  cbn iota. rewrite summary_lines_details, detail_hits_details, <- Hc.
  repeat split.
Qed.

Lemma table_of_cells allHits filters (cs : list Cells) :
  let fh := filteredHits allHits filters in
  (forall c, In c cs -> exists e, In e (aggregateIps fh) /\ c = cells_of e) ->
  summary_lines (flat_map (row_group fh filters) cs)
  = map (fun c => (cell_ip c, cell_count c)) cs
  /\ List.length (detail_hits (flat_map (row_group fh filters) cs))
     = list_sum (map cell_count cs).
Proof.
  intros fh. induction cs as [|c cs IH]; intros Hin; [split; reflexivity|].
  destruct (Hin c (or_introl eq_refl)) as (e & He & ->).
  destruct (row_group_summary allHits filters e He) as (Hs & Hd & Hl).
  destruct IH as [IHs IHd]; [intros c' Hc'; apply Hin; now right|].
  fold fh in Hs, Hd, Hl.
  unfold summary_lines, detail_hits in *. cbn [map flat_map list_sum].
  rewrite !flat_map_app, length_app. rewrite Hs, Hd, IHs, IHd, Hl.
  split; reflexivity.
Qed.

Lemma Sorted_summary_lines (cs : list Cells) :
  Sorted count_desc cs ->
  Sorted hits_desc (map (fun c => (cell_ip c, cell_count c)) cs).
Proof.
  induction 1 as [|c cs Hs IH Hhd]; [constructor|].
  cbn [map]. constructor; [exact IH|].
  destruct Hhd; cbn [map]; constructor. assumption.
Qed.
End TableFacts.

(** X22.  The table [applyFilters] renders agrees with its statistics:
    every summary has one summary row, which announces the summary's
    count; the summary rows come with counts that do not increase down
    the table; the detail rows are as many as the filtered hits; and the
    table is empty, showing the row for no matches, exactly when no hit
    passes the filter. *)
Theorem renderTable_agrees_with_statistics
    {JS : JSString} (allHits : list Hit.t) (filters : Filters.t) :
  let fh := filteredHits allHits filters in
  let table := renderTable fh (aggregateIps fh) filters in
  Permutation (summary_lines table)
    (map (fun e => (Entry.ip e, Entry.count e)) (aggregateIps fh))
  /\ Sorted hits_desc (summary_lines table)
  /\ List.length (detail_hits table) = List.length fh
  /\ (table = [] <-> fh = []).
Proof.
  intros fh table. subst table. unfold renderTable.
  set (cs := sort_by_count (map cells_of (aggregateIps fh))).
  assert (Hperm : Permutation cs (map cells_of (aggregateIps fh)))
    by apply sort_by_count_perm.
  destruct (table_of_cells allHits filters cs) as [Hs Hd].
  { intros c Hc. apply (Permutation_in _ Hperm) in Hc.
    apply in_map_iff in Hc. destruct Hc as (e & <- & He). now exists e. }
  fold fh in Hs, Hd.
  assert (Hlen : List.length (detail_hits (flat_map (row_group fh filters) cs))
                 = List.length fh).
  { rewrite Hd, (list_sum_perm _ _ (Permutation_map cell_count Hperm)).
    rewrite map_map. cbn [cells_of cell_count].
    apply sum_counts_aggregateIps. }
  split; [|split; [|split; [exact Hlen|]]].
  - rewrite Hs.
    rewrite (Permutation_map (fun c => (cell_ip c, cell_count c)) Hperm).
    rewrite map_map. reflexivity.
  - rewrite Hs. apply Sorted_summary_lines. apply sort_by_count_sorted.
  - split.
    + intros Hnil. rewrite Hnil in Hlen. simpl in Hlen.
      destruct fh; [reflexivity|discriminate].
    + intros Hnil. subst cs. rewrite Hnil. reflexivity.
Qed.

(** ** More on the time range *)

(** X23.  The time range is inclusive at both ends: a record whose parsed
    timestamp is a number other than zero passes the time predicate
    exactly when the timestamp is at least the start and at most the end;
    a record stamped with a bound itself passes. *)
Theorem time_range_inclusive (h : Hit.t) (f : Filters.t) (t s e : Q) :
  Hit._ts h = Fin t -> ~ t == 0 ->
  (time_predicate h (Filters.with_range f (Some (Fin s)) (Some (Fin e)))
   = true <-> s <= t /\ t <= e).
Proof.
  intros Ht Hnz. unfold time_predicate, start_rejects, end_rejects, Num.gtb.
  cbn [Filters.with_range Filters.startTs Filters.endTs]. rewrite Ht.
  assert (Htr : Num.truthy (Fin t) = true).
  { simpl. destruct (Qeq_bool t 0) eqn:E; [|reflexivity].
    apply Qeq_bool_eq in E. contradiction. }
  rewrite Htr. cbn [andb].
  rewrite andb_true_iff, !negb_true_iff. split.
  - intros [H1 H2]. split.
    + destruct (Qlt_le_dec t s) as [Hlt|Hle]; [|exact Hle].
      apply NumFacts.ltb_Fin in Hlt. congruence.
    + destruct (Qlt_le_dec e t) as [Hlt|Hle]; [|exact Hle].
      apply NumFacts.ltb_Fin in Hlt. congruence.
  - intros [H1 H2]. split.
    + destruct (Num.ltb (Fin t) (Fin s)) eqn:E; [|reflexivity].
      apply NumFacts.ltb_Fin in E. lra.
    + destruct (Num.ltb (Fin e) (Fin t)) eqn:E; [|reflexivity].
      apply NumFacts.ltb_Fin in E. lra.
Qed.

Lemma time_range_inclusive_witness :
  Hit._ts (Hit.with_ts undated_hit (Fin 5)) = Fin 5
  /\ ~ 5 == 0
  /\ time_predicate (Hit.with_ts undated_hit (Fin 5))
       (Filters.with_range Filters.initial (Some (Fin 5)) (Some (Fin 9)))
     = true.
Proof.
  assert (Hnz : ~ 5 == 0) by (intro H; discriminate H).
  split; [reflexivity|]. split; [exact Hnz|].
  apply (time_range_inclusive (Hit.with_ts undated_hit (Fin 5))
           Filters.initial 5 5 9); [reflexivity|exact Hnz|].
  split; unfold Qle; simpl; lia.
Defined.

(** X24.  The values [updateTimeFromInputs] writes back to the two
    controls are a fixed point: reading them again leaves the filter
    state as it is. *)
Theorem updateTimeFromInputs_settles
    {DT : JSDate} (hits : list Hit.t) (startInput endInput : num)
    (filters : Filters.t) :
  let td := timeDomain (load hits) in
  let updated := updateTimeFromInputs td startInput endInput filters in
  updateTimeFromInputs td
    (nullish (Filters.startTs updated) NaN)
    (nullish (Filters.endTs updated) NaN) updated
  = updated.
Proof.
  intros td updated.
  destruct (load_timeDomain_not_NaN hits) as [Hmin Hmax].
  destruct (updateTimeFromInputs_range (timeDomain (load hits))
              startInput endInput filters Hmin Hmax)
    as (s & e & Hs & He & Hle).
  fold td in Hs, He. fold updated in Hs, He. rewrite Hs, He. cbn [nullish].
  destruct (NumOrder.leb_not_NaN _ _ Hle) as [Hns Hne].
  unfold updateTimeFromInputs at 1. rewrite Hns, Hne.
  unfold Num.gtb. rewrite (NumOrder.leb_not_ltb _ _ Hle).
  subst updated. unfold updateTimeFromInputs in *.
  destruct (Num.gtb _ _); cbn [Filters.with_range Filters.startTs
                                Filters.endTs] in *;
    injection Hs as <-; injection He as <-; reflexivity.
Qed.

Section ClockFacts.
Context {DT : JSDate}.

(** The first element of the list [ts_or_now] makes of a list that is
    not empty. *)
Lemma ts_or_now_head k h hits :
  In (if Num.truthy (Hit._ts h) then Hit._ts h else Num.of_Z (Date_now k))
     (fst (ts_or_now k (h :: hits))).
Proof.
  cbn [ts_or_now]. destruct (Num.truthy (Hit._ts h)).
  - destruct (ts_or_now k hits). now left.
  - destruct (ts_or_now (S k) hits). now left.
Qed.

Lemma of_Z_leb a b : (a <= b)%Z -> Num.leb (Num.of_Z a) (Num.of_Z b) = true.
Proof.
  intros H. unfold Num.of_Z. apply NumFacts.leb_Fin.
  unfold Qle. simpl. lia.
Qed.
End ClockFacts.

(** X25.  With a clock that does not run backwards, the range [load]
    starts with is ordered: the least of the time domain is at most its
    greatest, also when timestamps that do not parse are replaced by the
    time of loading. *)
Theorem load_range_ordered {DT : JSDate} (hits : list Hit.t) :
  (forall i j, (i <= j)%nat -> (Date_now i <= Date_now j)%Z) ->
  Num.leb (TimeDomain.min (timeDomain (load hits)))
          (TimeDomain.max (timeDomain (load hits))) = true.
Proof.
  intros Hclock. unfold load. cbn [timeDomain].
  destruct (map stamp hits) as [|h all];
    [cbn [TimeDomain.min TimeDomain.max]; now apply of_Z_leb|].
  pose proof (ts_or_now_not_NaN (h :: all) 0) as Hlo.
  pose proof (ts_or_now_head 0 h all) as Hinlo.
  destruct (ts_or_now 0 (h :: all)) as [lows n].
  pose proof (ts_or_now_not_NaN (h :: all) n) as Hhi.
  pose proof (ts_or_now_head n h all) as Hinhi.
  destruct (ts_or_now n (h :: all)) as [highs n'].
  cbn [fst TimeDomain.min TimeDomain.max] in *.
  destruct (NumOrder.fold_min_lower lows Num.PInf Hlo eq_refl) as [_ Hmin].
  destruct (NumOrder.fold_max_upper highs Num.NInf Hhi eq_refl) as [_ Hmax].
  unfold Num.min_list, Num.max_list.
  apply (NumOrder.leb_trans _ _ _ (Hmin _ Hinlo)).
  refine (NumOrder.leb_trans _ _ _ _ (Hmax _ Hinhi)).
  destruct (Num.truthy (Hit._ts h)) eqn:Ht.
  - apply NumOrder.leb_refl. now apply NumFacts.truthy_not_NaN.
  - apply of_Z_leb, Hclock. lia.
Qed.

Lemma load_range_ordered_witness :
  (forall i j, (i <= j)%nat ->
     (Date_now (JSDate := SampleClock.ops) i
      <= Date_now (JSDate := SampleClock.ops) j)%Z)
  /\ Num.leb
       (TimeDomain.min
          (timeDomain (load (DT := SampleClock.ops)
                         (undated_hit :: scenario_hits))))
       (TimeDomain.max
          (timeDomain (load (DT := SampleClock.ops)
                         (undated_hit :: scenario_hits)))) = true.
Proof.
  assert (Hclock : forall i j, (i <= j)%nat ->
            (Date_now (JSDate := SampleClock.ops) i
             <= Date_now (JSDate := SampleClock.ops) j)%Z).
  { intros i j Hij. simpl. unfold SampleClock.now. lia. }
  split; [exact Hclock|].
  apply (load_range_ordered (DT := SampleClock.ops)
           (undated_hit :: scenario_hits)).
  exact Hclock.
Defined.

(** X26.  A point that is not culled is drawn: with both coordinates, a
    finite screen position and, under the orthographic projection, a
    rotated longitude within 90 degrees, [drawPoints] emits exactly one
    arc for it, at that position. *)
Theorem visible_point_drawn
    {G : D3} (name : string) (pr : Projection.t) (p : Entry.t)
    (la lo x y : num) :
  Entry.lat p = Some la -> Entry.lon p = Some lo ->
  project pr (lo, la) = Some (x, y) ->
  Num.isFinite x = true -> Num.isFinite y = true ->
  (name = "orthographic" ->
   exists rotated,
     geoRotation (Projection.rotate pr) (lo, la) = Some rotated
     /\ Num.gtb (Num.abs (fst rotated)) (q 90 1) = false) ->
  drawPoint name pr p = [Arc x y (point_size p)].
Proof.
  intros Hla Hlo Hp Hx Hy Hnear. unfold drawPoint. rewrite Hla, Hlo.
  destruct (String.eqb_spec name "orthographic") as [Hn|Hn].
  - destruct (Hnear Hn) as (r & -> & ->). rewrite Hp. cbn beta iota.
    now rewrite Hx, Hy.
  - rewrite Hp. cbn beta iota. now rewrite Hx, Hy.
Qed.

Lemma visible_point_drawn_witness :
  project (G := SampleD3.ops) globe_projection (q 30 1, q 10 1)
  = Some (Fin (190800 # 360), Fin (94800 # 360))
  /\ drawPoint (G := SampleD3.ops) "orthographic" globe_projection
       (point_at (q 30 1) (q 10 1))
     = [Arc (Fin (190800 # 360)) (Fin (94800 # 360))
          (point_size (point_at (q 30 1) (q 10 1)))].
Proof.
  split; [reflexivity|].
  apply (visible_point_drawn (G := SampleD3.ops) "orthographic"
           globe_projection (point_at (q 30 1) (q 10 1))
           (q 10 1) (q 30 1)); try reflexivity.
  intros _. exists (q 30 1, q (-5) 1). split; reflexivity.
Defined.

(** ** What is grabbed stays under the pointer *)

Section GrabFacts.

(** [setupProjection] and [draw] leave the drag state as it is. *)
Lemma drag_state_kept v :
  (View.dragging v = true ->
   View.dragging (draw (setupProjection v)) = true)
  /\ (View.dragMode v = pan_mode ->
      View.dragMode (draw (setupProjection v)) = pan_mode).
Proof.
  unfold draw, setupProjection.
  destruct (String.eqb (View.projectionName v) "mercator");
    [|destruct (String.eqb (View.projectionName v) "vanDerGrinten")];
    split; intros H; exact H.
Qed.

Lemma pan_move_keeps_offset v e a b :
  View.dragging v = true -> View.dragMode v = pan_mode ->
  grab_offset v = Some (Fin a, Fin b) ->
  finite_pointer e = true ->
  View.dragging (onMove v e) = true
  /\ View.dragMode (onMove v e) = pan_mode
  /\ exists a' b',
       grab_offset (onMove v e) = Some (Fin a', Fin b')
       /\ a' == a /\ b' == b.
Proof.
  intros Hd Hm Hg He. unfold grab_offset in Hg.
  destruct (View.lastPos v) as [[[lx|] [ly|]]|] eqn:Hl; try discriminate.
  unfold finite_pointer in He.
  destruct (pointer_x e) as [x|] eqn:Hx; [|discriminate].
  destruct (pointer_y e) as [y|] eqn:Hy; [|discriminate].
  apply andb_true_iff in He. destruct He as [Hfx Hfy].
  apply finite_field in Hfx, Hfy.
  destruct Hfx as [qx ->], Hfy as [qy ->].
  destruct (View.panX v) as [| | |px] eqn:Hpx;
    try (destruct lx; discriminate).
  destruct (View.panY v) as [| | |py] eqn:Hpy;
    try (destruct ly; discriminate).
  destruct lx as [| | |qlx]; try discriminate.
  destruct ly as [| | |qly]; try discriminate.
  injection Hg as <- <-.
  unfold onMove. rewrite Hd, Hl, Hx, Hy, Hm.
  cbn [negb is_null orb is_rotate andb to_num].
  rewrite andb_false_r.
  unfold grab_offset.
  cbn [View.set_lastPos View.lastPos View.dragging View.dragMode
       View.panX View.panY].
  destruct (draw_fields
              (setupProjection
                 (View.set_pan v
                    (Num.add (View.panX v) (Num.sub (Fin qx) (Fin qlx)))
                    (Num.add (View.panY v) (Num.sub (Fin qy) (Fin qly))))))
    as (_ & Hdx & Hdy & _).
  destruct (setupProjection_fields
              (View.set_pan v
                 (Num.add (View.panX v) (Num.sub (Fin qx) (Fin qlx)))
                 (Num.add (View.panY v) (Num.sub (Fin qy) (Fin qly)))))
    as (_ & Hsx & Hsy & _).
  rewrite Hdx, Hdy, Hsx, Hsy.
  cbn [View.set_pan View.panX View.panY]. rewrite Hpx, Hpy.
  split; [apply (drag_state_kept (View.set_pan v _ _)); exact Hd|].
  split; [apply (drag_state_kept (View.set_pan v _ _)); exact Hm|].
  do 2 eexists. split; [reflexivity|]. split; ring.
Qed.
(** An event from which no position is read is ignored. *)
Lemma onMove_unread v e : read_pointer e = false -> onMove v e = v.
Proof.
  unfold read_pointer, onMove. intros H. apply negb_false_iff in H.
  rewrite H. destruct (negb (View.dragging v)); [reflexivity|].
  now destruct (View.lastPos v) as [[lx ly]|].
Qed.

Lemma run_unread moves v :
  existsb read_pointer moves = false ->
  run (map PointerMove moves) v = v.
Proof.
  revert v. induction moves as [|e moves IH]; intros v H; [reflexivity|].
  cbn [existsb] in H. apply orb_false_iff in H. destruct H as [He H].
  cbn [map run fold_left handle]. rewrite (onMove_unread v e He).
  now apply IH.
Qed.

Lemma steady_cases e :
  steady_pointer e = true ->
  read_pointer e = false \/ finite_pointer e = true.
Proof.
  unfold steady_pointer, read_pointer, finite_pointer.
  destruct (pointer_x e), (pointer_y e); cbn [is_null orb negb]; auto.
Qed.

Lemma pan_moves_keep_offset moves :
  forall v a b,
    View.dragging v = true -> View.dragMode v = pan_mode ->
    grab_offset v = Some (Fin a, Fin b) ->
    forallb steady_pointer moves = true ->
    exists a' b',
      grab_offset (run (map PointerMove moves) v) = Some (Fin a', Fin b')
      /\ a' == a /\ b' == b.
Proof.
  induction moves as [|e moves IH]; intros v a b Hd Hm Hg Hf.
  - exists a, b. split; [exact Hg|]. split; reflexivity.
  - cbn [forallb] in Hf. apply andb_true_iff in Hf. destruct Hf as [He Hf].
    cbn [map run fold_left handle].
    destruct (steady_cases e He) as [Hu | Hfin].
    + rewrite (onMove_unread v e Hu). now apply IH.
    + destruct (pan_move_keeps_offset v e a b Hd Hm Hg Hfin)
        as (Hd' & Hm' & a1 & b1 & Hg' & Ha1 & Hb1).
      destruct (IH (onMove v e) a1 b1 Hd' Hm' Hg' Hf)
        as (a2 & b2 & Hg2 & Ha2 & Hb2).
      exists a2, b2. split; [exact Hg2|]. split.
      * now rewrite Ha2.
      * now rewrite Hb2.
Qed.

(** What a pointer-move does to the pan offset: the event is ignored,
    or it leaves the offset as it is, or it adds the distance from the
    last position. *)
Lemma onMove_pan_fields v e :
  onMove v e = v
  \/ (View.panX (onMove v e) = View.panX v
      /\ View.panY (onMove v e) = View.panY v)
  \/ (exists lx ly x y,
        View.lastPos v = Some (lx, ly)
        /\ pointer_x e = Some x /\ pointer_y e = Some y
        /\ View.panX (onMove v e)
           = Num.add (View.panX v) (Num.sub x (to_num lx))
        /\ View.panY (onMove v e)
           = Num.add (View.panY v) (Num.sub y (to_num ly))).
Proof.
  unfold onMove. destruct (negb (View.dragging v)); [now left|].
  destruct (View.lastPos v) as [[lx ly]|]; [|now left].
  destruct (pointer_x e) as [x|]; [|now left].
  destruct (pointer_y e) as [y|]; [|now left].
  cbn [is_null orb to_num].
  destruct (View.allowRotation v && is_rotate (View.dragMode v)).
  - right. left. split; reflexivity.
  - right. right. exists lx, ly, x, y. split; [reflexivity|].
    split; [reflexivity|]. split; [reflexivity|].
    cbn [View.set_lastPos View.panX View.panY].
    match goal with
    | |- View.panX (draw (setupProjection ?u)) = _ /\ _ =>
        destruct (draw_fields (setupProjection u)) as (_ & -> & -> & _);
        destruct (setupProjection_fields u) as (_ & -> & -> & _)
    end.
    split; reflexivity.
Qed.

(** A pan offset that is NaN stays NaN under pointer-moves. *)
Lemma run_panX_NaN moves v :
  View.panX v = NaN -> View.panX (run (map PointerMove moves) v) = NaN.
Proof.
  revert v. induction moves as [|e moves IH]; intros v H; [exact H|].
  cbn [map run fold_left handle]. apply IH.
  destruct (onMove_pan_fields v e)
    as [-> | [[-> _] | (lx & ly & x & y & _ & _ & _ & -> & _)]];
    try exact H.
  now rewrite H.
Qed.

Lemma run_panY_NaN moves v :
  View.panY v = NaN -> View.panY (run (map PointerMove moves) v) = NaN.
Proof.
  revert v. induction moves as [|e moves IH]; intros v H; [exact H|].
  cbn [map run fold_left handle]. apply IH.
  destruct (onMove_pan_fields v e)
    as [-> | [[_ ->] | (lx & ly & x & y & _ & _ & _ & _ & ->)]];
    try exact H.
  now rewrite H.
Qed.

(** The first move that is read after a pointer-down that read no
    position: the difference to [undefined] is NaN. *)
Lemma first_read_move v e lx ly :
  View.dragging v = true -> View.dragMode v = pan_mode ->
  View.lastPos v = Some (lx, ly) -> read_pointer e = true ->
  (lx = None -> View.panX (onMove v e) = NaN)
  /\ (ly = None -> View.panY (onMove v e) = NaN).
Proof.
  intros Hd Hm Hl He.
  unfold read_pointer in He. apply negb_true_iff in He.
  unfold onMove. rewrite Hd, Hl, He, Hm. cbn [negb is_rotate].
  rewrite andb_false_r. cbn [View.set_lastPos View.panX View.panY].
  match goal with
  | |- (_ -> View.panX (draw (setupProjection ?u)) = _) /\ _ =>
      destruct (draw_fields (setupProjection u)) as (_ & -> & -> & _);
      destruct (setupProjection_fields u) as (_ & -> & -> & _)
  end.
  cbn [View.set_pan View.panX View.panY].
  split; intros ->; cbn [to_num Num.sub Num.neg].
  - destruct (View.panX v), (to_num (pointer_x e)); reflexivity.
  - destruct (View.panY v), (to_num (pointer_y e)); reflexivity.
Qed.

Lemma unread_down_pan moves :
  forall v lx ly,
    View.dragging v = true -> View.dragMode v = pan_mode ->
    View.lastPos v = Some (lx, ly) ->
    existsb read_pointer moves = true ->
    (lx = None -> View.panX (run (map PointerMove moves) v) = NaN)
    /\ (ly = None -> View.panY (run (map PointerMove moves) v) = NaN).
Proof.
  induction moves as [|e moves IH]; intros v lx ly Hd Hm Hl Hr;
    [discriminate|].
  cbn [map run fold_left handle].
  destruct (read_pointer e) eqn:He.
  - destruct (first_read_move v e lx ly Hd Hm Hl He) as [Hx Hy].
    split; intros E.
    + apply run_panX_NaN. now apply Hx.
    + apply run_panY_NaN. now apply Hy.
  - rewrite (onMove_unread v e He). cbn [existsb] in Hr. rewrite He in Hr.
    now apply (IH v lx ly).
Qed.
End GrabFacts.

(** X27.  A pan drag, begun with the shift key held or while the
    projection cannot rotate, from a finite pan offset, over any sequence
    of pointer-moves whose positions are finite where the handler reads
    one.  When the pointer-down reads a finite position, what was grabbed
    stays under the pointer: the pan offset less the last pointer position
    is, at the end, the pan offset before the drag less the position of
    the pointer-down.  When the pointer-down reads no x (or y), as a
    mouse-down at coordinate 0 does, and some move is read, [panX] (or
    [panY]) ends as NaN.  When no move is read, as with mouse events at
    coordinate 0, the moves are ignored and the pan offset is as before
    the drag. *)
Theorem pan_follows_pointer
    (v : View.t) (d : Pointer) (moves : list Pointer) (px py : Q) :
  View.panX v = Fin px -> View.panY v = Fin py ->
  View.allowRotation v = false \/ shiftKey d = true ->
  forallb steady_pointer moves = true ->
  (forall x y : Q,
     pointer_x d = Some (Fin x) -> pointer_y d = Some (Fin y) ->
     exists a b,
       grab_offset (run (PointerDown d :: map PointerMove moves) v)
       = Some (Fin a, Fin b)
       /\ a == px - x /\ b == py - y)
  /\ (existsb read_pointer moves = true ->
      (pointer_x d = None ->
       View.panX (run (PointerDown d :: map PointerMove moves) v) = NaN)
      /\ (pointer_y d = None ->
          View.panY (run (PointerDown d :: map PointerMove moves) v) = NaN))
  /\ (existsb read_pointer moves = false ->
      View.panX (run (PointerDown d :: map PointerMove moves) v) = Fin px
      /\ View.panY (run (PointerDown d :: map PointerMove moves) v)
         = Fin py).
Proof.
  intros Hpx Hpy Hpan Hsteady. cbn [run fold_left handle].
  fold (run (map PointerMove moves) (onDown v d)).
  assert (Hd : View.dragging (onDown v d) = true) by reflexivity.
  assert (Hm : View.dragMode (onDown v d) = pan_mode).
  { unfold onDown. cbn [View.set_lastPos View.set_dragging
      View.set_dragMode View.dragMode].
    destruct Hpan as [-> | ->]; [reflexivity|].
    now destruct (negb (View.allowRotation v)). }
  assert (Hl : View.lastPos (onDown v d) = Some (pointer_x d, pointer_y d))
    by reflexivity.
  split; [|split].
  - intros x y Hx Hy.
    assert (Hg : grab_offset (onDown v d)
                 = Some (Fin (px + - x), Fin (py + - y))).
    { unfold grab_offset. rewrite Hl, Hx, Hy.
      change (View.panX (onDown v d)) with (View.panX v).
      change (View.panY (onDown v d)) with (View.panY v).
      now rewrite Hpx, Hpy. }
    destruct (pan_moves_keep_offset moves (onDown v d) _ _ Hd Hm Hg Hsteady)
      as (a & b & Ha & Hax & Hby).
    exists a, b. split; [exact Ha|]. split.
    + rewrite Hax. ring.
    + rewrite Hby. ring.
  - intros Hr. exact (unread_down_pan moves (onDown v d) _ _ Hd Hm Hl Hr).
  - intros Hr. rewrite (run_unread moves (onDown v d) Hr).
    split; [exact Hpx|exact Hpy].
Qed.

Lemma pan_follows_pointer_witness :
  View.panX globe_view = Fin 0 /\ View.panY globe_view = Fin 0
  /\ shiftKey (mouse_at 100 40 true) = true
  /\ forallb steady_pointer
       [mouse_at 130 45 true; mouse_at 0 50 true; mouse_at 90 60 true]
     = true
  /\ exists a b,
       grab_offset
         (run (PointerDown (mouse_at 100 40 true)
               :: map PointerMove
                    [mouse_at 130 45 true; mouse_at 0 50 true;
                     mouse_at 90 60 true])
            globe_view)
       = Some (Fin a, Fin b)
       /\ a == 0 - 100 /\ b == 0 - 40.
Proof.
  split; [reflexivity|]. split; [reflexivity|]. split; [reflexivity|].
  split; [reflexivity|].
  apply (proj1 (pan_follows_pointer globe_view (mouse_at 100 40 true)
                  [mouse_at 130 45 true; mouse_at 0 50 true;
                   mouse_at 90 60 true] 0 0
                  eq_refl eq_refl (or_intror eq_refl) eq_refl)
           100 40); reflexivity.
Defined.
